(** * Maestro: scheduling, dependency graph and job life cycle

    A shallow embedding of the parts of voxmedia/maestro that its
    specification talks about, and the proofs that settle the claims
    C1..C10 against the code.

    Layout: the Go packages are mirrored by modules ([GoTime] for the part
    of the standard library's [time.Time] that the code relies on,
    [scheduler], [crypto], [model]); inside a module the definitions come
    first, then the lemmas. *)

From Stdlib Require Import ZArith List String Ascii Lia QArith Qround Qminmax Lqa.
From Stdlib Require OrderedTypeEx.
From stdpp Require Import base tactics option list relations sorting gmap sets strings pretty.

Local Open Scope string_scope.
Local Open Scope Z_scope.
Local Open Scope list_scope.

(* ===================================================================== *)
(** * The fragment of Go's [time] package the code uses                   *)
(* ===================================================================== *)

Module GoTime.

(** A [time.Time] is an instant; it is represented by the number of
    nanoseconds elapsed since Go's zero time, January 1 of year 1,
    00:00:00 UTC, which is the origin [Truncate] works from.  A
    [time.Duration] is a count of nanoseconds.  The calendar accessors are
    those of an instant read in UTC. *)
Definition Time := Z.
Definition Duration := Z.

Definition Nanosecond : Duration := 1.
Definition Millisecond : Duration := 1000000.
Definition Second : Duration := 1000000000.
Definition Minute : Duration := 60 * Second.
Definition Hour_ : Duration := 60 * Minute.
Definition nsPerDay : Z := 24 * Hour_.

(** [t.Add(d)], [t.Sub(u)], [t.After(u)], [t.Before(u)], [t.Equal(u)]. *)
Definition Add (t : Time) (d : Duration) : Time := t + d.
Definition Sub (t u : Time) : Duration := t - u.
Definition After (t u : Time) : bool := u <? t.
Definition Before (t u : Time) : bool := t <? u.
Definition Equal (t u : Time) : bool := t =? u.

(** [t.Truncate(d)]: round [t] down to a multiple of [d] since the zero
    time; for [d <= 0] the instant is returned unchanged. *)
Definition Truncate (t : Time) (d : Duration) : Time :=
  if d <=? 0 then t else t - t mod d.

(** Days since the zero time, and the position inside the day. *)
Definition absDays (t : Time) : Z := t / nsPerDay.
Definition nsOfDay (t : Time) : Z := t mod nsPerDay.

(** Days between 0001-01-01 and 1970-01-01. *)
Definition unixEpochDays : Z := 719162.

(** Proleptic Gregorian calendar: day number of a civil date and back
    (the usual era/day-of-era computation, 400-year eras of 146097 days,
    years starting in March). *)
Definition daysFromCivil (y m d : Z) : Z :=
  let y' := if m <=? 2 then y - 1 else y in
  let era := y' / 400 in
  let yoe := y' - era * 400 in
  let mp := if 2 <? m then m - 3 else m + 9 in
  let doy := (153 * mp + 2) / 5 + d - 1 in
  let doe := yoe * 365 + yoe / 4 - yoe / 100 + doy in
  era * 146097 + doe - 719468 + unixEpochDays.

Definition civilFromDays (days : Z) : Z * Z * Z :=
  let z := days - unixEpochDays + 719468 in
  let era := z / 146097 in
  let doe := z - era * 146097 in
  let yoe := (doe - doe / 1460 + doe / 36524 - doe / 146096) / 365 in
  let doy := doe - (365 * yoe + yoe / 4 - yoe / 100) in
  let mp := (5 * doy + 2) / 153 in
  let d := doy - (153 * mp + 2) / 5 + 1 in
  let m := if mp <? 10 then mp + 3 else mp - 9 in
  let y := yoe + era * 400 in
  (if m <=? 2 then y + 1 else y, m, d).

(** [time.Date(y, m, d, hh, mm, ss, ns, time.UTC)]. *)
Definition Date (y m d hh mm ss ns : Z) : Time :=
  daysFromCivil y m d * nsPerDay + hh * Hour_ + mm * Minute + ss * Second + ns.

(** [t.Month()] (January = 1), [t.Day()], [t.Weekday()] (Sunday = 0),
    [t.Hour()]. *)
Definition Month (t : Time) : Z := snd (fst (civilFromDays (absDays t))).
Definition Day (t : Time) : Z := snd (civilFromDays (absDays t)).
Definition Weekday (t : Time) : Z := (absDays t + 1) mod 7.
Definition Hour (t : Time) : Z := nsOfDay t / Hour_.

Example Date_2017_08_28 :
  let t := Date 2017 8 28 9 0 0 0 in
  (Month t, Day t, Weekday t, Hour t) = (8, 28, 1, 9).
Proof. vm_compute. reflexivity. Qed.

Example Date_1970_01_01 :
  let t := Date 1970 1 1 0 0 0 0 in
  (absDays t, Month t, Day t, Weekday t, Hour t) = (unixEpochDays, 1, 1, 4, 0).
Proof. vm_compute. reflexivity. Qed.

Lemma Truncate_multiple (t : Time) (d : Duration) :
  0 < d -> exists k, Truncate t d = k * d.
Proof.
  intros Hd. unfold Truncate.
  destruct (Z.leb_spec d 0) as [Hle|_]; [lia|].
  exists (t / d). pose proof (Z.div_mod t d ltac:(lia)). lia.
Qed.

Lemma Truncate_bounds (t : Time) (d : Duration) :
  0 < d -> Truncate t d <= t < Truncate t d + d.
Proof.
  intros Hd. unfold Truncate.
  destruct (Z.leb_spec d 0) as [Hle|_]; [lia|].
  pose proof (Z.mod_pos_bound t d Hd). lia.
Qed.

(** The floor of [t] to the period [d] is the only multiple of [d] in the
    window [(t - d, t]]. *)
Lemma Truncate_unique (t : Time) (d : Duration) (f : Z) :
  0 < d -> (exists k, f = k * d) -> f <= t < f + d -> Truncate t d = f.
Proof.
  intros Hd [k ->] Hb.
  destruct (Truncate_multiple t d Hd) as [k' Hk'].
  pose proof (Truncate_bounds t d Hd) as Hb'. rewrite Hk' in *.
  assert (k' = k) by nia. now subst.
Qed.

End GoTime.

(* ===================================================================== *)
(** * Package scheduler: calendar conditions (condition.go)               *)
(* ===================================================================== *)

Module scheduler_condition.
Import GoTime.

(** [type Months map[time.Month]bool] and its three siblings are Go maps
    from an integer to a boolean that the code uses as sets. *)
Definition Months := gmap Z bool.
Definition Weekdays := gmap Z bool.
Definition Days := gmap Z bool.
Definition Hours := gmap Z bool.

Record Condition := mkCondition {
  cMonths : gmap Z bool;
  cWeekdays : gmap Z bool;
  cDays : gmap Z bool;
  cHours : gmap Z bool
}.

(** [m[k]] on a [map[K]bool]: the stored value, [false] for a missing key. *)
Definition index (m : gmap Z bool) (k : Z) : bool := default false (m !! k).

(** [len(m)]. *)
Definition len (m : gmap Z bool) : Z := Z.of_nat (size m).

(** The loops of [UnmarshalJSON]: every listed number is stored with the
    value [true]. *)
Definition fromList (l : list Z) : gmap Z bool :=
  fold_left (fun m k => <[k := true]> m) l ∅.

Definition Satisfied (c : Condition) (now : Time) : bool :=
  if (0 <? len (cMonths c)) && negb (index (cMonths c) (Month now)) then false
  else if (0 <? len (cWeekdays c)) && negb (index (cWeekdays c) (Weekday now)) then false
  else if (0 <? len (cDays c)) && negb (index (cDays c) (Day now)) then false
  else if (0 <? len (cHours c)) && negb (index (cHours c) (Hour now)) then false
  else true.

(** A calendar set is empty when the map has no entry; a number is a
    member of it when the map holds [true] for it. *)
Definition isEmpty (m : gmap Z bool) : Prop := m = ∅.
Definition member (k : Z) (m : gmap Z bool) : Prop := m !! k = Some true.

(** What one of the four tests of [Satisfied] asks. *)
Definition fieldOk (m : gmap Z bool) (k : Z) : Prop := ~ isEmpty m -> member k m.

Lemma len_pos_iff (m : gmap Z bool) : (0 <? len m) = true <-> ~ isEmpty m.
Proof.
  unfold len, isEmpty. rewrite Z.ltb_lt. split.
  - intros H ->. rewrite map_size_empty in H. lia.
  - intros H. destruct (size m) eqn:E; [|lia].
    apply map_size_empty_inv in E. contradiction.
Qed.

Lemma index_true_iff (m : gmap Z bool) (k : Z) : index m k = true <-> member k m.
Proof.
  unfold index, member. destruct (m !! k) as [[]|]; simpl; split; congruence.
Qed.

Lemma field_test (m : gmap Z bool) (k : Z) :
  (0 <? len m) && negb (index m k) = false <-> fieldOk m k.
Proof.
  unfold fieldOk. rewrite <- len_pos_iff, <- index_true_iff.
  destruct (0 <? len m), (index m k); simpl; split; try tauto; try congruence.
  intros H. specialize (H eq_refl). congruence.
Qed.

Lemma fromList_lookup (l : list Z) (k : Z) :
  fromList l !! k = if decide (k ∈ l) then Some true else None.
Proof.
  unfold fromList.
  assert (G : forall (m : gmap Z bool),
    fold_left (fun m k => <[k := true]> m) l m !! k
    = if decide (k ∈ l) then Some true else m !! k).
  { induction l as [|a l IH]; intros m; simpl.
    - destruct (decide (k ∈ [])) as [H|_]; [inversion H | reflexivity].
    - rewrite IH.
      destruct (decide (k ∈ l)) as [Hin|Hnin];
        destruct (decide (k ∈ a :: l)) as [Hin'|Hnin']; try reflexivity.
      + exfalso. apply Hnin'. now constructor.
      + inversion Hin'; subst; [apply lookup_insert_eq | contradiction].
      + apply lookup_insert_ne. intros ->. apply Hnin'. constructor. }
  rewrite G. now rewrite lookup_empty.
Qed.

(** For a condition decoded by [UnmarshalJSON] membership is membership in
    the decoded array, and the set is empty exactly when the array is. *)
Lemma fromList_member (l : list Z) (k : Z) : member k (fromList l) <-> k ∈ l.
Proof.
  unfold member. rewrite fromList_lookup. case_decide; split; congruence || tauto.
Qed.

Lemma fromList_isEmpty (l : list Z) : isEmpty (fromList l) <-> l = [].
Proof.
  unfold isEmpty. split.
  - intros H. destruct l as [|a l]; [reflexivity|].
    assert (E : fromList (a :: l) !! a = Some true).
    { rewrite fromList_lookup.
      destruct (decide (a ∈ a :: l)) as [_|Hn]; [easy|].
      exfalso. apply Hn. constructor. }
    rewrite H, lookup_empty in E. discriminate.
  - intros ->. reflexivity.
Qed.

(** C8.  [Satisfied] answers true exactly when each of the four calendar
    sets (months, weekdays, days of the month, hours) that is not empty
    contains the corresponding field of the moment; a condition whose four
    sets are all empty is satisfied by every moment. *)
Theorem Satisfied_iff_nonempty_sets_contain_fields :
  (forall (c : Condition) (now : Time),
     Satisfied c now = true <->
     fieldOk (cMonths c) (Month now) /\
     fieldOk (cWeekdays c) (Weekday now) /\
     fieldOk (cDays c) (Day now) /\
     fieldOk (cHours c) (Hour now))
  /\
  (forall (c : Condition) (now : Time),
     isEmpty (cMonths c) -> isEmpty (cWeekdays c) ->
     isEmpty (cDays c) -> isEmpty (cHours c) ->
     Satisfied c now = true).
Proof.
  assert (Hiff : forall c now,
     Satisfied c now = true <->
     fieldOk (cMonths c) (Month now) /\
     fieldOk (cWeekdays c) (Weekday now) /\
     fieldOk (cDays c) (Day now) /\
     fieldOk (cHours c) (Hour now)).
  { intros c now. unfold Satisfied.
    rewrite <- !field_test.
    destruct ((0 <? len (cMonths c)) && negb (index (cMonths c) (Month now)));
    destruct ((0 <? len (cWeekdays c)) && negb (index (cWeekdays c) (Weekday now)));
    destruct ((0 <? len (cDays c)) && negb (index (cDays c) (Day now)));
    destruct ((0 <? len (cHours c)) && negb (index (cHours c) (Hour now)));
    simpl; intuition congruence. }
  split; [exact Hiff|].
  intros c now Hm Hw Hd Hh. apply Hiff.
  unfold fieldOk. tauto.
Qed.

(** The three calls of [Test_MondaysAt9]. *)
Definition mondaysAt9 : Condition :=
  {| cMonths := ∅; cWeekdays := {[ 1 := true ]}; cDays := ∅;
     cHours := {[ 9 := true ]} |}.

Example MondaysAt9_run :
  Satisfied mondaysAt9 (Date 2017 8 28 9 0 0 0) = true /\
  Satisfied mondaysAt9 (Date 2017 8 28 10 0 0 0) = false /\
  Satisfied mondaysAt9 (Date 2017 8 21 9 0 0 0) = true.
Proof. vm_compute. auto. Qed.

End scheduler_condition.

(* ===================================================================== *)
(** * Package model: the frequency ticker (runTicker)                     *)
(* ===================================================================== *)

Module ticker.
Import GoTime.

Record Freq := mkFreq {
  Id : Z;
  Name : string;
  Period : Duration;
  Offset : Duration;
  Active : bool
}.

Record runTick := mkRunTick {
  freq : Freq;
  tooLate : Time
}.

(** The [next] of one turn of the loop of [runTicker], from the clock
    reading [now]. *)
Definition nextFiring (fr : Freq) (now : Time) : Time :=
  if After (Add (Truncate now (Period fr)) (Offset fr)) now
  then Add (Truncate now (Period fr)) (Offset fr)
  else Add (Add (Truncate now (Period fr)) (Period fr)) (Offset fr).

(** What one turn of the loop does after computing [next]: it sleeps one
    second, or sleeps [next - now] and then sends a tick. *)
Inductive turn :=
  | SleepOnly (d : Duration)
  | SleepThenSend (d : Duration) (tick : runTick).

(** One turn of [for { ... }] in [runTicker]: the clock reading and the
    remembered [lastNext] go in; the action, the new [lastNext] and
    whether the "Next run" line was logged come out. *)
Definition runTicker_turn (fr : Freq) (lastNext : Time) (now : Time)
  : turn * Time * bool :=
  let next := nextFiring fr now in
  let logged := negb (Equal lastNext next) in
  let lastNext' := if logged then next else lastNext in
  if Before next now
  then (SleepOnly Second, lastNext', logged)
  else (SleepThenSend (Sub next now)
          {| freq := fr; tooLate := Add next (Period fr) |}, lastNext', logged).

(** The instant at which a turn wakes up. *)
Definition wakeUp (now : Time) (a : turn) : Time :=
  match a with
  | SleepOnly d => Add now d
  | SleepThenSend d _ => Add now d
  end.

Definition halfHourly (offset : Duration) : Freq :=
  {| Id := 1; Name := "half-hourly"; Period := 30 * Minute;
     Offset := offset; Active := true |}.

(** A clock reading given by the day and the time of day. *)
Definition atClock (day hh mm ss ns : Z) : Time :=
  day * nsPerDay + hh * Hour_ + mm * Minute + ss * Second + ns.

Lemma Truncate_half_hour (day k r : Z) :
  0 <= r < 30 * Minute ->
  Truncate (day * nsPerDay + k * (30 * Minute) + r) (30 * Minute)
  = day * nsPerDay + k * (30 * Minute).
Proof.
  intros Hr. apply Truncate_unique.
  - reflexivity.
  - exists (day * 48 + k). unfold nsPerDay, Hour_, Minute, Second. lia.
  - lia.
Qed.

Lemma nextFiring_spec (fr : Freq) (now f : Time) :
  0 < Period fr -> (exists k, f = k * Period fr) -> f <= now < f + Period fr ->
  nextFiring fr now
  = if now <? f + Offset fr then f + Offset fr else f + Period fr + Offset fr.
Proof.
  intros Hp Hk Hb. unfold nextFiring, After, Add.
  now rewrite (Truncate_unique now (Period fr) f Hp Hk Hb).
Qed.

(** C7.  The next firing is the floor of the clock reading to the period
    plus the offset when that instant is strictly after the reading, and
    one period later otherwise.  With a period of 30 minutes and offset 0,
    a reading of 11:30:00Z gives 12:00:00Z and a reading of 11:29:59.9999Z
    gives 11:30:00Z; with offset -60 s a reading of 11:30:00Z gives
    11:59:00Z, and that is the instant the ticker sleeps until before it
    sends its tick. *)
Theorem nextFiring_floor_plus_offset :
  (forall (fr : Freq) (now f : Time),
     0 < Period fr ->
     (exists k, f = k * Period fr) -> f <= now < f + Period fr ->
     nextFiring fr now
     = if now <? f + Offset fr then f + Offset fr
       else f + Period fr + Offset fr)
  /\ (forall day, nextFiring (halfHourly 0) (atClock day 11 30 0 0)
                  = atClock day 12 0 0 0)
  /\ (forall day, nextFiring (halfHourly 0) (atClock day 11 29 59 999900000)
                  = atClock day 11 30 0 0)
  /\ (forall day, nextFiring (halfHourly (- (60 * Second))) (atClock day 11 30 0 0)
                  = atClock day 11 59 0 0)
  /\ (forall day lastNext,
        exists d tick,
          fst (fst (runTicker_turn (halfHourly (- (60 * Second))) lastNext
                      (atClock day 11 30 0 0)))
          = SleepThenSend d tick /\
          Add (atClock day 11 30 0 0) d = atClock day 11 59 0 0 /\
          tooLate tick = atClock day 12 29 0 0).
Proof.
  assert (E1 : forall day off,
    nextFiring (halfHourly off) (atClock day 11 30 0 0)
    = if 0 <? off then atClock day 11 30 0 0 + off
      else atClock day 12 0 0 0 + off).
  { intros day off.
    rewrite (nextFiring_spec _ _ (day * nsPerDay + 23 * (30 * Minute))).
    - simpl Period. simpl Offset.
      unfold atClock, nsPerDay, Hour_, Minute, Second.
      destruct (Z.ltb_spec 0 off); destruct (Z.ltb_spec
        (day * (24 * (60 * (60 * 1000000000))) + 11 * (60 * (60 * 1000000000))
         + 30 * (60 * 1000000000) + 0 * 1000000000 + 0)
        (day * (24 * (60 * (60 * 1000000000))) + 23 * (30 * (60 * 1000000000)) + off));
        lia.
    - reflexivity.
    - exists (day * 48 + 23). simpl. unfold nsPerDay, Hour_, Minute, Second. lia.
    - simpl. unfold atClock, nsPerDay, Hour_, Minute, Second. lia. }
  split; [exact nextFiring_spec|].
  split; [intros day; rewrite E1; simpl; unfold atClock; lia|].
  split.
  { intros day.
    rewrite (nextFiring_spec _ _ (day * nsPerDay + 22 * (30 * Minute))).
    - simpl Period. simpl Offset.
      unfold atClock, nsPerDay, Hour_, Minute, Second.
      match goal with |- (if ?a <? ?b then _ else _) = _ =>
        destruct (Z.ltb_spec a b) end; lia.
    - reflexivity.
    - exists (day * 48 + 22). simpl. unfold nsPerDay, Hour_, Minute, Second. lia.
    - simpl. unfold atClock, nsPerDay, Hour_, Minute, Second. lia. }
  split.
  { intros day. rewrite E1. simpl.
    unfold atClock, nsPerDay, Hour_, Minute, Second. lia. }
  intros day lastNext. unfold runTicker_turn.
  rewrite E1. simpl (if 0 <? _ then _ else _).
  unfold Before.
  destruct (Z.ltb_spec (atClock day 12 0 0 0 + - (60 * Second))
              (atClock day 11 30 0 0)) as [Hlt|Hge].
  { exfalso. revert Hlt. unfold atClock, nsPerDay, Hour_, Minute, Second. lia. }
  eexists _, _. split; [reflexivity|]. simpl.
  unfold Add, Sub, atClock, nsPerDay, Hour_, Minute, Second. lia.
Qed.

(** The rows of [Test_nextRunTime] that the loop of [runTicker] agrees
    with, on the date the test uses. *)
Example nextFiring_2010_06_11 :
  nextFiring (halfHourly 0) (Date 2010 6 11 11 30 5 0) = Date 2010 6 11 12 0 0 0 /\
  nextFiring (halfHourly 0) (Date 2010 6 11 11 29 50 0) = Date 2010 6 11 11 30 0 0 /\
  nextFiring (halfHourly Minute) (Date 2010 6 11 11 30 0 0) = Date 2010 6 11 11 31 0 0 /\
  nextFiring (halfHourly (- Minute)) (Date 2010 6 11 11 30 0 0) = Date 2010 6 11 11 59 0 0.
Proof. vm_compute. auto. Qed.

End ticker.

(* ===================================================================== *)
(** * Package model: polling back-off (pause, and the loop of waitForJob) *)
(* ===================================================================== *)

Module backoff.
Import GoTime.

(** The constants of [pause], in milliseconds.  [baseBackoff] is declared
    there and used nowhere. *)
Definition maxBackoff : Q := 15000 # 1.
Definition baseBackoff : Q := 250 # 1.
Definition backoffGrowthFactor : Q := 18 # 10.
Definition backoffGrowthDamper : Q := 25 # 100.

(** [float64] values are modelled by exact rationals.  [float64(n)] of an
    integer, and the conversion [time.Duration(x)] of a float, which drops
    the fraction (rounding toward zero). *)
Definition float64_of_int (n : Z) : Q := inject_Z n.
Definition int64_of_float (x : Q) : Z := Z.quot (Qnum x) (Zpos (Qden x)).

(** [pause(b)]: [rnd] is the value drawn by [rand.Float64()], a number of
    the half-open interval [0,1).  The result is the delay that was slept. *)
Definition pause (rnd : Q) (b : Duration) : Duration :=
  let bo := float64_of_int (Z.quot b 1000000) in
  let bo := (bo * backoffGrowthFactor)%Q in
  let bo := (bo - (bo * rnd * backoffGrowthDamper))%Q in
  let bo := Qmin bo maxBackoff in
  int64_of_float bo * Millisecond.

(** The delays slept by the loop of [waitForJob], one per turn: every turn
    starts with [backoff = pause(backoff)], whatever the poll that follows
    returns.  [rnds] are the successive draws. *)
Fixpoint sleepIntervals (backoff : Duration) (rnds : list Q) : list Duration :=
  match rnds with
  | [] => []
  | rnd :: rnds' =>
      let backoff' := pause rnd backoff in
      backoff' :: sleepIntervals backoff' rnds'
  end.

(** [backoff, errCnt := time.Second, 0]. *)
Definition waitForJob_initial_backoff : Duration := Second.

Definition waitForJob_sleeps (rnds : list Q) : list Duration :=
  sleepIntervals waitForJob_initial_backoff rnds.

(** A draw of [rand.Float64()]. *)
Definition isDraw (r : Q) : Prop := (0 <= r)%Q /\ (r < 1)%Q.

(** Following the specification's words: a sequence of delays is a
    randomized exponential back-off from [base] milliseconds when every
    delay, in milliseconds, is at most 1.8 times the previous one (the
    base for the first), loses less than a quarter of that growth to
    jitter unless the cap applies, and never exceeds the cap of 15 s. *)
Fixpoint isBackoffFrom (prev_ms : Z) (delays : list Duration) : Prop :=
  match delays with
  | [] => True
  | d :: delays' =>
      (exists k, d = k * Millisecond /\
         0 <= k <= 15000 /\
         10 * k <= 18 * prev_ms /\
         (135 * prev_ms < 1500000 -> 135 * prev_ms < 100 * (k + 1)) /\
         (1500000 <= 135 * prev_ms -> k = 15000) /\
         isBackoffFrom k delays')
  end.

Lemma int64_of_float_floor (x : Q) : (0 <= x)%Q -> int64_of_float x = Qfloor x.
Proof.
  intros H. unfold int64_of_float, Qfloor. destruct x as [n d]. simpl.
  apply Z.quot_div_nonneg; [|lia].
  unfold Qle in H. simpl in H. lia.
Qed.

Lemma pause_ms (rnd : Q) (p : Z) :
  0 <= p -> isDraw rnd ->
  exists k, pause rnd (p * Millisecond) = k * Millisecond /\
    0 <= k <= 15000 /\
    10 * k <= 18 * p /\
    (135 * p < 1500000 -> 135 * p < 100 * (k + 1)) /\
    (1500000 <= 135 * p -> k = 15000).
Proof.
  intros Hp [Hr0 Hr1]. unfold pause.
  replace (Z.quot (p * Millisecond) 1000000) with p
    by (unfold Millisecond; now rewrite Z.quot_mul).
  set (bo := (float64_of_int p * backoffGrowthFactor)%Q).
  set (x := (bo - bo * rnd * backoffGrowthDamper)%Q).
  set (m := Qmin x maxBackoff).
  assert (HP : (0 <= inject_Z p)%Q)
    by (change 0%Q with (inject_Z 0); rewrite <- Zle_Qle; lia).
  assert (Hbo : (bo == inject_Z p * (18 # 10))%Q) by reflexivity.
  assert (Hbo0 : (0 <= bo)%Q) by (rewrite Hbo; nra).
  assert (Hx1 : (x <= bo)%Q) by (unfold x, backoffGrowthDamper; nra).
  assert (Hx2 : ((75 # 100) * bo <= x)%Q) by (unfold x, backoffGrowthDamper; nra).
  assert (Hx3 : (0 < bo -> (75 # 100) * bo < x)%Q)
    by (intros; unfold x, backoffGrowthDamper; nra).
  assert (Hm0 : (0 <= m)%Q).
  { unfold m. apply Q.min_glb; [nra | unfold maxBackoff; lra]. }
  exists (Qfloor m). split; [now rewrite int64_of_float_floor|].
  pose proof (Qfloor_le m) as Hfl. pose proof (Qlt_floor m) as Hfu.
  assert (Hmx : (m <= x)%Q) by apply Q.le_min_l.
  assert (Hmc : (m <= 15000 # 1)%Q) by apply Q.le_min_r.
  set (k := Qfloor m) in *.
  assert (Hk1 : (inject_Z (k + 1) == inject_Z k + 1)%Q)
    by (rewrite inject_Z_plus; reflexivity).
  split; [split|split; [|split]].
  - assert (Hlt : (inject_Z (-1) < inject_Z k)%Q)
      by (change (inject_Z (-1)) with (-1 # 1)%Q; lra).
    rewrite <- Zlt_Qlt in Hlt. lia.
  - rewrite Zle_Qle. change (inject_Z 15000) with (15000 # 1)%Q. lra.
  - rewrite Zle_Qle, !inject_Z_mult.
    change (inject_Z 10) with (10 # 1)%Q. change (inject_Z 18) with (18 # 1)%Q. lra.
  - intros Hsmall.
    rewrite Zlt_Qlt, !inject_Z_mult, Hk1.
    change (inject_Z 135) with (135 # 1)%Q. change (inject_Z 100) with (100 # 1)%Q.
    assert (Hs : (inject_Z (135 * p) < inject_Z 1500000)%Q) by now rewrite <- Zlt_Qlt.
    rewrite inject_Z_mult in Hs.
    change (inject_Z 135) with (135 # 1)%Q in Hs.
    change (inject_Z 1500000) with (1500000 # 1)%Q in Hs.
    destruct (Q.min_spec x maxBackoff) as [[_ E]|[_ E]]; fold m in E.
    + lra.
    + unfold maxBackoff in E. lra.
  - intros Hbig.
    assert (Hs : (inject_Z 1500000 <= inject_Z (135 * p))%Q) by now rewrite <- Zle_Qle.
    rewrite inject_Z_mult in Hs.
    change (inject_Z 135) with (135 # 1)%Q in Hs.
    change (inject_Z 1500000) with (1500000 # 1)%Q in Hs.
    assert (Hbpos : (0 < bo)%Q) by lra.
    specialize (Hx3 Hbpos).
    assert (E : (m == 15000 # 1)%Q).
    { unfold m. rewrite Q.min_r; [reflexivity | unfold maxBackoff; lra]. }
    unfold k. rewrite (Qfloor_comp _ _ E). reflexivity.
Qed.

Lemma sleepIntervals_backoff (rnds : list Q) (p : Z) :
  0 <= p -> Forall isDraw rnds ->
  isBackoffFrom p (sleepIntervals (p * Millisecond) rnds).
Proof.
  revert p. induction rnds as [|r rnds IH]; intros p Hp Hall; simpl; [exact I|].
  inversion Hall as [|? ? Hr Hrest]; subst.
  destruct (pause_ms r p Hp Hr) as (k & Ek & Hk & H18 & Hlow & Hcap).
  exists k. rewrite Ek. repeat split; try tauto; try lia.
  apply IH; [lia | assumption].
Qed.

(** Every delay is a whole number of milliseconds, at most 15 s. *)
Lemma isBackoffFrom_capped (p : Z) (delays : list Duration) :
  isBackoffFrom p delays -> Forall (fun d => 0 <= d <= 15 * Second) delays.
Proof.
  revert p. induction delays as [|d ds IH]; intros p H; [constructor|].
  simpl in H. destruct H as (k & -> & Hk & _ & _ & _ & Hrest).
  constructor; [unfold Millisecond, Second; lia | eapply IH; eassumption].
Qed.

(** C5, as the specification states it (base 250 ms), fails: the loop of
    [waitForJob] starts from [time.Second], so a draw of 0 makes the first
    delay 1.8 s, which no back-off from 250 ms allows (its first delay is
    at most 450 ms). *)
Lemma waitForJob_sleeps_not_from_250ms :
  waitForJob_sleeps [0%Q] = [1800 * Millisecond] /\
  isDraw 0%Q /\
  ~ isBackoffFrom 250 (waitForJob_sleeps [0%Q]).
Proof.
  split; [vm_compute; reflexivity|].
  split; [split; [apply Qle_refl | reflexivity]|].
  intros H.
  replace (waitForJob_sleeps [0%Q]) with [1800 * Millisecond] in H
    by (vm_compute; reflexivity).
  simpl in H. destruct H as (k & Ek & _ & H18 & _).
  unfold Millisecond in Ek. lia.
Qed.

(** C5, amended.  The delays slept while polling are a randomized
    exponential back-off that starts from one second (not from 250 ms):
    each delay is at most 1.8 times the previous one, up to 25% of it is
    taken off by the jitter, and every delay is capped at 15 seconds. *)
Theorem waitForJob_sleeps_backoff_from_one_second (rnds : list Q) :
  Forall isDraw rnds ->
  isBackoffFrom 1000 (waitForJob_sleeps rnds) /\
  Forall (fun d => 0 <= d <= 15 * Second) (waitForJob_sleeps rnds).
Proof.
  intros Hall.
  assert (H : isBackoffFrom 1000 (waitForJob_sleeps rnds)).
  { unfold waitForJob_sleeps, waitForJob_initial_backoff.
    change Second with (1000 * Millisecond).
    apply sleepIntervals_backoff; [lia | assumption]. }
  split; [exact H | eapply isBackoffFrom_capped; exact H].
Qed.

Lemma waitForJob_sleeps_backoff_witness :
  Forall isDraw [0%Q; (1 # 2)%Q] /\
  isBackoffFrom 1000 (waitForJob_sleeps [0%Q; (1 # 2)%Q]) /\
  waitForJob_sleeps [0%Q; (1 # 2)%Q] = [1800 * Millisecond; 2835 * Millisecond].
Proof.
  assert (Hd : Forall isDraw [0%Q; (1 # 2)%Q]).
  { repeat constructor; unfold Qle, Qlt; simpl; lia. }
  split; [exact Hd|].
  split; [exact (proj1 (waitForJob_sleeps_backoff_from_one_second _ Hd))|].
  vm_compute. reflexivity.
Defined.

End backoff.

(* ===================================================================== *)
(** * Package crypto: EncryptString and DecryptString                     *)
(* ===================================================================== *)

Module crypto.

(** A Go [[]byte]. *)
Definition bytes := list ascii.

(** The ways the two functions can end without a value. *)
Inductive error :=
  | SecretTooShort                 (* fmt.Errorf("secret too short") *)
  | KeySizeError (n : nat)         (* aes.NewCipher: invalid key size *)
  | RandError                      (* io.ReadFull(rand.Reader, nonce) failed *)
  | CorruptInput                   (* base64 decoding failed *)
  | CiphertextTooShort (n : nat)   (* fmt.Errorf("Ciphertext too short: %d") *)
  | OpenFailed                     (* aesgcm.Open: authentication failed *)
  | SliceOutOfRange                (* run-time panic of a slice expression *)
  | NoReturn.                      (* a loop that never ends *)

Definition keyPad : string := "l@te f33 app13z @f+r".

(** [s[0:n]] on a string; it panics when [n] exceeds the length. *)
Definition sliceTo (s : string) (n : nat) : error + string :=
  if (n <=? String.length s)%nat then inr (substring 0 n s) else inl SliceOutOfRange.

(** The loop of [padRight]: [s += p] until [len(s) > l], then [s[0:l]].
    Each turn uses one unit of [fuel]. *)
Fixpoint padRight_loop (fuel : nat) (s p : string) (l : nat) : error + string :=
  match fuel with
  | O => inl NoReturn
  | S fuel' =>
      let s' := s +:+ p in
      if (l <? String.length s')%nat then sliceTo s' l
      else padRight_loop fuel' s' p l
  end.

(** [padRight(s, p, l)].  With a pad that is not empty the loop ends
    within [l + 1] turns ([padRight_returns]); with an empty pad the Go
    loop may never end. *)
Definition padRight (s p : string) (l : nat) : error + string :=
  padRight_loop (S l) s p l.

(** [aes.NewCipher(key)] accepts keys of 16, 24 or 32 bytes. *)
Definition NewCipher (key : bytes) : error + bytes :=
  let n := length key in
  if ((n =? 16) || (n =? 24) || (n =? 32))%nat then inr key
  else inl (KeySizeError n).

(** The key both functions derive from the secret:
    [[]byte(padRight(secret, keyPad, 32)[:32])]. *)
Definition deriveKey (secret : string) : error + bytes :=
  match padRight secret keyPad 32 with
  | inl e => inl e
  | inr padded =>
      match sliceTo padded 32 with
      | inl e => inl e
      | inr k => inr (list_ascii_of_string k)
      end
  end.

(** A small stand-in for the library, used to run the two functions on
    concrete inputs: the sealed text is the plaintext followed by a 16-byte
    tag made from the key, the nonce and the text; the codec keeps the
    bytes as they are. *)
Definition toyTag (key nonce text : bytes) : bytes :=
  take 16 (key ++ nonce ++ text ++ replicate 16 "000"%char)%list.
Definition toySeal (key nonce plaintext : bytes) : bytes :=
  (plaintext ++ toyTag key nonce plaintext)%list.
Definition toyOpen (key nonce sealed : bytes) : option bytes :=
  if (length sealed <? 16)%nat then None
  else
    let body := take (length sealed - 16) sealed in
    let tag := drop (length sealed - 16) sealed in
    if decide (tag = toyTag key nonce body) then Some body else None.
Definition toyEncode (b : bytes) : string := string_of_list_ascii b.
Definition toyDecode (s : string) : option bytes := Some (list_ascii_of_string s).

Section Library.

(** The standard library behind the two functions: the AES-GCM AEAD of
    [crypto/cipher] ([NonceSize], [Seal], [Open], for a key accepted by
    [aes.NewCipher]) and the URL-safe base64 codec of [encoding/base64]. *)
Variable NonceSize : nat.
Variable Seal : bytes -> bytes -> bytes -> bytes.
Variable Open : bytes -> bytes -> bytes -> option bytes.
Variable EncodeToString : bytes -> string.
Variable DecodeString : string -> option bytes.

(** [EncryptString(text, secret)].  [rnd] is what
    [io.ReadFull(rand.Reader, nonce)] left in the nonce, or [None] when it
    returned an error. *)
Definition EncryptString (rnd : option bytes) (text secret : string)
  : error + string :=
  if (String.length secret <? 8)%nat then inl SecretTooShort
  else
    match deriveKey secret with
    | inl e => inl e
    | inr key =>
        let plaintext := list_ascii_of_string text in
        match NewCipher key with
        | inl e => inl e
        | inr block =>
            let nsize := NonceSize in
            match rnd with
            | None => inl RandError
            | Some nonce =>
                (* ciphertext[:nsize] holds the nonce; Seal appends to it *)
                let ciphertext := (nonce ++ Seal block nonce plaintext)%list in
                inr (EncodeToString ciphertext)
            end
        end
    end.

(** [DecryptString(text, secret)]. *)
Definition DecryptString (text secret : string) : error + string :=
  match deriveKey secret with
  | inl e => inl e
  | inr key =>
      match DecodeString text with
      | None => inl CorruptInput
      | Some ciphertext =>
          match NewCipher key with
          | inl e => inl e
          | inr block =>
              let nsize := NonceSize in
              if (length ciphertext <? nsize)%nat
              then inl (CiphertextTooShort (length ciphertext))
              else
                let nonce := take nsize ciphertext in
                let ciphertext' := drop nsize ciphertext in
                match Open block nonce ciphertext' with
                | None => inl OpenFailed
                | Some plaintext => inr (string_of_list_ascii plaintext)
                end
          end
      end
  end.

(** ** Key derivation *)

Lemma length_substring_0 (n : nat) (s : string) :
  (n <= String.length s)%nat -> String.length (substring 0 n s) = n.
Proof.
  revert s. induction n as [|n IH]; intros s H.
  - destruct s; reflexivity.
  - destruct s as [|a s]; simpl in *; [lia|]. rewrite IH; [reflexivity | lia].
Qed.

Lemma length_append (s t : string) :
  String.length (s +:+ t) = (String.length s + String.length t)%nat.
Proof. induction s as [|a s IH]; simpl; [reflexivity | now rewrite IH]. Qed.

Lemma sliceTo_ok (s : string) (n : nat) :
  (n <= String.length s)%nat ->
  exists r, sliceTo s n = inr r /\ String.length r = n.
Proof.
  intros H. unfold sliceTo.
  destruct (Nat.leb_spec n (String.length s)) as [_|Hlt]; [|lia].
  eexists. split; [reflexivity | now apply length_substring_0].
Qed.

Lemma padRight_loop_returns (fuel : nat) (s p : string) (l : nat) :
  p <> "" -> (l < String.length s + fuel)%nat -> (0 < fuel)%nat ->
  exists r, padRight_loop fuel s p l = inr r /\ String.length r = l.
Proof.
  intros Hp. revert s. induction fuel as [|fuel IH]; intros s Hl Hf; [lia|].
  simpl.
  assert (Hpl : (1 <= String.length p)%nat) by (destruct p; simpl; [congruence | lia]).
  pose proof (length_append s p) as Happ.
  destruct (Nat.ltb_spec l (String.length (s +:+ p))) as [Hlt|Hge].
  - apply sliceTo_ok. lia.
  - apply IH; lia.
Qed.

Lemma padRight_returns (s p : string) (l : nat) :
  p <> "" -> exists r, padRight s p l = inr r /\ String.length r = l.
Proof.
  intros Hp. unfold padRight. apply padRight_loop_returns; [assumption | lia | lia].
Qed.

Lemma length_list_ascii_of_string (s : string) :
  length (list_ascii_of_string s) = String.length s.
Proof. induction s as [|a s IH]; simpl; [reflexivity | now rewrite IH]. Qed.

(** The derived key always exists and has the 32 bytes of an AES-256 key. *)
Lemma deriveKey_32 (secret : string) :
  exists key, deriveKey secret = inr key /\ length key = 32%nat.
Proof.
  unfold deriveKey.
  destruct (padRight_returns secret keyPad 32) as (r & -> & Hr); [discriminate|].
  destruct (sliceTo_ok r 32) as (k & -> & Hk); [lia|].
  eexists. split; [reflexivity|]. now rewrite length_list_ascii_of_string.
Qed.

Example deriveKey_short_secret :
  deriveKey "12345678" = inr (list_ascii_of_string "12345678l@te f33 app13z @f+rl@te").
Proof. vm_compute. reflexivity. Qed.

(** ** Round trip *)

(** The contracts of the library: [Open] undoes [Seal] under the same
    32-byte key and the same nonce of [NonceSize] bytes, and decoding
    undoes encoding. *)
Hypothesis Open_Seal : forall key nonce plaintext : bytes,
  length key = 32%nat -> length nonce = NonceSize ->
  Open key nonce (Seal key nonce plaintext) = Some plaintext.
Hypothesis Decode_Encode : forall b : bytes,
  DecodeString (EncodeToString b) = Some b.

Lemma EncryptString_then_DecryptString (nonce : bytes) (text secret : string) :
  (8 <= String.length secret)%nat -> length nonce = NonceSize ->
  exists c, EncryptString (Some nonce) text secret = inr c /\
            DecryptString c secret = inr text.
Proof.
  intros Hs Hn. unfold EncryptString, DecryptString.
  destruct (Nat.ltb_spec (String.length secret) 8) as [Hlt|_]; [lia|].
  destruct (deriveKey_32 secret) as (key & -> & Hk).
  unfold NewCipher. rewrite Hk. simpl.
  eexists. split; [reflexivity|].
  rewrite Decode_Encode.
  rewrite length_app, Hn.
  destruct (Nat.ltb_spec (NonceSize + length (Seal key nonce (list_ascii_of_string text)))
              NonceSize) as [Hlt|_]; [lia|].
  rewrite take_app_length' by (symmetry; exact Hn).
  rewrite drop_app_length' by (symmetry; exact Hn).
  rewrite Open_Seal by assumption.
  now rewrite string_of_list_ascii_of_string.
Qed.

(** C9.  For every non-empty plaintext and every secret of at least 8
    bytes, [EncryptString] succeeds (the random source having filled the
    nonce) and [DecryptString] of its result under the same secret returns
    the plaintext. *)
Theorem EncryptString_DecryptString_roundtrip
    (nonce : bytes) (text secret : string) :
  text <> "" -> (8 <= String.length secret)%nat -> length nonce = NonceSize ->
  exists c, EncryptString (Some nonce) text secret = inr c /\
            DecryptString c secret = inr text.
Proof. intros _. apply EncryptString_then_DecryptString. Qed.

End Library.

Lemma toyTag_length (key nonce text : bytes) : length (toyTag key nonce text) = 16%nat.
Proof.
  unfold toyTag. rewrite length_take, !length_app, length_replicate. lia.
Qed.

Lemma toyOpen_toySeal (key nonce plaintext : bytes) :
  toyOpen key nonce (toySeal key nonce plaintext) = Some plaintext.
Proof.
  unfold toyOpen, toySeal.
  rewrite length_app, toyTag_length.
  destruct (Nat.ltb_spec (length plaintext + 16) 16) as [Hlt|_]; [lia|].
  replace (length plaintext + 16 - 16)%nat with (length plaintext) by lia.
  rewrite take_app_length, drop_app_length.
  case_decide; [reflexivity | contradiction].
Qed.

Lemma toyDecode_toyEncode (b : bytes) : toyDecode (toyEncode b) = Some b.
Proof. unfold toyDecode, toyEncode. now rewrite list_ascii_of_string_of_list_ascii. Qed.

Lemma EncryptString_DecryptString_roundtrip_witness :
  exists c,
    EncryptString 12 toySeal toyEncode
      (Some (list_ascii_of_string "0123456789ab")) "hello" "12345678" = inr c /\
    DecryptString 12 toyOpen toyDecode c "12345678" = inr "hello".
Proof.
  apply (EncryptString_DecryptString_roundtrip 12 toySeal toyOpen toyEncode toyDecode).
  - intros key nonce plaintext _ _. apply toyOpen_toySeal.
  - apply toyDecode_toyEncode.
  - discriminate.
  - simpl. lia.
  - reflexivity.
Defined.

Example EncryptString_short_secret :
  EncryptString 12 toySeal toyEncode
    (Some (list_ascii_of_string "0123456789ab")) "hello" "1234567"
  = inl SecretTooShort.
Proof. reflexivity. Qed.

(** ** What the key depends on *)

Lemma list_ascii_of_substring (n : nat) (s : string) :
  list_ascii_of_string (substring 0 n s) = take n (list_ascii_of_string s).
Proof.
  revert s. induction n as [|n IH]; intros [|a s]; simpl; try reflexivity.
  now rewrite IH.
Qed.

Lemma list_ascii_of_append (s t : string) :
  list_ascii_of_string (s +:+ t) = (list_ascii_of_string s ++ list_ascii_of_string t)%list.
Proof.
  induction s as [|a s IH]; [reflexivity|].
  change (a :: list_ascii_of_string (s +:+ t)
          = a :: (list_ascii_of_string s ++ list_ascii_of_string t)%list).
  now rewrite IH.
Qed.

Lemma deriveKey_closed (secret : string) :
  deriveKey secret
  = inr (take 32 (list_ascii_of_string secret ++ list_ascii_of_string keyPad
                  ++ list_ascii_of_string keyPad)%list).
Proof.
  assert (Hk : length (list_ascii_of_string keyPad) = 20%nat) by reflexivity.
  assert (Hpad : forall x : string, (32 < String.length x)%nat ->
            match sliceTo x 32 with
            | inl e => inl e
            | inr padded =>
                match sliceTo padded 32 with
                | inl e => inl e
                | inr k => inr (list_ascii_of_string k)
                end
            end = (inr (take 32 (list_ascii_of_string x)) : error + bytes)).
  { intros x Hx. unfold sliceTo.
    destruct (Nat.leb_spec 32 (String.length x)) as [_|Hlt]; [|lia].
    rewrite length_substring_0 by lia. cbn [Nat.leb].
    rewrite !list_ascii_of_substring. now rewrite take_take. }
  unfold deriveKey, padRight. cbn [padRight_loop].
  pose proof (length_append secret keyPad) as L1.
  pose proof (length_append (secret +:+ keyPad) keyPad) as L2.
  change (String.length keyPad) with 20%nat in L1, L2.
  destruct (Nat.ltb_spec 32 (String.length (secret +:+ keyPad))) as [Hlt|Hge].
  - rewrite Hpad by exact Hlt. f_equal.
    rewrite list_ascii_of_append, app_assoc.
    rewrite (take_app_le (_ ++ _)); [reflexivity|].
    rewrite <- list_ascii_of_append, length_list_ascii_of_string. lia.
  - destruct (Nat.ltb_spec 32 (String.length ((secret +:+ keyPad) +:+ keyPad)))
      as [Hlt|Hge']; [|lia].
    rewrite Hpad by exact Hlt. f_equal.
    now rewrite !list_ascii_of_append, <- app_assoc.
Qed.

Lemma deriveKey_first_32 (s1 s2 : string) :
  (32 <= String.length s1)%nat ->
  take 32 (list_ascii_of_string s1) = take 32 (list_ascii_of_string s2) ->
  deriveKey s1 = deriveKey s2.
Proof.
  intros H1 E.
  assert (H2 : (32 <= String.length s2)%nat).
  { apply (f_equal length) in E. rewrite !length_take, !length_list_ascii_of_string in E.
    lia. }
  rewrite !deriveKey_closed. f_equal.
  rewrite !take_app_le by (rewrite length_list_ascii_of_string; lia). exact E.
Qed.

Lemma deriveKey_padded (secret : string) :
  deriveKey (secret +:+ keyPad) = deriveKey secret.
Proof.
  rewrite !deriveKey_closed. f_equal.
  rewrite list_ascii_of_append.
  set (a := list_ascii_of_string secret). set (p := list_ascii_of_string keyPad).
  replace ((a ++ p) ++ p ++ p)%list with ((a ++ p ++ p) ++ p)%list
    by now rewrite <- !app_assoc.
  apply take_app_le. rewrite !length_app.
  change (length p) with 20%nat. lia.
Qed.

(** X15.  The key of [EncryptString] and [DecryptString] is the first 32
    bytes of the secret followed by the pad: a secret of 32 bytes or more
    counts only by its first 32 bytes, and a secret counts the same with
    the pad appended to it.  So [DecryptString] gives the same result
    under two such secrets, whatever the library does with the key. *)
Theorem DecryptString_reads_32_bytes_of_secret
    (NonceSize : nat) (Open : bytes -> bytes -> bytes -> option bytes)
    (DecodeString : string -> option bytes) (text : string) :
  (forall secret, exists key,
      deriveKey secret = inr key /\
      key = take 32 (list_ascii_of_string secret ++ list_ascii_of_string keyPad
                     ++ list_ascii_of_string keyPad)%list) /\
  (forall s1 s2, (32 <= String.length s1)%nat ->
      take 32 (list_ascii_of_string s1) = take 32 (list_ascii_of_string s2) ->
      DecryptString NonceSize Open DecodeString text s1
      = DecryptString NonceSize Open DecodeString text s2) /\
  (forall secret,
      DecryptString NonceSize Open DecodeString text (secret +:+ keyPad)
      = DecryptString NonceSize Open DecodeString text secret).
Proof.
  split; [|split].
  - intros secret. eexists. split; [apply deriveKey_closed | reflexivity].
  - intros s1 s2 H1 E. unfold DecryptString. now rewrite (deriveKey_first_32 s1 s2).
  - intros secret. unfold DecryptString. now rewrite deriveKey_padded.
Qed.

End crypto.

(* ===================================================================== *)
(** * How a modelled Go call ends                                         *)
(* ===================================================================== *)

(** A call returns a value, ends in a run-time panic (a nil pointer is
    dereferenced), or, for a loop that is run with a bound on its turns,
    exhausts the bound.  The functions below that take a bound are given
    one that is proved sufficient. *)
Inductive outcome (A : Type) :=
  | Done (a : A)
  | Panic
  | OutOfFuel.
Arguments Done {A} a.
Arguments Panic {A}.
Arguments OutOfFuel {A}.

Global Instance outcome_bind : MBind outcome := fun A B f x =>
  match x with
  | Done a => f a
  | Panic => Panic
  | OutOfFuel => OutOfFuel
  end.
Global Instance outcome_ret : MRet outcome := fun A a => Done a.

Fixpoint mapOutcome {A B} (f : A -> outcome B) (l : list A) : outcome (list B) :=
  match l with
  | [] => Done []
  | a :: l' => b ← f a; bs ← mapOutcome f l'; Done (b :: bs)
  end.

(* ===================================================================== *)
(** * Sorting, as [sort.Strings] and [sort.SliceStable] do it             *)
(* ===================================================================== *)

Module gosort.

(** Insertion of [x] in front of a list, moving it to the right past the
    elements that must come before it.  Folding it from the right gives a
    stable sort: the result of a stable sort is determined by the input
    and the order, whatever the algorithm. *)
Fixpoint insertBy {A} (less : A -> A -> bool) (x : A) (l : list A) : list A :=
  match l with
  | [] => [x]
  | y :: l' => if less y x then y :: insertBy less x l' else x :: y :: l'
  end.

Definition SliceStable {A} (less : A -> A -> bool) (l : list A) : list A :=
  foldr (insertBy less) [] l.

(** [sort.Strings]: increasing byte-wise order. *)
Definition Strings (l : list string) : list string := SliceStable String.ltb l.

Lemma insertBy_Permutation {A} (less : A -> A -> bool) (x : A) (l : list A) :
  insertBy less x l ≡ₚ x :: l.
Proof.
  induction l as [|y l IH]; simpl; [reflexivity|].
  destruct (less y x); [|reflexivity].
  rewrite IH. apply Permutation_swap.
Qed.

Lemma SliceStable_Permutation {A} (less : A -> A -> bool) (l : list A) :
  SliceStable less l ≡ₚ l.
Proof.
  induction l as [|x l IH]; simpl; [reflexivity|].
  rewrite insertBy_Permutation. now rewrite IH.
Qed.

Lemma SliceStable_length {A} (less : A -> A -> bool) (l : list A) :
  length (SliceStable less l) = length l.
Proof. apply Permutation_length, SliceStable_Permutation. Qed.

Lemma SliceStable_elem_of {A} (less : A -> A -> bool) (l : list A) (x : A) :
  x ∈ SliceStable less l <-> x ∈ l.
Proof. now rewrite SliceStable_Permutation. Qed.

(** The output is ordered: no element is followed by one that must come
    before it.  This needs [less] to be a strict weak order only in the
    form used here: incomparability is transitive. *)
Section Sorted.
Context {A : Type} (less : A -> A -> bool).
Hypothesis less_trans : forall a b c, less a b = true -> less b c = true -> less a c = true.
Hypothesis notless_trans :
  forall a b c, less b a = false -> less c b = false -> less c a = false.
Hypothesis less_asym : forall a b, less a b = true -> less b a = false.

Definition ordered (l : list A) : Prop :=
  StronglySorted (fun a b => less b a = false) l.

Lemma insertBy_ordered (x : A) (l : list A) :
  ordered l -> ordered (insertBy less x l).
Proof.
  unfold ordered. induction 1 as [|y l Hl IH Hy]; simpl.
  - repeat constructor.
  - destruct (less y x) eqn:E.
    + constructor; [exact IH|].
      rewrite (insertBy_Permutation less x l). constructor; [|exact Hy].
      now apply less_asym.
    + constructor; [constructor; assumption|].
      constructor; [exact E|].
      eapply Forall_impl; [exact Hy|]. simpl. intros z Hz.
      eapply notless_trans; eassumption.
Qed.

Lemma SliceStable_ordered (l : list A) : ordered (SliceStable less l).
Proof.
  induction l as [|x l IH]; simpl; [constructor|]. now apply insertBy_ordered.
Qed.

(** Stability: elements that the order does not separate keep the order in
    which they stood.  For a class [P] of elements closed under being
    incomparable-or-equal in the sense that no member must come before
    another, the members appear in the output as in the input. *)
Lemma insertBy_filter (P : A -> Prop) `{!forall a, Decision (P a)}
    (x : A) (l : list A) :
  (forall a b, P a -> P b -> less a b = false) ->
  filter P (insertBy less x l) = filter P (x :: l).
Proof.
  intros HP. induction l as [|y l IH]; simpl; [reflexivity|].
  destruct (less y x) eqn:E; [|reflexivity].
  rewrite !filter_cons in *.
  destruct (decide (P y)) as [Py|NPy]; destruct (decide (P x)) as [Px|NPx];
    rewrite IH; try reflexivity.
  rewrite (HP y x Py Px) in E. discriminate.
Qed.

Lemma SliceStable_stable (P : A -> Prop) `{!forall a, Decision (P a)} (l : list A) :
  (forall a b, P a -> P b -> less a b = false) ->
  filter P (SliceStable less l) = filter P l.
Proof.
  intros HP. induction l as [|x l IH]; simpl; [reflexivity|].
  rewrite insertBy_filter by assumption.
  rewrite !filter_cons. now rewrite IH.
Qed.

End Sorted.

Lemma Strings_length (l : list string) : length (Strings l) = length l.
Proof. apply SliceStable_length. Qed.

Lemma Strings_elem_of (l : list string) (x : string) : x ∈ Strings l <-> x ∈ l.
Proof. apply SliceStable_elem_of. Qed.


(** [sort.Strings] puts the strings in increasing order. *)
Lemma ltb_lt (a b : string) :
  String.ltb a b = true <-> OrderedTypeEx.String_as_OT.lt a b.
Proof.
  rewrite <- OrderedTypeEx.String_as_OT.cmp_lt. unfold String.ltb, OrderedTypeEx.String_as_OT.cmp.
  destruct (String.compare a b); split; congruence.
Qed.

Lemma ltb_trichotomy (a b : string) :
  String.ltb a b = true \/ a = b \/ String.ltb b a = true.
Proof.
  unfold String.ltb.
  pose proof (OrderedTypeEx.String_as_OT.cmp_antisym b a) as Ha.
  unfold OrderedTypeEx.String_as_OT.cmp in Ha.
  destruct (String.compare a b) eqn:E.
  - right. left. now apply OrderedTypeEx.String_as_OT.cmp_eq.
  - now left.
  - right. right. rewrite Ha. reflexivity.
Qed.

Lemma ltb_irrefl (a : string) : String.ltb a a = false.
Proof.
  destruct (String.ltb a a) eqn:E; [|reflexivity].
  apply ltb_lt in E. destruct (OrderedTypeEx.String_as_OT.lt_not_eq _ _ E eq_refl).
Qed.

Lemma ltb_asym (a b : string) : String.ltb a b = true -> String.ltb b a = false.
Proof.
  intros H. destruct (String.ltb b a) eqn:E; [|reflexivity].
  apply ltb_lt in H, E.
  pose proof (OrderedTypeEx.String_as_OT.lt_trans _ _ _ H E) as Hc.
  destruct (OrderedTypeEx.String_as_OT.lt_not_eq _ _ Hc eq_refl).
Qed.

Lemma ltb_notless_trans (a b c : string) :
  String.ltb b a = false -> String.ltb c b = false -> String.ltb c a = false.
Proof.
  intros H1 H2. destruct (String.ltb c a) eqn:E; [|reflexivity].
  destruct (ltb_trichotomy a b) as [Hab|[->|Hba]]; [| congruence | congruence].
  destruct (ltb_trichotomy b c) as [Hbc|[->|Hcb]]; [| congruence | congruence].
  apply ltb_lt in Hab, Hbc, E.
  pose proof (OrderedTypeEx.String_as_OT.lt_trans _ _ _
                (OrderedTypeEx.String_as_OT.lt_trans _ _ _ Hab Hbc) E) as Hc.
  destruct (OrderedTypeEx.String_as_OT.lt_not_eq _ _ Hc eq_refl).
Qed.

Lemma Strings_increasing (l : list string) :
  NoDup l -> StronglySorted (fun a b => String.ltb a b = true) (Strings l).
Proof.
  intros Hnd.
  assert (Hnd' : NoDup (Strings l)) by (unfold Strings; now rewrite SliceStable_Permutation).
  pose proof (SliceStable_ordered String.ltb ltb_notless_trans ltb_asym l) as Ho.
  fold (Strings l) in Ho. unfold ordered in Ho.
  induction Ho as [|a k Hk IH Ha]; [constructor|].
  apply NoDup_cons in Hnd' as [Hnin Hnd'].
  constructor; [now apply IH|].
  apply Forall_forall. intros b Hb. rewrite Forall_forall in Ha.
  destruct (ltb_trichotomy a b) as [H|[->|H]]; [exact H | contradiction |].
  rewrite (Ha b Hb) in H. discriminate.
Qed.

(** The empty string comes first. *)
Lemma Strings_empty_first (n : nat) (l : list string) :
  Strings (replicate n "" ++ l) = replicate n "" ++ Strings l.
Proof.
  unfold Strings. induction n as [|n IH]; [reflexivity|].
  simpl. rewrite IH.
  destruct (replicate n "" ++ SliceStable String.ltb l) as [|y k]; [reflexivity|].
  simpl. now destruct y.
Qed.

End gosort.

(* ===================================================================== *)
(** * Package scheduler: the dependency graph (graph.go)                  *)
(* ===================================================================== *)

Module scheduler_graph.

(** [const csName = ""], the name of the child sentinel. *)
Definition csName : string := "".

Section Graph.

(** The values stored in a graph implement [Item]: they are values [T] of
    the caller with their [GetName], or the graph's own [*sentinel]. *)
Context {T : Type}.
Variable GetName : T -> string.

Inductive Item :=
  | userItem (t : T)
  | sentinel.

Definition itemName (i : Item) : string :=
  match i with
  | userItem t => GetName t
  | sentinel => csName
  end.

(** A [node] holds its item and the maps of its children and parents.
    The maps are keyed by name and hold pointers to nodes; the graph is
    the arena of the nodes, and a pointer stored under a name is the node
    the graph stores under that name, so the maps are represented by
    their key sets and a [*node] by the name of its node, or [None] for
    nil. *)
Record node := mkNode {
  nItem : Item;
  children : gset string;
  parents : gset string
}.

Definition newNode (t : Item) : node :=
  {| nItem := t; children := ∅; parents := ∅ |}.

(** [c.addParent(p)] and [p.addChild(c)], with the name of the other node. *)
Definition addParent (p : string) (n : node) : node :=
  {| nItem := nItem n; children := children n; parents := {[p]} ∪ parents n |}.

Definition addChild (c : string) (n : node) : node :=
  {| nItem := nItem n; children := {[c]} ∪ children n; parents := parents n |}.

(** [delete(child.parents, name)]. *)
Definition delParent (p : string) (n : node) : node :=
  {| nItem := nItem n; children := children n; parents := parents n ∖ {[p]} |}.

(** [type Graph map[string]*node]. *)
Local Abbreviation Graph := (gmap string node).

Definition NewGraph : Graph := ∅.

Definition addItem (g : Graph) (t : Item) : Graph :=
  match g !! itemName t with
  | Some _ => g
  | None => <[itemName t := newNode t]> g
  end.

Definition getItem (g : Graph) (name : string) : option string :=
  match g !! name with
  | Some _ => Some name
  | None => None
  end.

(** [RemoveItem]: the graph afterwards and the error, if any. *)
Definition RemoveItem (g : Graph) (name : string) : Graph * option string :=
  match g !! name with
  | Some n =>
      if (0 <? size (parents n))%nat
      then (g, Some "Node has parents, cannot be removed.")
      else
        let g1 := foldr (fun child g' => alter (delParent name) child g')
                        g (elements (children n)) in
        (delete name g1, None)
  | None => (g, None)
  end.

(** [Relate(parent, child)]; a nil parent is [None]. *)
Definition Relate (g : Graph) (parent : option Item) (child : Item) : Graph :=
  let g1 := addItem g child in
  match parent with
  | None => g1
  | Some p =>
      let g2 := addItem g1 p in
      let g3 := alter (addParent (itemName p)) (itemName child) g2 in
      alter (addChild (itemName child)) (itemName p) g3
  end.

(** [type nodeStack []*node]. *)
Definition nodeStack := list (option string).

(** [sortedNodes(nmap)].  [names] is made with length [len(nmap)] and the
    keys are appended to it, so it starts with as many empty names; the
    result is made with length [len(names)] and the nodes are appended to
    it, so it starts with as many nil pointers, and an empty name gives
    [nmap[""]], nil unless the sentinel is in the map. *)
Definition sortedNodes (nmap : gset string) : nodeStack :=
  let names := gosort.Strings (replicate (size nmap) "" ++ elements nmap) in
  replicate (length names) None
  ++ ((fun name => if decide (name ∈ nmap) then Some name else None) <$> names).

(** The loop shared by [bftUp] ([next] = parents) and [bftDown] ([next] =
    children): the items handed to [action], in the order of the calls.
    [seen] is the set of names with [seen[name] == true]. *)
Fixpoint bft (next : node -> gset string) (g : Graph) (fuel : nat)
    (queue : nodeStack) (seen : gset string) : outcome (list Item) :=
  match queue with
  | [] => Done []
  | n :: queue' =>
      match fuel with
      | O => OutOfFuel
      | S fuel' =>
          match n with
          | None => bft next g fuel' queue' seen
          | Some name =>
              if decide (name ∈ seen) then bft next g fuel' queue' seen
              else
                match g !! name with
                | None => Panic
                | Some nn =>
                    visited ← bft next g fuel' (queue' ++ sortedNodes (next nn))
                                  ({[itemName (nItem nn)]} ∪ seen);
                    Done (nItem nn :: visited)
                end
          end
      end
  end.

(** Number of entries of the [next] maps of all nodes; a traversal pops
    the start and, for each node it visits, four queue entries per entry
    of its [next] map, which bounds the turns of the loop. *)
Definition edgeCount (next : node -> gset string) (g : Graph) : nat :=
  map_fold (fun _ n acc => (size (next n) + acc)%nat) 0%nat g.

Definition bftFuel (next : node -> gset string) (g : Graph) : nat :=
  S (4 * edgeCount next g).

Definition bftUp (g : Graph) (start : option string) : outcome (list Item) :=
  bft parents g (bftFuel parents g) [start] ∅.

Definition bftDown (g : Graph) (start : option string) : outcome (list Item) :=
  bft children g (bftFuel children g) [start] ∅.

(** One turn of the loop of [childSentinel], at the key [name]. *)
Definition childSentinel_turn (name : string) (g : Graph) : Graph :=
  match g !! name with
  | Some n =>
      if negb (String.eqb name csName) && (size (children n) =? 0)%nat
      then Relate g (Some (nItem n)) sentinel
      else g
  | None => g
  end.

(** [childSentinel]: the graph afterwards and the pointer [g[csName]]. *)
Definition childSentinel (g : Graph) : Graph * option string :=
  match g !! csName with
  | Some _ => (g, Some csName)
  | None =>
      let g' := foldr childSentinel_turn g (elements (dom g)) in
      (g', getItem g' csName)
  end.

Record scoreName := mkScoreName {
  Score : Z;
  Name : string
}.

(** The closure passed to [bftUp] by [Scores], up to the test on the name:
    [n := -2], one more for every item [bftDown] hands over. *)
Definition scoreOf (g : Graph) (t : Item) : outcome scoreName :=
  downs ← bftDown g (getItem g (itemName t));
  Done {| Score := -2 + Z.of_nat (length downs); Name := itemName t |}.

(** [Scores]: the graph afterwards (the sentinel stays in it) and the
    sorted scores. *)
Definition Scores (g : Graph) : outcome (Graph * list scoreName) :=
  let '(g1, cs) := childSentinel g in
  ups ← bftUp g1 cs;
  scored ← mapOutcome (scoreOf g1) ups;
  let result := filter (fun sn => Name sn ≠ csName) scored in
  Done (g1, gosort.SliceStable (fun a b => Score b <? Score a) result).

(** The loop of [ReadyItems]. *)
Fixpoint readyOf (g : Graph) (scores : list scoreName) : outcome (list Item) :=
  match scores with
  | [] => Done []
  | sn :: rest =>
      match g !! Name sn with
      | None => Panic
      | Some n =>
          result ← readyOf g rest;
          Done (if (size (parents n) =? 0)%nat then nItem n :: result else result)
      end
  end.

(** [ReadyItems]: the graph afterwards, the ready items and the error. *)
Definition ReadyItems (g : Graph) : outcome (Graph * list Item * option string) :=
  '(g1, scores) ← Scores g;
  result ← readyOf g1 scores;
  let err := if (1 <? size g1)%nat && (length result =? 0)%nat
             then Some "Cycle detected." else None in
  Done (g1, result, err).

End Graph.

Arguments Item T : clear implicits.
Arguments node T : clear implicits.
Arguments sentinel {T}.
Arguments NewGraph {T}.

Abbreviation Graph T := (gmap string (node T)).

(** ** The graphs of the tests *)

(** The dummy [table] of the tests is a name. *)
Definition table (name : string) : Item string := userItem name.

Definition relate (parent child : string) (g : Graph string) : Graph string :=
  Relate id g (Some (table parent)) (table child).

Definition makeGraph : Graph string :=
  relate "g22" "g31" (relate "g21" "g31" (relate "g20" "g30"
  (relate "g10" "g22" (relate "g10" "g21" (relate "g10" "g20"
  (relate "g01" "g11" (relate "g01" "g10" (relate "g00" "g10" NewGraph)))))))).

Definition itemNames (o : outcome (list (Item string))) : option (list string) :=
  match o with
  | Done l => Some (map (itemName id) l)
  | _ => None
  end.

Definition scoresOf (g : Graph string) : option (list (Z * string)) :=
  match Scores id g with
  | Done (_, l) => Some (map (fun sn => (Score sn, Name sn)) l)
  | _ => None
  end.

Definition readyNames (g : Graph string) : option (list string * option string) :=
  match ReadyItems id g with
  | Done (_, l, e) => Some (map (itemName id) l, e)
  | _ => None
  end.

Example Test_graph_traversal :
  itemNames (bftUp id makeGraph (Some "g31"))
    = Some ["g31"; "g21"; "g22"; "g10"; "g00"; "g01"] /\
  itemNames (bftDown id makeGraph (Some "g00"))
    = Some ["g00"; "g10"; "g20"; "g21"; "g22"; "g30"; "g31"].
Proof. vm_compute. auto. Qed.

Example Test_graph_scores :
  scoresOf makeGraph
  = Some [(7, "g01"); (6, "g00"); (5, "g10"); (1, "g20"); (1, "g21"); (1, "g22");
          (0, "g11"); (0, "g30"); (0, "g31")].
Proof. vm_compute. reflexivity. Qed.

Example Test_graph_readyItems :
  readyNames makeGraph = Some (["g01"; "g00"], None).
Proof. vm_compute. reflexivity. Qed.

(** ** Reading a graph by name *)

Section Facts.

Context {T : Type}.
Variable GetName : T -> string.

Abbreviation Graph := (Graph T).
Abbreviation node := (node T).
Abbreviation Item := (Item T).
Abbreviation itemName := (itemName GetName).
Abbreviation Relate := (Relate GetName).
Abbreviation addItem := (addItem GetName).

Implicit Types (g : Graph) (n : node) (k a b c p name : string).

Definition parentsOf g k : gset string :=
  match g !! k with Some n => parents n | None => ∅ end.

Definition childrenOf g k : gset string :=
  match g !! k with Some n => children n | None => ∅ end.

Definition itemOf g k : option Item := nItem <$> g !! k.

(** The invariant of the arena: a node is stored under the name of its
    item, and the parent and child maps mirror each other. *)
Record wf g : Prop := mkWf {
  wf_key : forall k n, g !! k = Some n -> itemName (nItem n) = k;
  wf_sym : forall a b, a ∈ parentsOf g b <-> b ∈ childrenOf g a
}.

Lemma parentsOf_dom g a b : a ∈ parentsOf g b -> b ∈ dom g.
Proof.
  unfold parentsOf. intros H. rewrite elem_of_dom.
  destruct (g !! b); [eauto | set_solver].
Qed.

Lemma childrenOf_dom g a b : b ∈ childrenOf g a -> a ∈ dom g.
Proof.
  unfold childrenOf. intros H. rewrite elem_of_dom.
  destruct (g !! a); [eauto | set_solver].
Qed.

Lemma wf_parent_in_dom g a b : wf g -> a ∈ parentsOf g b -> a ∈ dom g.
Proof. intros [_ Hs] H. apply Hs in H. eapply childrenOf_dom, H. Qed.

Lemma wf_child_in_dom g a b : wf g -> b ∈ childrenOf g a -> b ∈ dom g.
Proof. intros [_ Hs] H. apply Hs in H. eapply parentsOf_dom, H. Qed.

Lemma wf_NewGraph : wf NewGraph.
Proof.
  split.
  - intros k n H. unfold NewGraph in H. now rewrite lookup_empty in H.
  - intros a b. unfold parentsOf, childrenOf, NewGraph. rewrite !lookup_empty.
    set_solver.
Qed.

(** *** addItem *)

Lemma addItem_lookup g (t : Item) k :
  addItem g t !! k
  = match g !! k with
    | Some n => Some n
    | None => if decide (k = itemName t) then Some (newNode t) else None
    end.
Proof.
  unfold addItem. destruct (g !! itemName t) as [n0|] eqn:E.
  - destruct (g !! k) eqn:Ek; [reflexivity|].
    case_decide; [subst; congruence | reflexivity].
  - destruct (decide (k = itemName t)) as [->|Hne].
    + rewrite lookup_insert_eq, E. reflexivity.
    + rewrite lookup_insert_ne by congruence. now destruct (g !! k).
Qed.

Lemma addItem_parentsOf g (t : Item) k : parentsOf (addItem g t) k = parentsOf g k.
Proof.
  unfold parentsOf. rewrite addItem_lookup.
  destruct (g !! k); [reflexivity|]. now case_decide.
Qed.

Lemma addItem_childrenOf g (t : Item) k : childrenOf (addItem g t) k = childrenOf g k.
Proof.
  unfold childrenOf. rewrite addItem_lookup.
  destruct (g !! k); [reflexivity|]. now case_decide.
Qed.

Lemma addItem_dom g (t : Item) : dom (addItem g t) = {[itemName t]} ∪ dom g.
Proof.
  apply set_eq. intros k. rewrite elem_of_union, elem_of_singleton, !elem_of_dom.
  rewrite addItem_lookup. destruct (g !! k) eqn:E.
  - split; [intros _; right; eauto | eauto].
  - destruct (decide (k = itemName t)) as [Heq|Hne].
    + split; eauto.
    + split; [intros [? ?]; discriminate
             | intros [?|[? ?]]; [contradiction | discriminate]].
Qed.

Lemma addItem_key g (t : Item) :
  (forall k n, g !! k = Some n -> itemName (nItem n) = k) ->
  forall k n, addItem g t !! k = Some n -> itemName (nItem n) = k.
Proof.
  intros Hk k n. rewrite addItem_lookup. destruct (g !! k) eqn:E.
  - intros [= <-]. eauto.
  - case_decide; [|discriminate]. intros [= <-]. now subst.
Qed.

Lemma addItem_is_Some g (t : Item) : is_Some (addItem g t !! itemName t).
Proof. rewrite <- elem_of_dom, addItem_dom. set_solver. Qed.

(** *** Relate *)

Lemma Relate_nil g (child : Item) : Relate g None child = addItem g child.
Proof. reflexivity. Qed.

Lemma Relate_lookup g (p child : Item) k :
  Relate g (Some p) child !! k
  = (fun n => if decide (k = itemName p) then addChild (itemName child) n else n)
    <$> ((fun n => if decide (k = itemName child) then addParent (itemName p) n else n)
    <$> addItem (addItem g child) p !! k).
Proof.
  unfold Relate. rewrite !lookup_alter.
  destruct (decide (itemName p = k)) as [->|Hp];
    destruct (decide (itemName child = k)) as [Hc|Hc]; subst;
    repeat (case_decide; try congruence);
    destruct (addItem (addItem g child) p !! _); reflexivity.
Qed.

Lemma Relate_dom g (p child : Item) :
  dom (Relate g (Some p) child) = {[itemName child; itemName p]} ∪ dom g.
Proof.
  apply set_eq. intros k. rewrite elem_of_dom, Relate_lookup, !fmap_is_Some.
  rewrite <- elem_of_dom, !addItem_dom. set_solver.
Qed.

Lemma Relate_parentsOf g (p child : Item) k :
  parentsOf (Relate g (Some p) child) k
  = parentsOf g k ∪ (if decide (k = itemName child) then {[itemName p]} else ∅).
Proof.
  unfold parentsOf at 1. rewrite Relate_lookup.
  assert (E1 : parentsOf (addItem (addItem g child) p) k = parentsOf g k)
    by (now rewrite !addItem_parentsOf).
  unfold parentsOf at 1 in E1.
  destruct (addItem (addItem g child) p !! k) as [n|] eqn:E; simpl.
  - repeat case_decide; simpl; rewrite ?E1; set_solver.
  - case_decide as Hc; [|set_solver].
    exfalso. subst k.
    assert (Hin : itemName child ∈ dom (addItem (addItem g child) p))
      by (rewrite !addItem_dom; set_solver).
    apply elem_of_dom in Hin. rewrite E in Hin. now destruct Hin.
Qed.

Lemma Relate_childrenOf g (p child : Item) k :
  childrenOf (Relate g (Some p) child) k
  = childrenOf g k ∪ (if decide (k = itemName p) then {[itemName child]} else ∅).
Proof.
  unfold childrenOf at 1. rewrite Relate_lookup.
  assert (E1 : childrenOf (addItem (addItem g child) p) k = childrenOf g k)
    by (now rewrite !addItem_childrenOf).
  unfold childrenOf at 1 in E1.
  destruct (addItem (addItem g child) p !! k) as [n|] eqn:E; simpl.
  - repeat case_decide; simpl; rewrite ?E1; set_solver.
  - case_decide as Hc; [|set_solver].
    exfalso. subst k.
    assert (Hin : itemName p ∈ dom (addItem (addItem g child) p))
      by (rewrite !addItem_dom; set_solver).
    apply elem_of_dom in Hin. rewrite E in Hin. now destruct Hin.
Qed.

Lemma Relate_itemOf g (p child : Item) k :
  itemOf (Relate g (Some p) child) k = itemOf (addItem (addItem g child) p) k.
Proof.
  unfold itemOf. rewrite Relate_lookup.
  destruct (addItem (addItem g child) p !! k) as [n|]; simpl; [|reflexivity].
  repeat case_decide; reflexivity.
Qed.

Lemma Relate_key g (parent : option Item) (child : Item) :
  (forall k n, g !! k = Some n -> itemName (nItem n) = k) ->
  forall k n, Relate g parent child !! k = Some n -> itemName (nItem n) = k.
Proof.
  intros Hk k n. destruct parent as [p|]; [|now apply addItem_key].
  intros H.
  assert (E : itemOf (Relate g (Some p) child) k = Some (nItem n))
    by (unfold itemOf; now rewrite H).
  rewrite Relate_itemOf in E. unfold itemOf in E.
  destruct (addItem (addItem g child) p !! k) as [n'|] eqn:E'; [|discriminate].
  injection E as <-. revert E'. now apply addItem_key, addItem_key.
Qed.

Lemma wf_Relate g (parent : option Item) (child : Item) :
  wf g -> wf (Relate g parent child).
Proof.
  intros [Hk Hs]. split; [now apply Relate_key|].
  intros a b. destruct parent as [p|].
  - rewrite Relate_parentsOf, Relate_childrenOf.
    specialize (Hs a b). repeat case_decide; set_solver.
  - rewrite Relate_nil, addItem_parentsOf, addItem_childrenOf. apply Hs.
Qed.

End Facts.

(** ** The breadth-first traversals *)

Section Traversal.

Context {T : Type}.
Variable GetName : T -> string.

Abbreviation itemName := (itemName GetName).

Implicit Types (g : Graph T) (n : node T) (k a b q v name : string).

Variable next : node T -> gset string.

Definition nextOf g k : gset string :=
  match g !! k with Some n => next n | None => ∅ end.

(** [reaches g a b]: [b] is [a] or can be reached from [a] along [next]. *)
Definition reaches g : relation string := rtc (fun a b => b ∈ nextOf g a).

Lemma sortedNodes_length (s : gset string) :
  length (sortedNodes s) = (4 * size s)%nat.
Proof.
  unfold sortedNodes.
  rewrite length_app, length_replicate, length_fmap, gosort.Strings_length.
  rewrite length_app, length_replicate.
  change (length (elements s)) with (size s). lia.
Qed.

Lemma sortedNodes_Some (s : gset string) q : Some q ∈ sortedNodes s <-> q ∈ s.
Proof.
  unfold sortedNodes. rewrite elem_of_app. split.
  - intros [H|H].
    + apply elem_of_replicate_inv in H. discriminate.
    + apply list_elem_of_fmap in H. destruct H as (name & E & _).
      case_decide; inversion E; subst; assumption.
  - intros Hq. right. apply list_elem_of_fmap. exists q. split.
    + case_decide; [reflexivity | contradiction].
    + apply gosort.Strings_elem_of. rewrite elem_of_app. right.
      now apply elem_of_elements.
Qed.

Lemma edgeCount_delete (m : Graph T) k n :
  m !! k = Some n ->
  edgeCount next m = (size (next n) + edgeCount next (delete k m))%nat.
Proof.
  intros H. unfold edgeCount.
  apply (map_fold_delete_L (fun _ n acc => (size (next n) + acc)%nat)); [|exact H].
  intros. lia.
Qed.

(** What a traversal that starts with the queue [queue] and the set [seen]
    hands over: nodes of the graph, each once, none of them seen before;
    every queued node ends up seen or visited, the visited nodes are
    closed under [next] up to the nodes seen before, and each of them is
    reached from a queued node. *)
Record bftPost g (queue : nodeStack) (seen : gset string)
    (visited : list (Item T)) : Prop := mkBftPost {
  post_nodup : NoDup (itemName <$> visited);
  post_fresh : forall v, v ∈ itemName <$> visited -> v ∉ seen;
  post_items : forall it, it ∈ visited ->
                 exists n, g !! itemName it = Some n /\ nItem n = it;
  post_queue : forall q, Some q ∈ queue -> q ∈ seen \/ q ∈ itemName <$> visited;
  post_closed : forall v q, v ∈ itemName <$> visited -> q ∈ nextOf g v ->
                  q ∈ seen \/ q ∈ itemName <$> visited;
  post_sound : forall v, v ∈ itemName <$> visited ->
                 exists q, Some q ∈ queue /\ reaches g q v
}.

Lemma bftPost_nil g seen : bftPost g [] seen [].
Proof.
  split; simpl; try (intros; exfalso; eapply not_elem_of_nil; eassumption).
  constructor.
Qed.

Lemma bft_post g :
  (forall k n, g !! k = Some n -> itemName (nItem n) = k) ->
  (forall a b, b ∈ nextOf g a -> b ∈ dom g) ->
  forall fuel queue seen (m : Graph T),
    (forall k, k ∉ seen -> m !! k = g !! k) ->
    (forall q, Some q ∈ queue -> q ∈ dom g) ->
    (length queue + 4 * edgeCount next m <= fuel)%nat ->
    exists visited,
      bft GetName next g fuel queue seen = Done visited /\
      bftPost g queue seen visited.
Proof.
  intros Hkey Hclosed.
  induction fuel as [|fuel IH]; intros queue seen m Hm Hq Hf.
  { destruct queue; simpl in Hf; [|lia].
    exists []. split; [reflexivity | apply bftPost_nil]. }
  destruct queue as [|n queue'].
  { exists []. split; [reflexivity | apply bftPost_nil]. }
  simpl in Hf. simpl.
  assert (Hskip : forall (Hn : forall q, n = Some q -> q ∈ seen),
    exists visited, bft GetName next g fuel queue' seen = Done visited /\
                    bftPost g (n :: queue') seen visited).
  { intros Hn.
    destruct (IH queue' seen m) as (visited & E & P); [assumption | | lia |].
    { intros q Hin. apply Hq. now right. }
    exists visited. split; [exact E|].
    destruct P as [P1 P2 P3 P4 P5 P6]. split; try assumption.
    - intros q Hin. apply elem_of_cons in Hin as [Heq|Hin]; [|now apply P4].
      left. now apply Hn.
    - intros v Hv. destruct (P6 v Hv) as (q & Hin & Hr).
      exists q. split; [now right | exact Hr]. }
  destruct n as [name|]; [|apply Hskip; discriminate].
  destruct (decide (name ∈ seen)) as [Hseen|Hnew].
  { apply Hskip. now intros q [= <-]. }
  clear Hskip.
  assert (Hdom : name ∈ dom g) by (apply Hq; now left).
  apply elem_of_dom in Hdom as [nn Hnn]. rewrite Hnn.
  pose proof (Hkey _ _ Hnn) as Hname. rewrite Hname.
  assert (Hmn : m !! name = Some nn) by (rewrite Hm; assumption).
  destruct (IH (queue' ++ sortedNodes (next nn)) ({[name]} ∪ seen) (delete name m))
    as (visited & E & P).
  { intros k Hk. rewrite lookup_delete_ne by set_solver. apply Hm. set_solver. }
  { intros q Hin. apply elem_of_app in Hin as [Hin|Hin].
    - apply Hq. now right.
    - apply sortedNodes_Some in Hin. apply (Hclosed name).
      unfold nextOf. now rewrite Hnn. }
  { rewrite length_app, sortedNodes_length.
    rewrite (edgeCount_delete m name nn Hmn) in Hf. lia. }
  rewrite E. simpl. exists (nItem nn :: visited). split; [reflexivity|].
  destruct P as [P1 P2 P3 P4 P5 P6].
  split; rewrite ?fmap_cons, ?Hname.
  - constructor; [|exact P1]. intros Hin. apply P2 in Hin. set_solver.
  - intros v Hv. apply elem_of_cons in Hv as [->|Hv]; [assumption|].
    apply P2 in Hv. set_solver.
  - intros it Hit. apply elem_of_cons in Hit as [->|Hit]; [|now apply P3].
    exists nn. rewrite Hname. split; [assumption | reflexivity].
  - intros q Hin. apply elem_of_cons in Hin as [[= ->]|Hin].
    + right. now left.
    + destruct (P4 q) as [Hs|Hv]; [apply elem_of_app; now left | |].
      * apply elem_of_union in Hs as [Hs|Hs]; [|now left].
        apply elem_of_singleton in Hs as ->. right. now left.
      * right. now right.
  - intros v q Hv Hqv.
    assert (Hcase : q ∈ {[name]} ∪ seen \/ q ∈ itemName <$> visited).
    { apply elem_of_cons in Hv as [->|Hv]; [|now apply (P5 v q)].
      apply P4. apply elem_of_app. right. apply sortedNodes_Some.
      unfold nextOf in Hqv. now rewrite Hnn in Hqv. }
    destruct Hcase as [Hs|Hs]; [|right; now right].
    apply elem_of_union in Hs as [Hs|Hs]; [|now left].
    apply elem_of_singleton in Hs as ->. right. now left.
  - intros v Hv. apply elem_of_cons in Hv as [->|Hv].
    + exists name. split; [now left | reflexivity].
    + destruct (P6 v Hv) as (q & Hin & Hr).
      apply elem_of_app in Hin as [Hin|Hin].
      * exists q. split; [now right | exact Hr].
      * exists name. split; [now left|].
        apply sortedNodes_Some in Hin.
        eapply rtc_l; [|exact Hr]. unfold nextOf. now rewrite Hnn.
Qed.

(** A traversal from one node of the graph, with the bound [bftFuel],
    returns, and hands over exactly the nodes reachable from the start,
    each once. *)
Lemma bft_from_start g start :
  (forall k n, g !! k = Some n -> itemName (nItem n) = k) ->
  (forall a b, b ∈ nextOf g a -> b ∈ dom g) ->
  start ∈ dom g ->
  exists visited,
    bft GetName next g (bftFuel next g) [Some start] ∅ = Done visited /\
    NoDup (itemName <$> visited) /\
    (forall v, v ∈ itemName <$> visited <-> reaches g start v) /\
    (forall it, it ∈ visited -> exists n, g !! itemName it = Some n /\ nItem n = it).
Proof.
  intros Hkey Hclosed Hstart.
  destruct (bft_post g Hkey Hclosed (bftFuel next g) [Some start] ∅ g)
    as (visited & E & [P1 P2 P3 P4 P5 P6]).
  { reflexivity. }
  { intros q Hq. apply list_elem_of_singleton in Hq as [= ->]. assumption. }
  { unfold bftFuel. simpl. lia. }
  exists visited. split; [exact E|]. split; [exact P1|]. split; [|exact P3].
  intros v. split.
  - intros Hv. destruct (P6 v Hv) as (q & Hq & Hr).
    apply list_elem_of_singleton in Hq as [= ->]. exact Hr.
  - revert v. unfold reaches. apply rtc_ind_r.
    + destruct (P4 start) as [Hs|Hs]; [now left | set_solver | exact Hs].
    + intros v w _ Hstep IHv.
      destruct (P5 v w) as [Hs|Hs]; [assumption | assumption | set_solver | exact Hs].
Qed.

Lemma bft_from_nil g fuel : bft GetName next g (S fuel) [None] ∅ = Done [].
Proof. simpl. now destruct fuel. Qed.

End Traversal.

(** ** The child sentinel *)

Section Sentinel.

Context {T : Type}.
Variable GetName : T -> string.

Abbreviation itemName := (itemName GetName).
Abbreviation Relate := (Relate GetName).
Abbreviation wf := (wf GetName).
Abbreviation childSentinel_turn := (childSentinel_turn GetName).
Abbreviation childSentinel := (childSentinel GetName).

Implicit Types (g : Graph T) (n : node T) (k a b name : string) (l : list string).

(** The names of [l] that are childless nodes of [g]. *)
Definition leavesIn g l : gset string :=
  list_to_set (filter (fun k => k ∈ dom g /\ childrenOf g k = ∅) l).

(** The childless nodes of [g]. *)
Definition leaves g : gset string := leavesIn g (elements (dom g)).

Lemma elem_of_leavesIn g l k :
  k ∈ leavesIn g l <-> k ∈ l /\ k ∈ dom g /\ childrenOf g k = ∅.
Proof. unfold leavesIn. rewrite elem_of_list_to_set, list_elem_of_filter. tauto. Qed.

Lemma elem_of_leaves g k : k ∈ leaves g <-> k ∈ dom g /\ childrenOf g k = ∅.
Proof. unfold leaves. rewrite elem_of_leavesIn, elem_of_elements. tauto. Qed.

Lemma size_zero_iff (s : gset string) : (size s =? 0)%nat = true <-> s = ∅.
Proof.
  rewrite Nat.eqb_eq, size_empty_iff. split; [apply leibniz_equiv | now intros ->].
Qed.

Lemma wf_childSentinel_turn g name : wf g -> wf (childSentinel_turn name g).
Proof.
  intros H. unfold scheduler_graph.childSentinel_turn.
  destruct (g !! name); [|exact H].
  destruct (negb _ && _); [|exact H]. now apply wf_Relate.
Qed.

Lemma wf_childSentinel_fold g l : wf g -> wf (foldr childSentinel_turn g l).
Proof.
  intros H. induction l as [|x l IH]; simpl; [exact H|].
  now apply wf_childSentinel_turn.
Qed.

Lemma leavesIn_cons g x l :
  leavesIn g (x :: l)
  = if decide (x ∈ dom g /\ childrenOf g x = ∅)
    then {[x]} ∪ leavesIn g l else leavesIn g l.
Proof.
  unfold leavesIn. rewrite filter_cons.
  destruct (decide (x ∈ dom g /\ childrenOf g x = ∅)); reflexivity.
Qed.

(** A childless node met by the loop gains the child [""]. *)
Definition mark l k n : node T :=
  if decide (k ∈ l /\ children n = ∅) then addChild csName n else n.

Lemma mark_cons_ne x l k n : k ≠ x -> mark (x :: l) k n = mark l k n.
Proof.
  intros Hne. unfold mark.
  destruct (decide (k ∈ l /\ children n = ∅)) as [H|H];
    destruct (decide (k ∈ x :: l /\ children n = ∅)) as [H'|H']; try reflexivity; exfalso.
  - apply H'. destruct H. split; [now right | assumption].
  - apply H. destruct H' as [Hin ?]. split; [|assumption].
    apply elem_of_cons in Hin as [->|Hin]; [contradiction | assumption].
Qed.

Lemma mark_nonleaf l k n : children n ≠ ∅ -> mark l k n = n.
Proof.
  intros Hne. unfold mark.
  destruct (decide (k ∈ l /\ children n = ∅)) as [[_ H]|H]; [contradiction | reflexivity].
Qed.

Lemma mark_notin l k n : k ∉ l -> mark l k n = n.
Proof.
  intros Hne. unfold mark.
  destruct (decide (k ∈ l /\ children n = ∅)) as [[H _]|H]; [contradiction | reflexivity].
Qed.

Lemma mark_leaf l k n : k ∈ l -> children n = ∅ -> mark l k n = addChild csName n.
Proof.
  intros Hin Hc. unfold mark.
  destruct (decide (k ∈ l /\ children n = ∅)) as [H|H]; [reflexivity | tauto].
Qed.

Lemma mark_cons_skip g x l k :
  (forall n, g !! x = Some n -> children n ≠ ∅) ->
  mark (x :: l) k <$> g !! k = mark l k <$> g !! k.
Proof.
  intros Hx. destruct (g !! k) as [n|] eqn:E; simpl; [|reflexivity]. f_equal.
  destruct (decide (k = x)) as [->|Hne]; [|now apply mark_cons_ne].
  rewrite !mark_nonleaf; eauto.
Qed.

(** The sentinel node once the childless nodes [L] have been related to it. *)
Definition sentinelNode (L : gset string) : option (node T) :=
  if decide (L = ∅) then None
  else Some {| nItem := sentinel; children := ∅; parents := L |}.

(** The graph after the loop of [childSentinel] over the keys [l], read
    name by name: a childless node of [l] has gained the child [""], and
    the sentinel node, if any childless node was met, has those nodes as
    parents. *)
Lemma childSentinel_fold_lookup g l :
  (forall k n, g !! k = Some n -> itemName (nItem n) = k) ->
  g !! csName = None -> NoDup l ->
  let gl := foldr childSentinel_turn g l in
  (forall k, k ≠ csName -> gl !! k = mark l k <$> g !! k) /\
  gl !! csName = sentinelNode (leavesIn g l).
Proof.
  intros Hkey Hcs. induction 1 as [|x l Hx Hnd IH]; simpl.
  { split.
    - intros k Hk. destruct (g !! k) as [n|]; simpl; [|reflexivity].
      rewrite mark_notin; [reflexivity | apply not_elem_of_nil].
    - exact Hcs. }
  destruct IH as [IH1 IH2].
  set (gl := foldr childSentinel_turn g l) in *.
  rewrite leavesIn_cons.
  assert (Hskip : (forall n, g !! x = Some n -> children n ≠ ∅) ->
    childSentinel_turn x gl = gl ->
    (forall k, k ≠ csName -> childSentinel_turn x gl !! k = mark (x :: l) k <$> g !! k) /\
    childSentinel_turn x gl !! csName
    = sentinelNode (if decide (x ∈ dom g /\ childrenOf g x = ∅)
                    then {[x]} ∪ leavesIn g l else leavesIn g l)).
  { intros Hnl ->. split.
    - intros k Hk. rewrite mark_cons_skip by exact Hnl. now apply IH1.
    - rewrite decide_False; [exact IH2|].
      intros [Hd Hc]. apply elem_of_dom in Hd as [n Hn].
      apply (Hnl n Hn). unfold childrenOf in Hc. now rewrite Hn in Hc. }
  destruct (decide (x = csName)) as [->|Hxne].
  { apply Hskip; [intros n Hn; congruence|].
    unfold scheduler_graph.childSentinel_turn.
    destruct (gl !! csName); reflexivity. }
  pose proof (IH1 x Hxne) as Hglx.
  destruct (g !! x) as [n|] eqn:Egx; simpl in Hglx.
  2:{ apply Hskip; [intros n Hn; congruence|].
      unfold scheduler_graph.childSentinel_turn. now rewrite Hglx. }
  rewrite mark_notin in Hglx by exact Hx.
  assert (Hneq : String.eqb x csName = false) by now apply String.eqb_neq.
  destruct (decide (children n = ∅)) as [Hleaf|Hnl].
  2:{ apply Hskip; [intros n' [= <-]; exact Hnl|].
      unfold scheduler_graph.childSentinel_turn. rewrite Hglx, Hneq. simpl.
      destruct (size (children n) =? 0)%nat eqn:Esz; [|reflexivity].
      apply size_zero_iff in Esz. contradiction. }
  clear Hskip.
  (* [x] is childless: it is related to the sentinel *)
  assert (Hturn : childSentinel_turn x gl = Relate gl (Some (nItem n)) sentinel).
  { unfold scheduler_graph.childSentinel_turn. rewrite Hglx, Hneq. simpl.
    apply size_zero_iff in Hleaf. now rewrite Hleaf. }
  rewrite Hturn.
  assert (Hl : x ∈ dom g /\ childrenOf g x = ∅).
  { split; [apply elem_of_dom; eauto|]. unfold childrenOf. now rewrite Egx. }
  rewrite (decide_True (P := x ∈ dom g /\ childrenOf g x = ∅)) by exact Hl.
  pose proof (Hkey _ _ Egx) as Hnx.
  split.
  - intros k Hk. rewrite Relate_lookup, Hnx. simpl scheduler_graph.itemName.
    rewrite !addItem_lookup, Hnx. simpl scheduler_graph.itemName.
    rewrite (IH1 k Hk).
    destruct (decide (k = csName)) as [?|_]; [contradiction|].
    destruct (decide (k = x)) as [->|Hkx].
    + rewrite Egx. simpl. rewrite mark_notin by exact Hx.
      rewrite mark_leaf; [reflexivity | now left | exact Hleaf].
    + destruct (g !! k) as [n'|] eqn:Egk; simpl; [|reflexivity].
      now rewrite mark_cons_ne.
  - rewrite Relate_lookup, Hnx. simpl scheduler_graph.itemName.
    rewrite !addItem_lookup, Hnx. simpl scheduler_graph.itemName. rewrite IH2.
    destruct (decide (csName = x)) as [?|_]; [congruence|].
    destruct (decide (csName = csName)) as [_|?]; [|contradiction].
    unfold sentinelNode.
    rewrite (decide_False (P := {[x]} ∪ leavesIn g l = ∅)) by set_solver.
    destruct (decide (leavesIn g l = ∅)) as [E0|E0]; simpl.
    + unfold addParent, newNode. simpl. rewrite E0. reflexivity.
    + reflexivity.
Qed.

Lemma childSentinel_present g n :
  g !! csName = Some n -> childSentinel g = (g, Some csName).
Proof. intros H. unfold scheduler_graph.childSentinel. now rewrite H. Qed.

Lemma wf_childSentinel g : wf g -> wf (childSentinel g).1.
Proof.
  intros H. unfold scheduler_graph.childSentinel.
  destruct (g !! csName); simpl; [exact H | now apply wf_childSentinel_fold].
Qed.

Lemma childSentinel_pointer g :
  (childSentinel g).2 = getItem (childSentinel g).1 csName.
Proof.
  unfold scheduler_graph.childSentinel.
  destruct (g !! csName) eqn:E; simpl; [|reflexivity].
  unfold getItem. now rewrite E.
Qed.

(** Apart from the sentinel, no node changes its item or its parents. *)
Lemma childSentinel_keeps g k :
  (forall k n, g !! k = Some n -> itemName (nItem n) = k) ->
  k ≠ csName ->
  itemOf (childSentinel g).1 k = itemOf g k /\
  parentsOf (childSentinel g).1 k = parentsOf g k.
Proof.
  intros Hkey Hk. unfold scheduler_graph.childSentinel.
  destruct (g !! csName) eqn:E; simpl; [tauto|].
  destruct (childSentinel_fold_lookup g (elements (dom g)) Hkey E (NoDup_elements _))
    as [H1 _].
  unfold itemOf, parentsOf. rewrite (H1 k Hk).
  destruct (g !! k) as [n|]; simpl; [|tauto].
  unfold mark. destruct (decide _); simpl; tauto.
Qed.

(** The graph after [childSentinel], for a graph without the sentinel. *)
Lemma childSentinel_fresh g :
  (forall k n, g !! k = Some n -> itemName (nItem n) = k) ->
  g !! csName = None ->
  let g1 := (childSentinel g).1 in
  (forall k, k ≠ csName ->
     childrenOf g1 k
     = childrenOf g k ∪ (if decide (k ∈ leaves g) then {[csName]} else ∅)) /\
  parentsOf g1 csName = leaves g /\
  childrenOf g1 csName = ∅ /\
  (childSentinel g).2 = (if decide (leaves g = ∅) then None else Some csName).
Proof.
  intros Hkey E.
  rewrite childSentinel_pointer.
  unfold scheduler_graph.childSentinel. rewrite E. simpl.
  destruct (childSentinel_fold_lookup g (elements (dom g)) Hkey E (NoDup_elements _))
    as [H1 H2].
  fold (leaves g) in H2.
  split; [|split; [|split]].
  - intros k Hk. unfold childrenOf at 1. rewrite (H1 k Hk).
    unfold childrenOf. destruct (g !! k) as [n|] eqn:Ek; simpl.
    + assert (Hd : k ∈ dom g) by (apply elem_of_dom; eauto).
      destruct (decide (children n = ∅)) as [Hl|Hl].
      * rewrite mark_leaf; [|now apply elem_of_elements | exact Hl].
        rewrite decide_True; [simpl; set_solver|].
        apply elem_of_leaves. split; [exact Hd|]. unfold childrenOf. now rewrite Ek.
      * rewrite mark_nonleaf by exact Hl.
        rewrite decide_False; [set_solver|].
        rewrite elem_of_leaves. unfold childrenOf. rewrite Ek. tauto.
    + rewrite decide_False; [set_solver|].
      rewrite elem_of_leaves, elem_of_dom, Ek. intros [[? ?] _]. discriminate.
  - unfold parentsOf. rewrite H2. unfold sentinelNode.
    destruct (decide (leaves g = ∅)) as [->|]; reflexivity.
  - unfold childrenOf. rewrite H2. unfold sentinelNode.
    destruct (decide (leaves g = ∅)); reflexivity.
  - unfold getItem. rewrite H2. unfold sentinelNode.
    destruct (decide (leaves g = ∅)); reflexivity.
Qed.

(** ** Reaching down and up *)

Abbreviation down g := (reaches children g).
Abbreviation up g := (reaches parents g).

Lemma up_down g a b : wf g -> up g a b <-> down g b a.
Proof.
  intros [_ Hs]. unfold reaches. split.
  - induction 1 as [|x y z Hstep _ IH]; [reflexivity|].
    eapply rtc_r; [exact IH|]. apply Hs. exact Hstep.
  - induction 1 as [|x y z Hstep _ IH]; [reflexivity|].
    eapply rtc_r; [exact IH|]. apply Hs. exact Hstep.
Qed.

Lemma down_in_dom g a b : wf g -> a ∈ dom g -> down g a b -> b ∈ dom g.
Proof.
  intros Hwf Ha. unfold reaches. induction 1 as [|x y z Hstep _ IH]; [exact Ha|].
  apply IH. eapply wf_child_in_dom; [exact Hwf | exact Hstep].
Qed.

(** X8.  Go ranges over the graph in an order of its choosing; whatever
    the order of the keys, the loop of [childSentinel] ends with the same
    graph (on a graph keyed by the names of its items that does not hold
    the sentinel yet). *)
Lemma childSentinel_any_order g l :
  (forall k n, g !! k = Some n -> itemName (nItem n) = k) ->
  g !! csName = None -> l ≡ₚ elements (dom g) ->
  foldr childSentinel_turn g l = foldr childSentinel_turn g (elements (dom g)).
Proof.
  intros Hkey Hcs Hl.
  assert (Hnd : NoDup l) by (rewrite Hl; apply NoDup_elements).
  destruct (childSentinel_fold_lookup g l Hkey Hcs Hnd) as [A1 A2].
  destruct (childSentinel_fold_lookup g (elements (dom g)) Hkey Hcs (NoDup_elements _))
    as [B1 B2].
  apply map_eq. intros k. destruct (decide (k = csName)) as [->|Hk].
  - rewrite A2, B2. f_equal. apply set_eq. intros x.
    rewrite !elem_of_leavesIn, Hl. tauto.
  - rewrite A1, B1 by exact Hk. destruct (g !! k) as [n|]; simpl; [|reflexivity].
    f_equal. unfold mark.
    destruct (decide (k ∈ l /\ children n = ∅)) as [H1|H1],
             (decide (k ∈ elements (dom g) /\ children n = ∅)) as [H2|H2];
      try reflexivity; exfalso; rewrite Hl in H1; tauto.
Qed.

Section Fresh.

Variable g : Graph T.
Hypothesis Hwf : wf g.
Hypothesis Hfresh : g !! csName = None.

Let g1 := (childSentinel g).1.

Lemma fresh_children k :
  k ≠ csName ->
  childrenOf g1 k = childrenOf g k ∪ (if decide (k ∈ leaves g) then {[csName]} else ∅).
Proof. intros Hk. now apply (childSentinel_fresh g (wf_key _ _ Hwf) Hfresh). Qed.

Lemma fresh_sentinel_children : childrenOf g1 csName = ∅.
Proof. now apply (childSentinel_fresh g (wf_key _ _ Hwf) Hfresh). Qed.

Lemma fresh_not_key k : k ∈ dom g -> k ≠ csName.
Proof. intros Hd ->. apply elem_of_dom in Hd. rewrite Hfresh in Hd. now destruct Hd. Qed.

Lemma down_fresh_mono a b : down g a b -> down g1 a b.
Proof.
  unfold reaches. induction 1 as [|x y z Hstep _ IH]; [reflexivity|].
  eapply rtc_l; [|exact IH].
  change (y ∈ childrenOf g1 x). change (y ∈ childrenOf g x) in Hstep.
  rewrite fresh_children; [set_solver|].
  apply fresh_not_key. eapply childrenOf_dom, Hstep.
Qed.

Lemma down_fresh_inv a b : a ≠ csName -> b ≠ csName -> down g1 a b -> down g a b.
Proof.
  intros Ha Hb H. revert b H Hb. unfold reaches. apply (rtc_ind_r (fun b => b ≠ csName -> rtc _ a b)).
  - reflexivity.
  - intros y z _ Hstep IH Hz.
    change (z ∈ childrenOf g1 y) in Hstep.
    assert (Hy : y ≠ csName).
    { intros ->. rewrite fresh_sentinel_children in Hstep. set_solver. }
    eapply rtc_r; [exact (IH Hy)|].
    change (z ∈ childrenOf g y).
    rewrite fresh_children in Hstep by exact Hy.
    destruct (decide (y ∈ leaves g)); set_solver.
Qed.

Lemma down_fresh_sentinel a :
  a ≠ csName ->
  down g1 a csName <-> exists leaf, leaf ∈ leaves g /\ down g a leaf.
Proof.
  intros Ha. split.
  - intros H. apply rtc_inv_r in H as [Heq|(y & Hy & Hstep)]; [congruence|].
    change (csName ∈ childrenOf g1 y) in Hstep.
    assert (Hyne : y ≠ csName).
    { intros ->. rewrite fresh_sentinel_children in Hstep. set_solver. }
    rewrite fresh_children in Hstep by exact Hyne.
    exists y. split; [|now apply down_fresh_inv].
    destruct (decide (y ∈ leaves g)) as [Hl|Hl]; [exact Hl|].
    exfalso. assert (Hin : csName ∈ childrenOf g y) by set_solver.
    apply (wf_child_in_dom _ _ _ _ Hwf), elem_of_dom in Hin.
    rewrite Hfresh in Hin. now destruct Hin.
  - intros (leaf & Hl & Hr). eapply rtc_r; [apply down_fresh_mono, Hr|].
    change (csName ∈ childrenOf g1 leaf).
    assert (Hne : leaf ≠ csName).
    { apply fresh_not_key. now apply elem_of_leaves in Hl as [? _]. }
    rewrite fresh_children by exact Hne.
    rewrite decide_True by exact Hl. set_solver.
Qed.

End Fresh.

End Sentinel.

(** ** Scores *)

Lemma mapOutcome_Forall2 {A B} (f : A -> outcome B) (R : A -> B -> Prop) (l : list A) :
  (forall a, a ∈ l -> exists b, f a = Done b /\ R a b) ->
  exists bs, mapOutcome f l = Done bs /\ Forall2 R l bs.
Proof.
  induction l as [|a l IH]; intros H; simpl.
  - exists []. split; [reflexivity | constructor].
  - destruct (H a) as (b & Eb & Rb); [now left|].
    destruct IH as (bs & Ebs & Rbs); [intros a' Ha'; apply H; now right|].
    exists (b :: bs). rewrite Eb. simpl. rewrite Ebs. simpl.
    split; [reflexivity | now constructor].
Qed.

Lemma Forall2_elem_of_r {A B} (R : A -> B -> Prop) (l : list A) (k : list B) (y : B) :
  Forall2 R l k -> y ∈ k -> exists x, x ∈ l /\ R x y.
Proof.
  induction 1 as [|x y' l k Hxy _ IH]; intros Hy; [inversion Hy|].
  apply elem_of_cons in Hy as [->|Hy].
  - exists x. split; [now left | assumption].
  - destruct (IH Hy) as (x' & Hx' & HR). exists x'. split; [now right | assumption].
Qed.

Lemma Forall2_fmap_eq {A B C} (R : A -> B -> Prop) (f : A -> C) (h : B -> C)
    (l : list A) (k : list B) :
  (forall x y, R x y -> f x = h y) -> Forall2 R l k -> f <$> l = h <$> k.
Proof.
  intros Hfh. induction 1 as [|x y l k Hxy _ IH]; [reflexivity|].
  rewrite !fmap_cons, IH. f_equal. now apply Hfh.
Qed.

Section ScoresFacts.

Context {T : Type}.
Variable GetName : T -> string.

Abbreviation itemName := (itemName GetName).
Abbreviation wf := (wf GetName).
Abbreviation childSentinel := (childSentinel GetName).
Abbreviation Scores := (Scores GetName).
Abbreviation bftUp := (bftUp GetName).
Abbreviation bftDown := (bftDown GetName).
Abbreviation down g := (reaches children g).
Abbreviation up g := (reaches parents g).

Implicit Types (g : Graph T) (n : node T) (k a b name v : string).

(** The comparison handed to [sort.SliceStable] by [Scores]. *)
Definition byScore (x y : scoreName) : bool := Score y <? Score x.

Lemma Scores_unfold g :
  Scores g =
  (ups ← bftUp (childSentinel g).1 (childSentinel g).2;
   scored ← mapOutcome (scoreOf GetName (childSentinel g).1) ups;
   Done ((childSentinel g).1,
         gosort.SliceStable byScore (filter (fun sn => Name sn ≠ csName) scored))).
Proof. unfold scheduler_graph.Scores. now destruct (scheduler_graph.childSentinel _ g). Qed.

Lemma bftUp_spec g start :
  wf g -> start ∈ dom g ->
  exists ups, bftUp g (Some start) = Done ups /\
    NoDup (itemName <$> ups) /\
    (forall v, v ∈ itemName <$> ups <-> down g v start) /\
    (forall it, it ∈ ups -> exists n, g !! itemName it = Some n /\ nItem n = it).
Proof.
  intros Hwf Hs.
  destruct (bft_from_start GetName parents g start (wf_key _ _ Hwf)) as (ups & E & H1 & H2 & H3).
  { intros a b Hb. eapply (wf_parent_in_dom GetName); [exact Hwf | exact Hb]. }
  { exact Hs. }
  exists ups. split; [exact E|]. split; [exact H1|]. split; [|exact H3].
  intros v. rewrite H2. now apply (up_down GetName).
Qed.

Lemma bftDown_spec g start :
  wf g -> start ∈ dom g ->
  exists downs, bftDown g (Some start) = Done downs /\
    NoDup (itemName <$> downs) /\
    (forall v, v ∈ itemName <$> downs <-> down g start v).
Proof.
  intros Hwf Hs.
  destruct (bft_from_start GetName children g start (wf_key _ _ Hwf)) as (ds & E & H1 & H2 & _).
  { intros a b Hb. eapply (wf_child_in_dom GetName); [exact Hwf | exact Hb]. }
  { exact Hs. }
  exists ds. split; [exact E|]. split; [exact H1 | exact H2].
Qed.

(** What the closure of [Scores] computes for a visited node: two less
    than the number of nodes reachable downwards from it. *)
Definition scored g (t : Item T) (sn : scoreName) : Prop :=
  Name sn = itemName t /\
  exists D : gset string,
    (forall v, v ∈ D <-> down g (itemName t) v) /\
    Score sn = -2 + Z.of_nat (size D).

Lemma scoreOf_spec g (t : Item T) :
  wf g -> itemName t ∈ dom g ->
  exists sn, scoreOf GetName g t = Done sn /\ scored g t sn.
Proof.
  intros Hwf Hd. unfold scoreOf, getItem.
  apply elem_of_dom in Hd as Hd'. destruct Hd' as [n Hn]. rewrite Hn.
  destruct (bftDown_spec g (itemName t) Hwf Hd) as (downs & E & Hnd & Hmem).
  fold (bftDown g (Some (itemName t))). rewrite E. simpl.
  eexists. split; [reflexivity|]. split; [reflexivity|].
  exists (list_to_set (itemName <$> downs)). split.
  - intros v. rewrite elem_of_list_to_set. apply Hmem.
  - simpl. rewrite size_list_to_set by exact Hnd. now rewrite length_fmap.
Qed.

(** [Scores] returns on every well-formed graph; the scores are those of
    the nodes visited by the upward traversal from the sentinel, the
    sentinel left out, put in order by a stable sort. *)
Lemma Scores_returns g :
  wf g ->
  let g1 := (childSentinel g).1 in
  exists ups scoredList,
    bftUp g1 (childSentinel g).2 = Done ups /\
    Forall2 (scored g1) ups scoredList /\
    NoDup (itemName <$> ups) /\
    (forall v, v ∈ itemName <$> ups <-> csName ∈ dom g1 /\ down g1 v csName) /\
    Scores g = Done (g1, gosort.SliceStable byScore
                           (filter (fun sn => Name sn ≠ csName) scoredList)).
Proof.
  intros Hwf g1.
  assert (Hwf1 : wf g1) by now apply (wf_childSentinel GetName).
  rewrite Scores_unfold. fold g1.
  rewrite (childSentinel_pointer GetName). fold g1. unfold getItem.
  destruct (g1 !! csName) as [sn|] eqn:Ecs.
  - assert (Hd : csName ∈ dom g1) by (apply elem_of_dom; eauto).
    destruct (bftUp_spec g1 csName Hwf1 Hd) as (ups & E & Hnd & Hmem & Hitems).
    destruct (mapOutcome_Forall2 (scoreOf GetName g1) (scored g1) ups) as (sl & Esl & HF).
    { intros t Ht. apply scoreOf_spec; [exact Hwf1|].
      destruct (Hitems t Ht) as (n & Hn & _). apply elem_of_dom. eauto. }
    exists ups, sl. rewrite E. simpl. rewrite Esl. simpl.
    split; [reflexivity|]. split; [exact HF|]. split; [exact Hnd|].
    split; [|reflexivity].
    intros v. rewrite Hmem. tauto.
  - exists [], []. unfold scheduler_graph.bftUp, bftFuel.
    rewrite bft_from_nil. simpl.
    split; [reflexivity|]. split; [constructor|]. split; [constructor|].
    split; [|reflexivity].
    intros v. split; [intros Hin; inversion Hin|].
    intros [Hd _]. apply elem_of_dom in Hd. rewrite Ecs in Hd. now destruct Hd.
Qed.

Lemma byScore_ordered (l : list scoreName) :
  StronglySorted (fun x y : scoreName => Score y <= Score x)
    (gosort.SliceStable byScore l).
Proof.
  assert (H : gosort.ordered byScore (gosort.SliceStable byScore l)).
  { apply gosort.SliceStable_ordered.
    - intros x y z. unfold byScore. rewrite !Z.ltb_ge. lia.
    - intros x y. unfold byScore. rewrite Z.ltb_lt, Z.ltb_ge. lia. }
  unfold gosort.ordered in H.
  induction H as [|x r Hr IH Hx]; constructor; [exact IH|].
  eapply Forall_impl; [exact Hx|].
  intros y Hy. unfold byScore in Hy. now apply Z.ltb_ge in Hy.
Qed.

Lemma byScore_stable (s : Z) (l : list scoreName) :
  filter (fun sn => Score sn = s) (gosort.SliceStable byScore l)
  = filter (fun sn => Score sn = s) l.
Proof.
  apply gosort.SliceStable_stable.
  intros x y Hx Hy. unfold byScore. rewrite Hx, Hy. apply Z.ltb_irrefl.
Qed.

End ScoresFacts.

(** ** Graphs without cycles *)

Section Acyclic.

Context {T : Type}.
Variable GetName : T -> string.

Implicit Types (g : Graph T) (k a b name v : string).

(** No node is its own descendant. *)
Definition acyclic g : Prop :=
  forall a, ~ tc (fun a b => b ∈ childrenOf g a) a a.

Lemma acyclic_reaches_leaf g :
  wf GetName g -> acyclic g ->
  forall name, name ∈ dom g ->
    exists leaf, leaf ∈ leaves g /\ reaches children g name leaf.
Proof.
  intros Hwf Hac.
  assert (G : forall m (P : gset string) name,
    (size (dom g ∖ P) <= m)%nat -> name ∈ dom g ->
    (forall p, p ∈ P -> tc (fun a b => b ∈ childrenOf g a) p name) ->
    exists leaf, leaf ∈ leaves g /\ reaches children g name leaf).
  { induction m as [|m IH]; intros P name Hsz Hd HP.
    - exfalso.
      assert (HnP : name ∉ P) by (intros Hin; exact (Hac name (HP name Hin))).
      assert (Hsub : {[name]} ⊆ dom g ∖ P) by set_solver.
      apply subseteq_size in Hsub. rewrite size_singleton in Hsub. lia.
    - destruct (decide (childrenOf g name = ∅)) as [Hleaf|Hch].
      + exists name. split; [now apply elem_of_leaves | reflexivity].
      + apply set_choose_L in Hch as [c Hc].
        assert (HnP : name ∉ P) by (intros Hin; exact (Hac name (HP name Hin))).
        destruct (IH ({[name]} ∪ P) c) as (leaf & Hl & Hr).
        * assert (Hsub : dom g ∖ ({[name]} ∪ P) ⊂ dom g ∖ P) by set_solver.
          apply subset_size in Hsub. lia.
        * eapply (wf_child_in_dom GetName); [exact Hwf | exact Hc].
        * intros p Hp. apply elem_of_union in Hp as [Hp|Hp].
          -- apply elem_of_singleton in Hp as ->. now apply tc_once.
          -- eapply tc_r; [apply HP, Hp | exact Hc].
        * exists leaf. split; [exact Hl|]. eapply rtc_l; [exact Hc | exact Hr]. }
  intros name Hd. apply (G (size (dom g)) ∅ name); [|exact Hd|set_solver].
  apply subseteq_size. set_solver.
Qed.

End Acyclic.

(** ** What Scores returns *)

Section ScoresTheorem.

Context {T : Type}.
Variable GetName : T -> string.

Abbreviation itemName := (itemName GetName).
Abbreviation wf := (wf GetName).
Abbreviation childSentinel := (childSentinel GetName).
Abbreviation Scores := (Scores GetName).
Abbreviation bftUp := (bftUp GetName).
Abbreviation down g := (reaches children g).

Implicit Types (g : Graph T) (k name v : string).

Lemma fmap_Name_filter (c : string) (l : list scoreName) :
  Name <$> filter (fun sn => Name sn ≠ c) l
  = filter (fun name => name ≠ c) (Name <$> l).
Proof.
  induction l as [|sn l IH]; [reflexivity|].
  rewrite fmap_cons, !filter_cons.
  destruct (decide (Name sn ≠ c)); rewrite ?fmap_cons, IH; reflexivity.
Qed.

(** The names reported by [Scores], for a graph without the sentinel:
    the nodes from which a childless node can be reached. *)
Lemma Scores_names g (ups : list (Item T)) (sl : list scoreName) name :
  wf g -> g !! csName = None ->
  Forall2 (scored GetName (childSentinel g).1) ups sl ->
  (forall v, v ∈ itemName <$> ups <->
     csName ∈ dom (childSentinel g).1 /\ down (childSentinel g).1 v csName) ->
  name ∈ Name <$> gosort.SliceStable byScore (filter (fun sn => Name sn ≠ csName) sl)
  <-> name ∈ dom g /\ exists leaf, leaf ∈ leaves g /\ down g name leaf.
Proof.
  intros Hwf Hfresh HF Hmem.
  assert (Hwf1 : wf (childSentinel g).1) by now apply (wf_childSentinel GetName).
  rewrite (gosort.SliceStable_Permutation byScore).
  rewrite fmap_Name_filter, list_elem_of_filter.
  rewrite <- (Forall2_fmap_eq _ itemName Name ups sl (fun x y H => eq_sym (proj1 H)) HF).
  rewrite Hmem. split.
  - intros (Hne & _ & Hdown).
    apply (down_fresh_sentinel GetName g Hwf Hfresh name Hne) in Hdown
      as (leaf & Hl & Hr).
    split; [|eauto].
    apply rtc_inv in Hr as [->|(y & Hy & _)].
    + now apply elem_of_leaves in Hl as [? _].
    + eapply childrenOf_dom, Hy.
  - intros (Hd & leaf & Hl & Hr).
    assert (Hne : name ≠ csName) by (eapply fresh_not_key; eassumption).
    assert (Hdown : down (childSentinel g).1 name csName).
    { apply (down_fresh_sentinel GetName g Hwf Hfresh name Hne). eauto. }
    split; [exact Hne|]. split; [|exact Hdown].
    apply rtc_inv_r in Hdown as [Heq|(y & _ & Hy)]; [congruence|].
    eapply (wf_child_in_dom GetName); [exact Hwf1 | exact Hy].
Qed.

(** C6, amended.  For every well-formed graph that does not yet hold the
    sentinel, [Scores] returns, and it returns one pair for every node
    from which a childless node can be reached (every node when the graph
    has no cycle) and for no other name; the score of a node is the
    number of its descendants other than itself; the list is sorted by
    score descending, nodes of equal score standing in the order in which
    the bottom-up breadth-first traversal visited them; the sentinel is
    not in the list. *)
Theorem Scores_counts_descendants g :
  wf g -> g !! csName = None ->
  exists (g1 : Graph T) (ups : list (Item T)) (visits res : list scoreName),
    Scores g = Done (g1, res) /\
    NoDup (Name <$> res) /\
    (forall name, name ∈ Name <$> res <->
       name ∈ dom g /\ exists leaf, leaf ∈ leaves g /\ down g name leaf) /\
    (acyclic g -> forall name, name ∈ dom g -> name ∈ Name <$> res) /\
    (forall sn, sn ∈ res ->
       exists D : gset string,
         (forall v, v ∈ D <-> v ≠ Name sn /\ down g (Name sn) v) /\
         Score sn = Z.of_nat (size D)) /\
    StronglySorted (fun x y : scoreName => Score y <= Score x) res /\
    (bftUp g1 (childSentinel g).2 = Done ups /\
     Name <$> visits = filter (fun name => name ≠ csName) (itemName <$> ups) /\
     res ≡ₚ visits /\
     forall s, filter (fun sn => Score sn = s) res
               = filter (fun sn => Score sn = s) visits) /\
    csName ∉ Name <$> res.
Proof.
  intros Hwf Hfresh.
  destruct (Scores_returns GetName g Hwf) as (ups & sl & Eup & HF & Hnd & Hmem & E).
  set (g1 := (childSentinel g).1) in *.
  set (visits := filter (fun sn => Name sn ≠ csName) sl) in *.
  exists g1, ups, visits, (gosort.SliceStable byScore visits).
  pose proof (fun name => Scores_names g ups sl name Hwf Hfresh HF Hmem) as Hnames.
  fold visits in Hnames.
  assert (HN : itemName <$> ups = Name <$> sl).
  { apply (Forall2_fmap_eq (scored GetName g1)); [|exact HF]. intros x y H. symmetry. apply H. }
  split; [exact E|].
  split.
  { rewrite (gosort.SliceStable_Permutation byScore).
    eapply sublist_NoDup; [|apply fmap_sublist, sublist_filter].
    now rewrite <- HN. }
  split; [exact Hnames|].
  split.
  { intros Hac name Hd. apply Hnames. split; [exact Hd|].
    now apply (acyclic_reaches_leaf GetName). }
  split.
  { intros sn Hsn.
    assert (Hin : Name sn ∈ Name <$> gosort.SliceStable byScore visits)
      by now apply list_elem_of_fmap_2.
    apply Hnames in Hin as (Hd & leaf & Hl & Hr).
    assert (Hne : Name sn ≠ csName) by (eapply fresh_not_key; eassumption).
    apply gosort.SliceStable_elem_of, list_elem_of_filter in Hsn as [_ Hsn].
    destruct (Forall2_elem_of_r _ _ _ _ HF Hsn) as (t & Ht & Hname & D1 & HD1 & Hscore).
    rewrite <- Hname in HD1.
    assert (Hself : Name sn ∈ D1) by (apply HD1; reflexivity).
    assert (Hcs : csName ∈ D1).
    { apply HD1. apply (down_fresh_sentinel GetName g Hwf Hfresh _ Hne). eauto. }
    exists (D1 ∖ {[Name sn; csName]}). split.
    - intros v. rewrite elem_of_difference, HD1. split.
      + intros [Hv Hnot]. split; [set_solver|].
        apply (down_fresh_inv GetName g Hwf Hfresh); [exact Hne | set_solver | exact Hv].
      + intros [Hvn Hv]. split; [now apply (down_fresh_mono GetName g Hwf Hfresh)|].
        assert (Hvd : v ∈ dom g) by (eapply (down_in_dom GetName); eassumption).
        assert (v ≠ csName) by (eapply fresh_not_key; eassumption).
        set_solver.
    - rewrite Hscore, size_difference by set_solver.
      rewrite size_union by set_solver. rewrite !size_singleton.
      assert (Hsz : ({[Name sn; csName]} : gset string) ⊆ D1) by set_solver.
      apply subseteq_size in Hsz.
      rewrite size_union in Hsz by set_solver. rewrite !size_singleton in Hsz.
      lia. }
  split; [apply byScore_ordered|].
  split.
  { split; [exact Eup|]. split; [|split].
    - unfold visits. now rewrite fmap_Name_filter, HN.
    - apply gosort.SliceStable_Permutation.
    - intros s. apply byScore_stable. }
  intros Hin. apply Hnames in Hin as [Hd _].
  eapply fresh_not_key; [exact Hfresh | exact Hd | reflexivity].
Qed.

End ScoresTheorem.

(** ** Ready items *)

Section ReadyFacts.

Context {T : Type}.
Variable GetName : T -> string.

Abbreviation itemName := (itemName GetName).
Abbreviation wf := (wf GetName).
Abbreviation childSentinel := (childSentinel GetName).
Abbreviation Scores := (Scores GetName).
Abbreviation ReadyItems := (ReadyItems GetName).

Implicit Types (g : Graph T) (k name v : string).

Lemma Scores_Done g g1 (res : list scoreName) :
  Scores g = Done (g1, res) ->
  g1 = (childSentinel g).1 /\ forall sn, sn ∈ res -> Name sn ≠ csName.
Proof.
  rewrite (Scores_unfold GetName).
  destruct (bftUp GetName _ _) as [ups| |]; simpl; try discriminate.
  destruct (mapOutcome _ ups) as [sl| |]; simpl; try discriminate.
  intros [= <- <-]. split; [reflexivity|].
  intros sn Hsn.
  apply gosort.SliceStable_elem_of, list_elem_of_filter in Hsn. tauto.
Qed.

Lemma readyOf_Done g (scores : list scoreName) (ready : list (Item T)) :
  readyOf g scores = Done ready ->
  forall it, it ∈ ready ->
    exists sn n, sn ∈ scores /\ g !! Name sn = Some n /\ nItem n = it /\ parents n = ∅.
Proof.
  revert ready. induction scores as [|sn rest IH]; simpl; intros ready H it Hit.
  - injection H as <-. inversion Hit.
  - destruct (g !! Name sn) as [n|] eqn:En; [|discriminate].
    destruct (readyOf g rest) as [r| |]; simpl in H; try discriminate.
    injection H as <-.
    destruct (size (parents n) =? 0)%nat eqn:Esz.
    + apply elem_of_cons in Hit as [->|Hit].
      * exists sn, n. split; [now left|]. repeat split; try assumption.
        apply Nat.eqb_eq in Esz. apply size_empty_iff in Esz. now apply leibniz_equiv.
      * destruct (IH r eq_refl it Hit) as (sn' & n' & ? & ?).
        exists sn', n'. split; [now right | assumption].
    + destruct (IH r eq_refl it Hit) as (sn' & n' & ? & ?).
      exists sn', n'. split; [now right | assumption].
Qed.

(** Every ready item is the item of a node of the graph that has no
    parent, and is not the sentinel. *)
Lemma ReadyItems_no_parents g g1 (ready : list (Item T)) (err : option string) :
  wf g -> ReadyItems g = Done (g1, ready, err) ->
  forall it, it ∈ ready ->
    itemName it ≠ csName /\
    exists n, g !! itemName it = Some n /\ nItem n = it /\ parents n = ∅.
Proof.
  intros Hwf H it Hit. unfold scheduler_graph.ReadyItems in H.
  destruct (scheduler_graph.Scores GetName g) as [[g' scores]| |] eqn:Es;
    simpl in H; try discriminate.
  destruct (readyOf g' scores) as [r| |] eqn:Er; simpl in H; try discriminate.
  injection H as <- <- <-.
  destruct (Scores_Done g g' scores Es) as [-> Hne].
  destruct (readyOf_Done _ _ _ Er it Hit) as (sn & n1 & Hsn & Hn1 & Hitem & Hpar).
  pose proof (wf_key _ _ (wf_childSentinel GetName g Hwf) _ _ Hn1) as Hk.
  rewrite Hitem in Hk. rewrite Hk.
  specialize (Hne sn Hsn). split; [exact Hne|].
  destruct (childSentinel_keeps GetName g (Name sn) (wf_key _ _ Hwf) Hne) as [Hi Hp].
  unfold itemOf, parentsOf in Hi, Hp. rewrite Hn1 in Hi, Hp.
  destruct (g !! Name sn) as [n|]; [|discriminate].
  exists n. simpl in Hi. injection Hi as Hi.
  split; [reflexivity|]. split; congruence.
Qed.

End ReadyFacts.

(** ** The tests with a cycle, and the loop of [Test_graph_cycle] *)

(** [for _, t := range ready { g.RemoveItem(t.GetName()) }]. *)
Definition removeAll (g : Graph string) (ready : list (Item string)) : Graph string :=
  foldl (fun g' t => (RemoveItem g' (itemName id t)).1) g ready.

(** The loop of [Test_graph_cycle]: take the ready items and remove them,
    for as long as there are some and no error; the error of the last
    call of [ReadyItems] is returned, with the graph. *)
Fixpoint takeReadyThenRemove (fuel : nat) (g : Graph string)
  : outcome (Graph string * option string) :=
  '(g1, ready, err) ← ReadyItems id g;
  match fuel with
  | O => OutOfFuel
  | S fuel' =>
      if (0 <? length ready)%nat && bool_decide (err = None)
      then takeReadyThenRemove fuel' (removeAll g1 ready)
      else Done (g1, err)
  end.

Definition errorOf (o : outcome (Graph string * option string)) : option (option string) :=
  match o with
  | Done (_, e) => Some e
  | _ => None
  end.

(** [makeGraph] with the edge from g31 to g00 of the tests. *)
Definition makeCycle : Graph string := relate "g31" "g00" makeGraph.

Example Test_graph_cycle :
  errorOf (takeReadyThenRemove 10 makeCycle) = Some (Some "Cycle detected.").
Proof. vm_compute. reflexivity. Qed.

(** Two nodes related to each other, and one node related to itself. *)
Definition twoCycle : Graph string := relate "a" "b" (relate "b" "a" NewGraph).
Definition selfLoop : Graph string := relate "a" "a" NewGraph.

Lemma wf_relate parent child (g : Graph string) : wf id g -> wf id (relate parent child g).
Proof. apply wf_Relate. Qed.

(** C6, as the specification states it, fails: the two nodes of
    [twoCycle] are nodes of a well-formed graph without the sentinel, and
    [Scores] returns no pair at all. *)
Lemma Scores_omits_nodes_on_cycles :
  scoresOf twoCycle = Some [] /\
  dom twoCycle = {["a"; "b"]} /\
  wf id twoCycle /\
  twoCycle !! csName = None.
Proof.
  split; [vm_compute; reflexivity|].
  split; [unfold twoCycle, relate; rewrite !Relate_dom; set_solver|].
  split; [repeat apply wf_relate; apply wf_NewGraph|].
  vm_compute. reflexivity.
Qed.

Lemma Scores_counts_descendants_witness :
  wf id makeGraph /\ makeGraph !! csName = None /\
  exists (g1 : Graph string) (res : list scoreName),
    Scores id makeGraph = Done (g1, res) /\
    NoDup (Name <$> res) /\
    StronglySorted (fun x y : scoreName => Score y <= Score x) res /\
    csName ∉ Name <$> res.
Proof.
  assert (Hwf : wf id makeGraph) by (repeat apply wf_relate; apply wf_NewGraph).
  assert (Hfresh : makeGraph !! csName = None) by (vm_compute; reflexivity).
  split; [exact Hwf|]. split; [exact Hfresh|].
  destruct (Scores_counts_descendants id makeGraph Hwf Hfresh)
    as (g1 & ups & visits & res & E & Hnd & _ & _ & _ & Hsorted & _ & Hcs).
  exists g1, res. repeat split; assumption.
Defined.

(** C3 at the graph of one node related to itself: [ReadyItems] returns no
    item and no error, and leaves the graph as it was, so taking the ready
    items and removing them never ends in the cycle error, however often
    it is repeated. *)
Lemma ReadyItems_self_loop_no_error :
  ReadyItems id selfLoop = Done (selfLoop, [], None) /\
  (forall n : nat,
     Nat.iter n (fun g => match ReadyItems id g with
                          | Done (g1, ready, _) => removeAll g1 ready
                          | _ => g
                          end) selfLoop = selfLoop) /\
  (forall fuel : nat,
     errorOf (takeReadyThenRemove (S fuel) selfLoop) = Some None).
Proof.
  assert (E : ReadyItems id selfLoop = Done (selfLoop, [], None))
    by (vm_compute; reflexivity).
  split; [exact E|]. split.
  - induction n as [|n IH]; simpl; [reflexivity|]. rewrite IH, E. reflexivity.
  - intros fuel. simpl. rewrite E. reflexivity.
Qed.

(** ** The items of a graph *)

Section Items.

Context {T : Type}.
Variable GetName : T -> string.

(** A property of the items handed to [Relate] holds of the items stored. *)
Lemma Relate_items (P : Item T -> Prop) (g : Graph T) (parent : option (Item T))
    (child : Item T) :
  (forall k n, g !! k = Some n -> P (nItem n)) ->
  P child -> (forall p, parent = Some p -> P p) ->
  forall k n, Relate GetName g parent child !! k = Some n -> P (nItem n).
Proof.
  intros Hg Hc Hp k n H.
  assert (G : forall t g', (forall k n, g' !! k = Some n -> P (nItem n)) -> P t ->
            forall k n, addItem GetName g' t !! k = Some n -> P (nItem n)).
  { intros t g' Hg' Ht k' n'. rewrite addItem_lookup.
    destruct (g' !! k') as [n0|] eqn:E; [intros [= <-]; eauto|].
    case_decide; [intros [= <-]; exact Ht | discriminate]. }
  destruct parent as [p|].
  - assert (E : itemOf (Relate GetName g (Some p) child) k = Some (nItem n))
      by (unfold itemOf; now rewrite H).
    rewrite Relate_itemOf in E. unfold itemOf in E.
    destruct (addItem GetName (addItem GetName g child) p !! k) as [n'|] eqn:E';
      [|discriminate].
    injection E as <-. revert E'. apply G; [|now apply Hp]. now apply G.
  - revert H. rewrite Relate_nil. now apply G.
Qed.

Lemma Relate_parentsOf_mono (g : Graph T) (parent : option (Item T)) (child : Item T) a b :
  a ∈ parentsOf g b -> a ∈ parentsOf (Relate GetName g parent child) b.
Proof.
  destruct parent as [p|].
  - rewrite Relate_parentsOf. set_solver.
  - now rewrite Relate_nil, addItem_parentsOf.
Qed.

Lemma Relate_parentsOf_new (g : Graph T) (p child : Item T) :
  itemName GetName p ∈ parentsOf (Relate GetName g (Some p) child) (itemName GetName child).
Proof.
  rewrite Relate_parentsOf.
  destruct (decide (itemName GetName child = itemName GetName child)); set_solver.
Qed.

End Items.

(** ** ReadyItems returns *)

Section Total.

Context {T : Type}.
Variable GetName : T -> string.

Lemma up_in_dom (g : Graph T) a b :
  wf GetName g -> a ∈ dom g -> reaches parents g a b -> b ∈ dom g.
Proof.
  intros Hwf Ha. unfold reaches. induction 1 as [|x y z Hstep _ IH]; [exact Ha|].
  apply IH. eapply (wf_parent_in_dom GetName); [exact Hwf | exact Hstep].
Qed.

Lemma readyOf_returns (g : Graph T) (scores : list scoreName) :
  (forall sn, sn ∈ scores -> is_Some (g !! Name sn)) ->
  exists result, readyOf g scores = Done result.
Proof.
  induction scores as [|sn rest IH]; intros H; simpl; [eauto|].
  destruct (H sn) as [n ->]; [now left|].
  destruct IH as [result ->]; [intros sn' Hin; apply H; now right|].
  simpl. eauto.
Qed.

(** On a well-formed graph [ReadyItems] returns: the traversals end
    within their fuel, and every scored name is a node of the graph. *)
Lemma ReadyItems_returns (g : Graph T) :
  wf GetName g ->
  exists g1 ready err, ReadyItems GetName g = Done (g1, ready, err).
Proof.
  intros Hwf.
  destruct (Scores_returns GetName g Hwf) as (ups & sl & _ & HF & _ & Hmem & Es).
  unfold ReadyItems. rewrite Es. simpl.
  set (g1 := (childSentinel GetName g).1) in *.
  assert (Hwf1 : wf GetName g1) by now apply (wf_childSentinel GetName).
  destruct (readyOf_returns g1
              (gosort.SliceStable (byScore)
                 (filter (fun sn => Name sn ≠ csName) sl))) as [result ->].
  - intros sn Hsn. apply gosort.SliceStable_elem_of, list_elem_of_filter in Hsn as [_ Hsn].
    destruct (Forall2_elem_of_r _ _ _ _ HF Hsn) as (t & Ht & Hname & _).
    assert (Hv : itemName GetName t ∈ itemName GetName <$> ups)
      by (apply list_elem_of_fmap; eauto).
    apply Hmem in Hv as [Hcs Hdown].
    apply elem_of_dom. rewrite Hname.
    apply (up_in_dom g1 csName); [exact Hwf1 | exact Hcs |].
    now apply (up_down GetName).
  - simpl. eauto.
Qed.

End Total.

(** ** Relate and RemoveItem, as a caller sees them *)

Section Operations.

Context {T : Type}.
Variable GetName : T -> string.

Implicit Types (g : Graph T) (k a b name : string).

(** Two graphs with the same items and the same parent and child maps
    under every name are the same graph. *)
Lemma graph_eq g1 g2 :
  (forall k, itemOf g1 k = itemOf g2 k) ->
  (forall k, parentsOf g1 k = parentsOf g2 k) ->
  (forall k, childrenOf g1 k = childrenOf g2 k) ->
  g1 = g2.
Proof.
  intros Hi Hp Hc. apply map_eq. intros k.
  specialize (Hi k). specialize (Hp k). specialize (Hc k).
  unfold itemOf, parentsOf, childrenOf in *.
  destruct (g1 !! k) as [[i1 c1 p1]|], (g2 !! k) as [[i2 c2 p2]|];
    simpl in *; congruence.
Qed.

Lemma addItem_present g (t : Item T) :
  is_Some (g !! itemName GetName t) -> addItem GetName g t = g.
Proof. unfold addItem. now intros [n ->]. Qed.

Lemma Relate_present g (p c : Item T) :
  is_Some (Relate GetName g (Some p) c !! itemName GetName c) /\
  is_Some (Relate GetName g (Some p) c !! itemName GetName p).
Proof.
  rewrite <- !elem_of_dom, (Relate_dom GetName). set_solver.
Qed.

(** X1.  [Relate(parent, child)] adds the two nodes when they are
    missing and exactly one edge, in both directions: from the child up
    to the parent and from the parent down to the child.  Nodes that
    exist keep their items, so the first item entered under a name stays;
    a well-formed graph stays well-formed; relating the same pair again
    changes nothing. *)
Theorem Relate_adds_one_edge g (p c : Item T) :
  dom (Relate GetName g (Some p) c)
  = {[itemName GetName c; itemName GetName p]} ∪ dom g /\
  (forall a b, a ∈ parentsOf (Relate GetName g (Some p) c) b <->
     a ∈ parentsOf g b \/ (a = itemName GetName p /\ b = itemName GetName c)) /\
  (forall a b, b ∈ childrenOf (Relate GetName g (Some p) c) a <->
     b ∈ childrenOf g a \/ (a = itemName GetName p /\ b = itemName GetName c)) /\
  (forall k n, g !! k = Some n ->
     itemOf (Relate GetName g (Some p) c) k = Some (nItem n)) /\
  (wf GetName g -> wf GetName (Relate GetName g (Some p) c)) /\
  Relate GetName (Relate GetName g (Some p) c) (Some p) c
  = Relate GetName g (Some p) c.
Proof.
  assert (Hpar : forall g0 a b, a ∈ parentsOf (Relate GetName g0 (Some p) c) b <->
            a ∈ parentsOf g0 b \/ (a = itemName GetName p /\ b = itemName GetName c)).
  { intros g0 a b. rewrite (Relate_parentsOf GetName), elem_of_union.
    destruct (decide (b = itemName GetName c)) as [->|Hne]; set_solver. }
  assert (Hch : forall g0 a b, b ∈ childrenOf (Relate GetName g0 (Some p) c) a <->
            b ∈ childrenOf g0 a \/ (a = itemName GetName p /\ b = itemName GetName c)).
  { intros g0 a b. rewrite (Relate_childrenOf GetName), elem_of_union.
    destruct (decide (a = itemName GetName p)) as [->|Hne]; set_solver. }
  split; [apply Relate_dom|]. split; [apply Hpar|]. split; [apply Hch|].
  split; [|split; [apply wf_Relate|]].
  - intros k n Hk. rewrite (Relate_itemOf GetName). unfold itemOf.
    rewrite !(addItem_lookup GetName), Hk. reflexivity.
  - destruct (Relate_present g p c) as [Hc Hp].
    apply graph_eq.
    + intros k. rewrite (Relate_itemOf GetName).
      now rewrite (addItem_present _ c Hc), (addItem_present _ p Hp).
    + intros k. apply set_eq. intros a. rewrite Hpar, Hpar. tauto.
    + intros k. apply set_eq. intros b. rewrite Hch, Hch. tauto.
Qed.

Lemma foldr_alter_lookup (f : node T -> node T) (l : list string) g k :
  NoDup l ->
  foldr (fun c g' => alter f c g') g l !! k
  = if decide (k ∈ l) then f <$> g !! k else g !! k.
Proof.
  induction 1 as [|x l Hx Hnd IH]; simpl.
  { destruct (decide (k ∈ [])) as [H|_]; [inversion H | reflexivity]. }
  destruct (decide (x = k)) as [->|Hne].
  - rewrite lookup_alter_eq, IH.
    destruct (decide (k ∈ l)) as [Hin|_]; [contradiction|].
    destruct (decide (k ∈ k :: l)) as [_|Hn]; [reflexivity|].
    exfalso. apply Hn. now left.
  - rewrite lookup_alter_ne by exact Hne. rewrite IH.
    destruct (decide (k ∈ l)) as [Hin|Hnin], (decide (k ∈ x :: l)) as [Hin'|Hnin'];
      try reflexivity; exfalso.
    + apply Hnin'. now right.
    + apply elem_of_cons in Hin' as [->|Hin']; [now apply Hne | contradiction].
Qed.

Lemma RemoveItem_lookup g name n k :
  g !! name = Some n -> parents n = ∅ ->
  (RemoveItem g name).1 !! k
  = if decide (k = name) then None
    else if decide (k ∈ children n) then delParent name <$> g !! k else g !! k.
Proof.
  intros Hn Hp. unfold RemoveItem. rewrite Hn, Hp, size_empty. simpl.
  destruct (decide (k = name)) as [->|Hne]; [apply lookup_delete_eq|].
  rewrite lookup_delete_ne by congruence.
  rewrite foldr_alter_lookup by apply NoDup_elements.
  destruct (decide (k ∈ elements (children n))) as [H|H],
           (decide (k ∈ children n)) as [H'|H']; try reflexivity;
    exfalso; rewrite elem_of_elements in H; contradiction.
Qed.

(** X2.  [RemoveItem(name)] does nothing and returns nil for a name that
    is not in the graph; it refuses, with the graph unchanged, a node
    that has parents; and for a node without parents it returns nil,
    deletes the node and takes its name out of the parent map of each of
    its children, every other node keeping its item, its children and
    its other parents.  A well-formed graph stays well-formed, and no
    node of it has the removed name as a parent any more. *)
Theorem RemoveItem_removes_parentless_node g name :
  (g !! name = None -> RemoveItem g name = (g, None)) /\
  (forall n, g !! name = Some n -> parents n <> ∅ ->
     RemoveItem g name = (g, Some "Node has parents, cannot be removed.")) /\
  (forall n, g !! name = Some n -> parents n = ∅ ->
     (RemoveItem g name).2 = None /\
     dom (RemoveItem g name).1 = dom g ∖ {[name]} /\
     (forall k, k <> name -> itemOf (RemoveItem g name).1 k = itemOf g k) /\
     (forall k, k <> name ->
        parentsOf (RemoveItem g name).1 k
        = if decide (k ∈ children n) then parentsOf g k ∖ {[name]} else parentsOf g k) /\
     (forall k, k <> name -> childrenOf (RemoveItem g name).1 k = childrenOf g k) /\
     (wf GetName g ->
      wf GetName (RemoveItem g name).1 /\
      forall k, name ∉ parentsOf (RemoveItem g name).1 k)).
Proof.
  split; [|split].
  - intros H. unfold RemoveItem. now rewrite H.
  - intros n Hn Hp. unfold RemoveItem. rewrite Hn.
    destruct (size (parents n)) eqn:Es; [|reflexivity].
    apply size_empty_iff, leibniz_equiv in Es. contradiction.
  - intros n Hn Hp.
    pose proof (fun k => RemoveItem_lookup g name n k Hn Hp) as L.
    assert (Hpk : forall k, k <> name ->
              parentsOf (RemoveItem g name).1 k
              = if decide (k ∈ children n) then parentsOf g k ∖ {[name]} else parentsOf g k).
    { intros k Hk. unfold parentsOf. rewrite L.
      destruct (decide (k = name)) as [|_]; [contradiction|].
      destruct (decide (k ∈ children n)); [|reflexivity].
      destruct (g !! k); simpl; [reflexivity | set_solver]. }
    assert (Hck : forall k, k <> name ->
              childrenOf (RemoveItem g name).1 k = childrenOf g k).
    { intros k Hk. unfold childrenOf. rewrite L.
      destruct (decide (k = name)) as [|_]; [contradiction|].
      destruct (decide (k ∈ children n)); [|reflexivity].
      now destruct (g !! k). }
    assert (Hpn : parentsOf (RemoveItem g name).1 name = ∅).
    { unfold parentsOf. rewrite L. now destruct (decide (name = name)). }
    assert (Hcn : childrenOf (RemoveItem g name).1 name = ∅).
    { unfold childrenOf. rewrite L. now destruct (decide (name = name)). }
    split; [unfold RemoveItem; now rewrite Hn, Hp, size_empty|].
    split; [|split; [|split; [exact Hpk|split; [exact Hck|]]]].
    + apply set_eq. intros k. rewrite elem_of_difference, !elem_of_dom, L.
      rewrite elem_of_singleton.
      destruct (decide (k = name)) as [->|Hne].
      * split; [intros [? ?]; discriminate | tauto].
      * destruct (decide (k ∈ children n)); rewrite ?fmap_is_Some; tauto.
    + intros k Hk. unfold itemOf. rewrite L.
      destruct (decide (k = name)) as [|_]; [contradiction|].
      destruct (decide (k ∈ children n)); [|reflexivity].
      now destruct (g !! k).
    + intros [Hkey Hs].
      assert (Hgp : parentsOf g name = ∅) by (unfold parentsOf; now rewrite Hn).
      assert (Hgc : childrenOf g name = children n) by (unfold childrenOf; now rewrite Hn).
      assert (Hno : forall k, name ∉ parentsOf (RemoveItem g name).1 k).
      { intros k. destruct (decide (k = name)) as [->|Hk]; [rewrite Hpn; set_solver|].
        rewrite (Hpk k Hk). destruct (decide (k ∈ children n)) as [|Hn']; [set_solver|].
        intros Hin. apply Hs in Hin. rewrite Hgc in Hin. contradiction. }
      split; [split|exact Hno].
      * intros k n'. rewrite L.
        destruct (decide (k = name)) as [|_]; [discriminate|].
        destruct (decide (k ∈ children n)).
        -- destruct (g !! k) as [n0|] eqn:Ek; simpl; [|discriminate].
           intros [= <-]. simpl. now apply Hkey.
        -- apply Hkey.
      * intros a b.
        destruct (decide (b = name)) as [->|Hb].
        { rewrite Hpn. split; [set_solver|]. intros Hin. exfalso.
          destruct (decide (a = name)) as [->|Ha]; [rewrite Hcn in Hin; set_solver|].
          rewrite (Hck a Ha) in Hin. apply Hs in Hin. rewrite Hgp in Hin. set_solver. }
        destruct (decide (a = name)) as [->|Ha].
        { rewrite Hcn. split; [|set_solver]. intros Hin. exfalso. exact (Hno b Hin). }
        rewrite (Hpk b Hb), (Hck a Ha), <- Hs.
        destruct (decide (b ∈ children n)); set_solver.
Qed.

End Operations.
(** ** ReadyItems, as a caller sees it *)

Section Ready.

Context {T : Type}.
Variable GetName : T -> string.

Implicit Types (g : Graph T) (k a b name : string).

Lemma readyOf_elem_of g (scores : list scoreName) (ready : list (Item T)) :
  readyOf g scores = Done ready ->
  forall it, it ∈ ready <->
    exists sn n, sn ∈ scores /\ g !! Name sn = Some n /\ nItem n = it /\ parents n = ∅.
Proof.
  revert ready. induction scores as [|sn rest IH]; simpl; intros ready H it.
  { injection H as <-. split; [intros Hin; inversion Hin|].
    intros (sn & n & Hin & _). inversion Hin. }
  destruct (g !! Name sn) as [n|] eqn:En; [|discriminate].
  destruct (readyOf g rest) as [r| |] eqn:Er; simpl in H; try discriminate.
  injection H as <-. specialize (IH r eq_refl it).
  destruct (size (parents n) =? 0)%nat eqn:Es.
  - apply Nat.eqb_eq, size_empty_iff, leibniz_equiv in Es.
    rewrite elem_of_cons, IH. split.
    + intros [->|(sn' & n' & Hin & H)].
      * exists sn, n. split; [now left | auto].
      * exists sn', n'. split; [now right | exact H].
    + intros (sn' & n' & Hin & Hl & Hi & Hp).
      apply elem_of_cons in Hin as [->|Hin].
      * left. congruence.
      * right. exists sn', n'. auto.
  - rewrite IH. split.
    + intros (sn' & n' & Hin & H). exists sn', n'. split; [now right | exact H].
    + intros (sn' & n' & Hin & Hl & Hi & Hp).
      apply elem_of_cons in Hin as [->|Hin]; [|exists sn', n'; auto].
      exfalso. rewrite En in Hl. injection Hl as <-.
      rewrite Hp, size_empty in Es. discriminate.
Qed.

Lemma readyOf_names g (scores : list scoreName) (ready : list (Item T)) :
  (forall k n, g !! k = Some n -> itemName GetName (nItem n) = k) ->
  readyOf g scores = Done ready ->
  (itemName GetName <$> ready) `sublist_of` (Name <$> scores).
Proof.
  intros Hkey. revert ready. induction scores as [|sn rest IH]; simpl; intros ready H.
  { injection H as <-. constructor. }
  destruct (g !! Name sn) as [n|] eqn:En; [|discriminate].
  destruct (readyOf g rest) as [r| |] eqn:Er; simpl in H; try discriminate.
  injection H as <-. specialize (IH r eq_refl).
  destruct (size (parents n) =? 0)%nat.
  - rewrite fmap_cons, (Hkey _ _ En). now constructor.
  - now constructor.
Qed.

(** A node of a graph without cycles has an ancestor (itself, maybe)
    that has no parents. *)
Lemma acyclic_has_root g :
  wf GetName g -> acyclic g ->
  forall name, name ∈ dom g ->
    exists root, root ∈ dom g /\ parentsOf g root = ∅ /\ reaches parents g name root.
Proof.
  intros Hwf Hac.
  assert (G : forall m (P : gset string) name,
    (size (dom g ∖ P) <= m)%nat -> name ∈ dom g ->
    (forall p, p ∈ P -> tc (fun a b => b ∈ childrenOf g a) name p) ->
    exists root, root ∈ dom g /\ parentsOf g root = ∅ /\ reaches parents g name root).
  { induction m as [|m IH]; intros P name Hsz Hd HP.
    - exfalso.
      assert (HnP : name ∉ P) by (intros Hin; exact (Hac name (HP name Hin))).
      assert (Hsub : {[name]} ⊆ dom g ∖ P) by set_solver.
      apply subseteq_size in Hsub. rewrite size_singleton in Hsub. lia.
    - destruct (decide (parentsOf g name = ∅)) as [Hroot|Hpar].
      + exists name. split; [exact Hd|]. split; [exact Hroot | reflexivity].
      + apply set_choose_L in Hpar as [c Hc].
        assert (Hc' : name ∈ childrenOf g c) by now apply (wf_sym _ _ Hwf).
        assert (HnP : name ∉ P) by (intros Hin; exact (Hac name (HP name Hin))).
        destruct (IH ({[name]} ∪ P) c) as (root & Hr1 & Hr2 & Hr3).
        * assert (Hsub : dom g ∖ ({[name]} ∪ P) ⊂ dom g ∖ P) by set_solver.
          apply subset_size in Hsub. lia.
        * eapply (wf_parent_in_dom GetName); [exact Hwf | exact Hc].
        * intros p Hp. apply elem_of_union in Hp as [Hp|Hp].
          -- apply elem_of_singleton in Hp as ->. now apply tc_once.
          -- eapply tc_l; [exact Hc' | apply HP, Hp].
        * exists root. split; [exact Hr1|]. split; [exact Hr2|].
          eapply rtc_l; [exact Hc | exact Hr3]. }
  intros name Hd. apply (G (size (dom g)) ∅ name); [|exact Hd|set_solver].
  apply subseteq_size. set_solver.
Qed.

(** What [ReadyItems] returns on a well-formed graph, read off the graph
    it was given. *)
Lemma ReadyItems_spec g :
  wf GetName g ->
  exists (ready : list (Item T)) (scores : list scoreName),
    ReadyItems GetName g
    = Done ((childSentinel GetName g).1, ready,
            if (1 <? size (childSentinel GetName g).1)%nat && (length ready =? 0)%nat
            then Some "Cycle detected." else None) /\
    NoDup (itemName GetName <$> ready) /\
    (forall it, it ∈ ready <->
       itemName GetName it ∈ Name <$> scores /\
       exists n, g !! itemName GetName it = Some n /\ nItem n = it /\ parents n = ∅) /\
    (csName ∉ Name <$> scores) /\
    (g !! csName = None ->
     forall name, name ∈ Name <$> scores <->
       name ∈ dom g /\ exists leaf, leaf ∈ leaves g /\ reaches children g name leaf).
Proof.
  intros Hwf.
  destruct (Scores_returns GetName g Hwf) as (ups & sl & _ & HF & Hnd & Hmem & Es).
  set (g1 := (childSentinel GetName g).1) in *.
  set (scores := gosort.SliceStable byScore (filter (fun sn => Name sn ≠ csName) sl)) in *.
  assert (Hwf1 : wf GetName g1) by now apply (wf_childSentinel GetName).
  assert (Hcs : csName ∉ Name <$> scores).
  { intros Hin. apply list_elem_of_fmap in Hin as (sn & Hn & Hin).
    apply gosort.SliceStable_elem_of, list_elem_of_filter in Hin as [Hne _]. congruence. }
  assert (Hin1 : forall sn, sn ∈ scores -> Name sn ∈ dom g1 /\ Name sn ≠ csName).
  { intros sn Hsn. apply gosort.SliceStable_elem_of, list_elem_of_filter in Hsn as [Hne Hsn].
    split; [|exact Hne].
    destruct (Forall2_elem_of_r _ _ _ _ HF Hsn) as (t & Ht & Hname & _).
    assert (Hv : itemName GetName t ∈ itemName GetName <$> ups)
      by (apply list_elem_of_fmap; eauto).
    apply Hmem in Hv as [Hc Hdown]. rewrite Hname.
    apply (up_in_dom GetName g1 csName); [exact Hwf1 | exact Hc |].
    now apply (up_down GetName). }
  destruct (readyOf_returns g1 scores) as [ready Er].
  { intros sn Hsn. apply elem_of_dom. now apply Hin1. }
  exists ready, scores. split; [|split; [|split; [|split; [exact Hcs|]]]].
  - unfold ReadyItems. rewrite Es. simpl. fold g1. rewrite Er. reflexivity.
  - eapply sublist_NoDup;
      [|apply (readyOf_names g1 scores ready (wf_key _ _ Hwf1) Er)].
    unfold scores. rewrite (gosort.SliceStable_Permutation byScore).
    rewrite fmap_Name_filter. apply NoDup_filter.
    rewrite <- (Forall2_fmap_eq _ (itemName GetName) Name ups sl
                  (fun x y H => eq_sym (proj1 H)) HF).
    exact Hnd.
  - intros it. rewrite (readyOf_elem_of g1 scores ready Er). split.
    + intros (sn & n & Hsn & Hl & Hi & Hp).
      destruct (Hin1 sn Hsn) as [_ Hne].
      pose proof (wf_key _ _ Hwf1 _ _ Hl) as Hk. rewrite Hi in Hk.
      destruct (childSentinel_keeps GetName g (Name sn) (wf_key _ _ Hwf) Hne) as [Ki Kp].
      unfold itemOf, parentsOf in Ki, Kp. fold g1 in Ki, Kp. rewrite Hl in Ki, Kp.
      simpl in Ki. rewrite Hk. split; [apply list_elem_of_fmap; eauto|].
      destruct (g !! Name sn) as [n0|]; [|discriminate].
      injection Ki as Ki. exists n0. split; [reflexivity|]. split; congruence.
    + intros (Hname & n & Hl & Hi & Hp).
      apply list_elem_of_fmap in Hname as (sn & Hn & Hsn).
      destruct (Hin1 sn Hsn) as [Hd Hne]. rewrite <- Hn in Hd, Hne.
      destruct (childSentinel_keeps GetName g _ (wf_key _ _ Hwf) Hne) as [Ki Kp].
      unfold itemOf, parentsOf in Ki, Kp. fold g1 in Ki, Kp. rewrite Hl in Ki, Kp.
      apply elem_of_dom in Hd as [n1 Hn1]. rewrite Hn1 in Ki, Kp. simpl in Ki.
      exists sn, n1. rewrite <- Hn. split; [exact Hsn|]. split; [exact Hn1|].
      split; congruence.
  - intros Hfresh name. apply (Scores_names GetName g ups sl name Hwf Hfresh HF Hmem).
Qed.

End Ready.
Section ReadyTheorems.

Context {T : Type}.
Variable GetName : T -> string.

Implicit Types (g : Graph T) (k a b name : string).

(** X3.  On a well-formed graph [ReadyItems] returns (the traversals end,
    nothing panics).  The items returned are items of nodes of the graph
    that have no parents, each once and never the sentinel, and
    [RemoveItem] accepts every one of them; the error is "Cycle
    detected." exactly when nothing is ready although the graph, after
    the call, has more than one node, and nil otherwise. *)
Theorem ReadyItems_returns_removable_items g :
  wf GetName g ->
  exists (g1 : Graph T) (ready : list (Item T)) (err : option string),
    ReadyItems GetName g = Done (g1, ready, err) /\
    NoDup (itemName GetName <$> ready) /\
    (forall it, it ∈ ready ->
       itemName GetName it <> csName /\
       (exists n, g !! itemName GetName it = Some n /\ nItem n = it /\ parents n = ∅) /\
       (RemoveItem g1 (itemName GetName it)).2 = None) /\
    (err = Some "Cycle detected." <-> ready = [] /\ (1 < size g1)%nat) /\
    (err = None <-> ready <> [] \/ (size g1 <= 1)%nat).
Proof.
  intros Hwf.
  destruct (ReadyItems_spec GetName g Hwf) as (ready & scores & E & Hnd & Hmem & Hcs & _).
  set (g1 := (childSentinel GetName g).1) in *.
  eexists g1, ready, _. split; [exact E|]. split; [exact Hnd|]. split; [|split].
  - intros it Hit. apply Hmem in Hit as (Hname & n & Hn & Hi & Hp).
    assert (Hne : itemName GetName it <> csName) by (intros Heq; rewrite Heq in Hname; contradiction).
    split; [exact Hne|]. split; [eauto|].
    destruct (childSentinel_keeps GetName g _ (wf_key _ _ Hwf) Hne) as [Ki Kp].
    unfold itemOf, parentsOf in Ki, Kp. fold g1 in Ki, Kp. rewrite Hn in Ki, Kp.
    unfold RemoveItem. destruct (g1 !! itemName GetName it) as [n1|]; [|reflexivity].
    now rewrite Kp, Hp, size_empty.
  - destruct (1 <? size g1)%nat eqn:E1, ready as [|it r]; simpl;
      rewrite ?Nat.ltb_lt, ?Nat.ltb_ge in E1; split; try discriminate;
      try (intros [? ?]; discriminate || lia); auto.
  - destruct (1 <? size g1)%nat eqn:E1, ready as [|it r]; simpl;
      rewrite ?Nat.ltb_lt, ?Nat.ltb_ge in E1; split; try discriminate; auto;
      intros [?|?]; congruence || lia.
Qed.

(** X4.  On a well-formed graph without cycles (and without the sentinel
    yet) [ReadyItems] returns no error, and the items it returns are
    exactly the items of the nodes without parents; there is one at least
    unless the graph is empty. *)
Theorem ReadyItems_acyclic_returns_roots g :
  wf GetName g -> g !! csName = None -> acyclic g ->
  exists (g1 : Graph T) (ready : list (Item T)),
    ReadyItems GetName g = Done (g1, ready, None) /\
    (forall it, it ∈ ready <->
       exists n, g !! itemName GetName it = Some n /\ nItem n = it /\ parents n = ∅) /\
    (g <> ∅ -> ready <> []).
Proof.
  intros Hwf Hfresh Hac.
  destruct (ReadyItems_spec GetName g Hwf) as (ready & scores & E & _ & Hmem & _ & Hnames).
  specialize (Hnames Hfresh).
  set (g1 := (childSentinel GetName g).1) in *.
  assert (Hall : forall name, name ∈ dom g -> name ∈ Name <$> scores).
  { intros name Hd. apply Hnames. split; [exact Hd|].
    now apply (acyclic_reaches_leaf GetName g Hwf Hac). }
  assert (Hiff : forall it, it ∈ ready <->
            exists n, g !! itemName GetName it = Some n /\ nItem n = it /\ parents n = ∅).
  { intros it. rewrite Hmem. split; [tauto|].
    intros (n & Hn & H). split; [|eauto].
    apply Hall, elem_of_dom. eauto. }
  assert (Hne : g <> ∅ -> ready <> []).
  { intros Hg Hr. apply map_choose in Hg as (k & n & Hk).
    destruct (acyclic_has_root GetName g Hwf Hac k) as (root & Hd & Hp & _).
    { apply elem_of_dom. eauto. }
    apply elem_of_dom in Hd as [nr Hnr].
    assert (Hin : nItem nr ∈ ready).
    { apply Hiff. exists nr. rewrite (wf_key _ _ Hwf _ _ Hnr).
      split; [exact Hnr|]. split; [reflexivity|].
      unfold parentsOf in Hp. now rewrite Hnr in Hp. }
    rewrite Hr in Hin. inversion Hin. }
  exists g1, ready. split; [|split; [exact Hiff | exact Hne]].
  rewrite E. f_equal. f_equal.
  destruct ready as [|it r]; [|now rewrite andb_false_r].
  destruct (decide (g = ∅)) as [->|Hg]; [|now destruct (Hne Hg)].
  reflexivity.
Qed.

End ReadyTheorems.

Lemma tc_first_last {A} (R : relation A) (x z : A) :
  tc R x z -> (exists y, R x y) /\ (exists y, R y z).
Proof.
  induction 1 as [x z H|x y z H _ [_ IH]]; [eauto|].
  split; [eauto | exact IH].
Qed.

(** A graph of two tables, "b" made from "a". *)
Definition chain : Graph string := relate "a" "b" NewGraph.

Lemma chain_facts : wf id chain /\ chain !! csName = None /\ acyclic chain.
Proof.
  split; [apply wf_relate, wf_NewGraph|]. split; [vm_compute; reflexivity|].
  intros x H. apply tc_first_last in H as [[y Hy] [y' Hy']].
  unfold chain, relate in Hy, Hy'.
  rewrite (Relate_childrenOf id) in Hy, Hy'. cbn [itemName table id] in Hy, Hy'.
  unfold childrenOf, NewGraph in Hy, Hy'; rewrite lookup_empty in Hy, Hy'.
  destruct (decide (x = "a")) as [->|], (decide (y' = "a")) as [->|]; set_solver.
Qed.

Lemma ReadyItems_returns_removable_items_witness :
  exists (g1 : Graph string) (ready : list (Item string)) (err : option string),
    ReadyItems id makeGraph = Done (g1, ready, err) /\
    NoDup (itemName id <$> ready) /\
    (forall it, it ∈ ready ->
       itemName id it <> csName /\
       (exists n, makeGraph !! itemName id it = Some n /\ nItem n = it /\ parents n = ∅) /\
       (RemoveItem g1 (itemName id it)).2 = None) /\
    (err = Some "Cycle detected." <-> ready = [] /\ (1 < size g1)%nat) /\
    (err = None <-> ready <> [] \/ (size g1 <= 1)%nat).
Proof.
  apply (ReadyItems_returns_removable_items id makeGraph).
  repeat apply wf_relate. apply wf_NewGraph.
Defined.

Lemma ReadyItems_acyclic_returns_roots_witness :
  exists (g1 : Graph string) (ready : list (Item string)),
    ReadyItems id chain = Done (g1, ready, None) /\
    (forall it, it ∈ ready <->
       exists n, chain !! itemName id it = Some n /\ nItem n = it /\ parents n = ∅) /\
    (chain <> ∅ -> ready <> []).
Proof.
  apply (ReadyItems_acyclic_returns_roots id chain);
    [apply chain_facts | vm_compute; reflexivity | apply chain_facts].
Defined.

Section TraversalTheorems.

Context {T : Type}.
Variable GetName : T -> string.

Implicit Types (g : Graph T) (k a b name : string).

Lemma bft_head (next : node T -> gset string) g start n (visited : list (Item T)) :
  g !! start = Some n ->
  bft GetName next g (bftFuel next g) [Some start] ∅ = Done visited ->
  exists rest, visited = nItem n :: rest.
Proof.
  intros Hn. unfold bftFuel. cbn [bft].
  destruct (decide (start ∈ (∅ : gset string))) as [Hin|_]; [set_solver|].
  rewrite Hn.
  destruct (bft GetName next g _ _ _) as [rest| |]; simpl; try discriminate.
  intros [= <-]. eauto.
Qed.

(** X5.  On a well-formed graph the breadth-first traversals end and
    hand over the item of the start node first and then the item of every
    node that can be reached from it through the parent maps ([bftUp]) or
    the child maps ([bftDown]), each node once and no other node, also
    when the graph has cycles; from a nil start nothing is handed over. *)
Theorem bft_visits_reachable_nodes_once g start :
  wf GetName g -> start ∈ dom g ->
  (exists ups,
     bftUp GetName g (Some start) = Done ups /\
     NoDup (itemName GetName <$> ups) /\
     (forall v, v ∈ itemName GetName <$> ups <-> reaches parents g start v) /\
     (forall it, it ∈ ups -> exists n, g !! itemName GetName it = Some n /\ nItem n = it) /\
     itemName GetName <$> head ups = Some start) /\
  (exists downs,
     bftDown GetName g (Some start) = Done downs /\
     NoDup (itemName GetName <$> downs) /\
     (forall v, v ∈ itemName GetName <$> downs <-> reaches children g start v) /\
     (forall it, it ∈ downs -> exists n, g !! itemName GetName it = Some n /\ nItem n = it) /\
     itemName GetName <$> head downs = Some start) /\
  bftUp GetName g None = Done [] /\
  bftDown GetName g None = Done [].
Proof.
  intros Hwf Hs.
  assert (G : forall next : node T -> gset string,
            (forall a b, b ∈ nextOf next g a -> b ∈ dom g) ->
            exists visited,
              bft GetName next g (bftFuel next g) [Some start] ∅ = Done visited /\
              NoDup (itemName GetName <$> visited) /\
              (forall v, v ∈ itemName GetName <$> visited <-> reaches next g start v) /\
              (forall it, it ∈ visited ->
                 exists n, g !! itemName GetName it = Some n /\ nItem n = it) /\
              itemName GetName <$> head visited = Some start).
  { intros next Hclosed.
    destruct (bft_from_start GetName next g start (wf_key _ _ Hwf) Hclosed Hs)
      as (visited & E & H1 & H2 & H3).
    exists visited. repeat (split; [assumption|]).
    apply elem_of_dom in Hs as [n Hn].
    destruct (bft_head next g start n visited Hn E) as [rest ->].
    simpl. now rewrite (wf_key _ _ Hwf _ _ Hn). }
  split; [|split; [|split]].
  - apply G. intros a b Hb. eapply (wf_parent_in_dom GetName); [exact Hwf | exact Hb].
  - apply G. intros a b Hb. eapply (wf_child_in_dom GetName); [exact Hwf | exact Hb].
  - apply bft_from_nil.
  - apply bft_from_nil.
Qed.

End TraversalTheorems.

Lemma bft_visits_reachable_nodes_once_witness :
  exists downs,
    bftDown id makeGraph (Some "g00") = Done downs /\
    NoDup (itemName id <$> downs) /\
    itemName id <$> head downs = Some "g00".
Proof.
  destruct (bft_visits_reachable_nodes_once id makeGraph "g00")
    as (_ & (downs & E & Hnd & _ & _ & Hh) & _).
  - repeat apply wf_relate. apply wf_NewGraph.
  - vm_compute. reflexivity.
  - exists downs. auto.
Defined.

Section SentinelTheorems.

Context {T : Type}.
Variable GetName : T -> string.

Implicit Types (g : Graph T) (k a b name : string).

(** X6.  [sortedNodes] returns four entries per entry of the map it is
    given: the first two in each four are nil, the third is nil too, or
    the sentinel when the empty name is a key of the map, and only then
    come the nodes of the map, each once, by increasing name. *)
Theorem sortedNodes_padding_then_sorted (s : gset string) :
  sortedNodes s
  = replicate (2 * size s) None
    ++ replicate (size s) (if decide ("" ∈ s) then Some "" else None)
    ++ (Some <$> gosort.Strings (elements s)) /\
  gosort.Strings (elements s) ≡ₚ elements s /\
  StronglySorted (fun a b => String.ltb a b = true) (gosort.Strings (elements s)) /\
  length (sortedNodes s) = (4 * size s)%nat.
Proof.
  split; [|split; [apply gosort.SliceStable_Permutation|split]].
  - unfold sortedNodes. rewrite gosort.Strings_empty_first.
    rewrite length_app, length_replicate, gosort.Strings_length.
    change (length (elements s)) with (size s).
    replace (size s + size s)%nat with (2 * size s)%nat by lia.
    f_equal. rewrite fmap_app, fmap_replicate. f_equal.
    apply list_fmap_ext. intros i x Hx.
    apply list_elem_of_lookup_2, gosort.Strings_elem_of, elem_of_elements in Hx.
    now destruct (decide (x ∈ s)).
  - apply gosort.Strings_increasing, NoDup_elements.
  - apply sortedNodes_length.
Qed.

(** X7.  On a well-formed graph that does not hold the sentinel yet,
    [childSentinel] hangs the sentinel under every node that has no
    children and under no other: the parents of the sentinel are those
    nodes, each of them gains the sentinel as its only child, and no
    other item, parent or child changes.  No sentinel is made (and nil
    is returned) when every node has children.  The graph stays
    well-formed, and a second call changes nothing. *)
Theorem childSentinel_hangs_under_leaves g :
  wf GetName g -> g !! csName = None ->
  wf GetName (childSentinel GetName g).1 /\
  (childSentinel GetName g).2 = (if decide (leaves g = ∅) then None else Some csName) /\
  dom (childSentinel GetName g).1
  = dom g ∪ (if decide (leaves g = ∅) then ∅ else {[csName]}) /\
  parentsOf (childSentinel GetName g).1 csName = leaves g /\
  childrenOf (childSentinel GetName g).1 csName = ∅ /\
  (forall k, k <> csName ->
     itemOf (childSentinel GetName g).1 k = itemOf g k /\
     parentsOf (childSentinel GetName g).1 k = parentsOf g k /\
     childrenOf (childSentinel GetName g).1 k
     = if decide (k ∈ leaves g) then {[csName]} else childrenOf g k) /\
  childSentinel GetName (childSentinel GetName g).1 = childSentinel GetName g.
Proof.
  intros Hwf Hfresh.
  pose proof (wf_key _ _ Hwf) as Hkey.
  destruct (childSentinel_fresh GetName g Hkey Hfresh) as (Hch & Hps & Hcs & Hptr).
  pose proof (childSentinel_pointer GetName g) as Hget.
  set (g1 := (childSentinel GetName g).1) in *.
  assert (Hother : forall k, k <> csName ->
     itemOf g1 k = itemOf g k /\ parentsOf g1 k = parentsOf g k /\
     childrenOf g1 k = if decide (k ∈ leaves g) then {[csName]} else childrenOf g k).
  { intros k Hk.
    destruct (childSentinel_keeps GetName g k Hkey Hk) as [Ki Kp].
    split; [exact Ki|]. split; [exact Kp|].
    rewrite (Hch k Hk). destruct (decide (k ∈ leaves g)) as [Hl|_]; [|set_solver].
    apply elem_of_leaves in Hl as [_ ->]. set_solver. }
  assert (Hsent : g1 !! csName = None <-> leaves g = ∅).
  { rewrite Hptr in Hget. unfold getItem in Hget.
    destruct (g1 !! csName), (decide (leaves g = ∅)); split; congruence. }
  split; [now apply (wf_childSentinel GetName)|]. split; [exact Hptr|].
  split; [|split; [exact Hps|split; [exact Hcs|split; [exact Hother|]]]].
  - apply set_eq. intros k. rewrite elem_of_union.
    destruct (decide (k = csName)) as [->|Hk].
    + rewrite !elem_of_dom, Hfresh.
      destruct (decide (leaves g = ∅)) as [He|He].
      * apply Hsent in He. rewrite He. split; [intros [? ?]; discriminate|].
        intros [[? ?]|?]; [discriminate | set_solver].
      * destruct (g1 !! csName) eqn:E1; [|exfalso; apply He; now apply Hsent].
        split; [set_solver | eauto].
    + destruct (Hother k Hk) as [Ki _]. unfold itemOf in Ki.
      rewrite !elem_of_dom. split.
      * intros [n Hn]. left. rewrite Hn in Ki. destruct (g !! k); [eauto | discriminate].
      * intros [[n Hn]|Hin].
        -- rewrite Hn in Ki. destruct (g1 !! k); [eauto | discriminate].
        -- destruct (decide (leaves g = ∅)); set_solver.
  - destruct (g1 !! csName) as [n|] eqn:E1.
    + rewrite (childSentinel_present GetName g1 n E1).
      rewrite (surjective_pairing (childSentinel GetName g)). fold g1. f_equal.
      rewrite Hptr. destruct (decide (leaves g = ∅)) as [He|_]; [|reflexivity].
      apply Hsent in He. congruence.
    + assert (Hg : g1 = g).
      { pose proof (proj1 Hsent eq_refl) as He.
        apply (graph_eq); intros k; destruct (decide (k = csName)) as [->|Hk].
        - unfold itemOf. now rewrite E1, Hfresh.
        - apply (Hother k Hk).
        - unfold parentsOf. now rewrite E1, Hfresh.
        - apply (Hother k Hk).
        - unfold childrenOf. now rewrite E1, Hfresh.
        - destruct (Hother k Hk) as (_ & _ & ->).
          destruct (decide (k ∈ leaves g)) as [Hl|_]; [set_solver | reflexivity]. }
      clearbody g1. now subst g1.
Qed.

End SentinelTheorems.

Lemma childSentinel_hangs_under_leaves_witness :
  (childSentinel id makeGraph).2 = (if decide (leaves makeGraph = ∅) then None else Some csName) /\
  parentsOf (childSentinel id makeGraph).1 csName = leaves makeGraph /\
  childSentinel id (childSentinel id makeGraph).1 = childSentinel id makeGraph.
Proof.
  destruct (childSentinel_hangs_under_leaves id makeGraph)
    as (_ & H2 & _ & H4 & _ & _ & H7).
  - repeat apply wf_relate. apply wf_NewGraph.
  - vm_compute. reflexivity.
  - auto.
Defined.

(** The loop of [childSentinel] over the keys of [chain] in the other
    order. *)
Lemma childSentinel_any_order_witness :
  foldr (childSentinel_turn id) chain (reverse (elements (dom chain)))
  = foldr (childSentinel_turn id) chain (elements (dom chain)).
Proof.
  apply (childSentinel_any_order id chain).
  - apply (wf_key id chain), chain_facts.
  - vm_compute. reflexivity.
  - apply reverse_Permutation.
Defined.

End scheduler_graph.

(* ===================================================================== *)
(** * Package model: jobs, the catalog and the warehouse                  *)
(* ===================================================================== *)

Module model.
Import GoTime.

(** ** Strings *)

(** [strings.Contains(s, substr)]. *)
Fixpoint Contains (s substr : string) : bool :=
  String.prefix substr s ||
  match s with
  | EmptyString => false
  | String _ s' => Contains s' substr
  end.

Fixpoint hasByte (c : ascii) (s : string) : bool :=
  match s with
  | EmptyString => false
  | String c' s' => Ascii.eqb c' c || hasByte c s'
  end.

(** The last element of [strings.Split(s, sep)] for a one-byte [sep] that
    occurs in [s]; [s] itself when it does not occur. *)
Fixpoint lastPart (sep : ascii) (s : string) : string :=
  match s with
  | EmptyString => EmptyString
  | String c s' =>
      if hasByte sep s' then lastPart sep s'
      else if Ascii.eqb c sep then s' else s
  end.

Definition bqSchemaErr : string := "Provided Schema does not match Table".
Definition bqRetryingErr : string := "Retrying may solve the problem".
Definition temporaryErr : string := "server encountered a temporary error".

(** ** Values of the warehouse API *)

(** [bigquery.JobStatus]: the state and the message of the error result,
    if there is one. *)
Record JobStatus := mkJobStatus {
  State : string;
  ErrorResult : option string
}.

(** [bigquery.JobConfiguration], opaque to the core but for the source
    URIs of a load ([Load.SourceUris], [None] when [Load] is nil) and the
    dry-run flag. *)
Record JobConfiguration := mkJobConfiguration {
  cfgBody : string;
  cfgLoadSourceUris : option (list string);
  cfgDryRun : bool
}.

(** [bigquery.Job], as [StartJob] and [GetJob] return it: the id, the
    status, the configuration and the end time of the statistics in
    milliseconds (0 when absent). *)
Record bigqueryJob := mkBigqueryJob {
  jId : string;
  jStatus : option JobStatus;
  jConfiguration : option JobConfiguration;
  jEndTimeMs : Z
}.

(** A column that holds JSON text: the value it decodes to, text that
    [json.Unmarshal] rejects, or the empty string. *)
Inductive text (A : Type) :=
  | Json (a : A)
  | Malformed
  | EmptyText.
Arguments Json {A} a.
Arguments Malformed {A}.
Arguments EmptyText {A}.

Definition Unmarshal {A} (t : text A) : string + A :=
  match t with
  | Json a => inr a
  | Malformed => inl "invalid character"
  | EmptyText => inl "unexpected end of JSON input"
  end.

(** ** Job records *)

(** [BQJob], with the columns the scheduling core reads or writes (the
    user id, the statistics and the import span and counts are left
    out), and the three cached fields, which are not columns. *)
Record BQJob := mkBQJob {
  Id : Z;
  TableId : Z;
  RunId : option Z;
  Parents : option (text (list Z));
  BQJobId : string;
  Type_ : string;
  Configuration : option (text JobConfiguration);
  Status : option (text JobStatus);
  EndTime : option Z;
  bqConfig : option JobConfiguration;
  state : string;
  error : string
}.

Definition setCache (j : BQJob) (c : option JobConfiguration) (st er : string) : BQJob :=
  {| Id := Id j; TableId := TableId j; RunId := RunId j; Parents := Parents j;
     BQJobId := BQJobId j; Type_ := Type_ j; Configuration := Configuration j;
     Status := Status j; EndTime := EndTime j;
     bqConfig := c; state := st; error := er |}.

(** A record as the catalog returns it: the cached fields are zero. *)
Definition scanned (j : BQJob) : BQJob := setCache j None "" "".

(** [GetName]: [fmt.Sprintf("%d", j.TableId)]. *)
Definition GetName (j : BQJob) : string := pretty (TableId j).

(** [cacheStatus]: the record afterwards, or the error of the decoding. *)
Definition cacheStatus (j : BQJob) : string + BQJob :=
  match Status j with
  | Some t =>
      match Unmarshal t with
      | inl e => inl e
      | inr status =>
          inr (setCache j (bqConfig j) (State status)
                 (match ErrorResult status with
                  | Some msg => msg
                  | None => error j
                  end))
      end
  | None => inr j
  end.

(** [getConfig]: the configuration or the error, and the record
    afterwards (the decoded configuration is cached in it). *)
Definition getConfig (j : BQJob) : (string + JobConfiguration) * BQJob :=
  match bqConfig j with
  | Some conf => (inr conf, j)
  | None =>
      match Configuration j with
      | None => (inl ("Missing configuration in job " +:+ pretty (Id j)), j)
      | Some t =>
          match Unmarshal t with
          | inl e => (inl e, j)
          | inr conf => (inr conf, setCache j (Some conf) (state j) (error j))
          end
      end
  end.

(** [updateJobWithBQData], for a record that exists: the id (its last
    part after ":" and "."), the configuration, the status with the
    cached fields, and the end time. *)
Definition updateJobWithBQData (job : BQJob) (bqJob : bigqueryJob) : BQJob :=
  let jid := jId bqJob in
  let jid := if Contains jid ":" then lastPart ":"%char jid else jid in
  let jid := if Contains jid "." then lastPart "."%char jid else jid in
  let job1 :=
    {| Id := Id job; TableId := TableId job; RunId := RunId job;
       Parents := Parents job;
       BQJobId := jid;
       Type_ := Type_ job;
       Configuration := match jConfiguration bqJob with
                        | Some c => Some (Json c)
                        | None => Configuration job
                        end;
       Status := match jStatus bqJob with
                 | Some s => Some (Json s)
                 | None => Status job
                 end;
       EndTime := EndTime job;
       bqConfig := bqConfig job; state := state job; error := error job |} in
  let job2 := match cacheStatus job1 with
              | inr j => j
              | inl _ => job1
              end in
  {| Id := Id job2; TableId := TableId job2; RunId := RunId job2;
     Parents := Parents job2; BQJobId := BQJobId job2; Type_ := Type_ job2;
     Configuration := Configuration job2; Status := Status job2;
     EndTime := if jEndTimeMs bqJob =? 0 then EndTime job2
                else Some (jEndTimeMs bqJob);
     bqConfig := bqConfig job2; state := state job2; error := error job2 |}.

Example updateJobWithBQData_id :
  BQJobId (updateJobWithBQData
             (mkBQJob 1 2 None None "" "query" None None None None "" "")
             (mkBigqueryJob "proj-1:US.job_abc" None None 0))
  = "job_abc".
Proof. reflexivity. Qed.

(** ** Tables *)

(** [Table], with the fields the scheduling core reads or writes. *)
Record Table := mkTable {
  tId : Z;
  tName : string;
  tError : string;
  tRunning : bool;
  tImportDbId : Z;
  tExternalTmout : Z
}.

Definition IsImport (t : Table) : bool := negb (tImportDbId t =? 0).
Definition IsExternal (t : Table) : bool := negb (tExternalTmout t =? 0).

Definition withRunning (t : Table) (running : bool) : Table :=
  {| tId := tId t; tName := tName t; tError := tError t; tRunning := running;
     tImportDbId := tImportDbId t; tExternalTmout := tExternalTmout t |}.

Definition withError (t : Table) (running : bool) (err : string) : Table :=
  {| tId := tId t; tName := tName t; tError := err; tRunning := running;
     tImportDbId := tImportDbId t; tExternalTmout := tExternalTmout t |}.

(** ** The model: catalog, process-local maps, warehouse *)

Inductive importStatus := ImpNone | ImpQueued | ImpRunning | ImpDone | ImpError.

Global Instance importStatus_eq_dec : EqDecision importStatus.
Proof. solve_decision. Defined.

Record importJob := mkImportJob {
  ijTable : Table;
  ijFname : string;
  ijJob : option BQJob
}.

(** [externalWait]: the channel (by number) and the job. *)
Record externalWait := mkExternalWait {
  ewCh : nat;
  ewJob : option BQJob
}.

(** The goroutine started by [startExternalWait]: it holds the channel,
    the timeout and the table. *)
Record waiter := mkWaiter {
  wCh : nat;
  wTmout : Duration;
  wTable : Table
}.

(** What the model does to the world outside the catalog, in order. *)
Inductive event :=
  | StartJobCalled (job : BQJob) (conf : JobConfiguration) (ok : bool)
  | Slept (d : Duration)
  | MonitorStarted (job : BQJob)
  | ImportQueued (t : Table) (job : option BQJob)
  | ExternalWaitStarted (t : Table) (job : option BQJob).

(** [Model].  The catalog: the tables by id and the job rows in the order
    of their ids; the catalog's operations are taken to succeed.  The
    process-local state: import statuses, import queue, external waits,
    with the goroutines waiting on them and the channels closed so far.
    The warehouse: [bqReply n conf] is what the [n]-th call of [StartJob]
    returns when given [conf], an error text or a job. *)
Record Model := mkModel {
  tables : gmap Z Table;
  bq_jobs : list BQJob;
  imports : gmap Z importStatus;
  importQueue : list importJob;
  externalWaits : gmap Z externalWait;
  waiters : list waiter;
  closedChans : gset nat;
  nextChan : nat;
  bqReply : nat -> JobConfiguration -> string + bigqueryJob;
  bqCalls : nat;
  events : list event
}.

Definition setTables (m : Model) (ts : gmap Z Table) : Model :=
  mkModel ts (bq_jobs m) (imports m) (importQueue m) (externalWaits m)
    (waiters m) (closedChans m) (nextChan m) (bqReply m) (bqCalls m) (events m).

Definition setJobs (m : Model) (js : list BQJob) : Model :=
  mkModel (tables m) js (imports m) (importQueue m) (externalWaits m)
    (waiters m) (closedChans m) (nextChan m) (bqReply m) (bqCalls m) (events m).

Definition addEvent (m : Model) (e : event) : Model :=
  mkModel (tables m) (bq_jobs m) (imports m) (importQueue m) (externalWaits m)
    (waiters m) (closedChans m) (nextChan m) (bqReply m) (bqCalls m)
    (events m ++ [e]).

(** [m.SelectTable(id)]: nil when there is no such table. *)
Definition SelectTable (m : Model) (id : Z) : option Table := tables m !! id.

(** [m.SaveTable(t)]: an UPDATE of the row with the id of [t]. *)
Definition SaveTable (m : Model) (t : Table) : Model :=
  match tables m !! tId t with
  | Some _ => setTables m (<[tId t := t]> (tables m))
  | None => m
  end.

(** [m.db.UpdateBQJob(j)]: an UPDATE of the row with the id of [j]. *)
Definition UpdateBQJob (m : Model) (j : BQJob) : Model :=
  setJobs m ((fun row => if Id row =? Id j then j else row) <$> bq_jobs m).

(** [m.SelectBQJobsByRunId(runId)]: the rows of the run, by id. *)
Definition SelectBQJobsByRunId (m : Model) (runId : Z) : list BQJob :=
  scanned <$> filter (fun j => RunId j = Some runId) (bq_jobs m).

(** [t.setRunning(m, running)] and [t.setError(m, err)] for a non-nil
    error: the table afterwards and the model afterwards. *)
Definition setRunning (t : Table) (m : Model) (running : bool) : Table * Model :=
  let t' := withRunning t running in (t', SaveTable m t').

Definition setError (t : Table) (m : Model) (err : string) : Table * Model :=
  let t' := withError t false err in (t', SaveTable m t').

(** [m.bq.StartJob(conf)] on behalf of [job]. *)
Definition StartJob (m : Model) (job : BQJob) (conf : JobConfiguration)
  : (string + bigqueryJob) * Model :=
  let reply := bqReply m (bqCalls m) conf in
  let m1 := mkModel (tables m) (bq_jobs m) (imports m) (importQueue m)
              (externalWaits m) (waiters m) (closedChans m) (nextChan m)
              (bqReply m) (S (bqCalls m)) (events m) in
  (reply, addEvent m1 (StartJobCalled job conf
                         (match reply with inr _ => true | inl _ => false end))).

(** [submitJob(job, m)]: the error (or nil), the job afterwards and the
    model afterwards. *)
Definition submitJob (job : BQJob) (m : Model) : option string * BQJob * Model :=
  match getConfig job with
  | (inl e, job1) => (Some e, job1, m)
  | (inr conf, job1) =>
      match StartJob m job1 conf with
      | (inl e, m1) =>
          if Contains e temporaryErr then
            let m2 := addEvent m1 (Slept (10 * Second)) in
            match StartJob m2 job1 conf with
            | (inl e2, m3) => (Some e2, job1, m3)
            | (inr _, m3) => (None, job1, m3)   (* [return err] with a nil [err] *)
            end
          else (Some e, job1, m1)
      | (inr bqJob, m1) =>
          let job2 := updateJobWithBQData job1 bqJob in
          (None, job2, UpdateBQJob m1 job2)
      end
  end.

(** ** submitJob *)

Lemma getConfig_same_columns (j : BQJob) :
  let j' := snd (getConfig j) in
  Id j' = Id j /\ TableId j' = TableId j /\ RunId j' = RunId j /\
  Parents j' = Parents j /\ BQJobId j' = BQJobId j /\ Type_ j' = Type_ j /\
  Configuration j' = Configuration j /\ Status j' = Status j /\
  EndTime j' = EndTime j /\ state j' = state j /\ error j' = error j.
Proof.
  unfold getConfig. destruct (bqConfig j) eqn:E1; [simpl; repeat split; reflexivity|].
  destruct (Configuration j) as [t|] eqn:E2; [destruct (Unmarshal t)|];
    simpl; rewrite ?E1, ?E2; repeat split; reflexivity.
Qed.

Lemma StartJob_catalog (m : Model) (job : BQJob) (conf : JobConfiguration) :
  let m' := snd (StartJob m job conf) in
  bq_jobs m' = bq_jobs m /\ tables m' = tables m /\
  bqReply m' = bqReply m /\ bqCalls m' = S (bqCalls m) /\
  fst (StartJob m job conf) = bqReply m (bqCalls m) conf.
Proof. unfold StartJob. simpl. repeat split; reflexivity. Qed.

(** C10.  When the first [StartJob] call of [submitJob] fails with an
    error that contains "server encountered a temporary error" and the one
    retried call succeeds, [submitJob] returns nil and leaves the job
    record as it was: the id minted by the retry is not written to
    [BQJobId] and no row of the catalog is updated.  The catalog is
    written by [submitJob] only when the first [StartJob] call succeeds. *)
Theorem submitJob_retry_success_not_recorded :
  (forall (job : BQJob) (m : Model) (conf : JobConfiguration)
          (e1 : string) (retried : bigqueryJob),
     fst (getConfig job) = inr conf ->
     bqReply m (bqCalls m) conf = inl e1 ->
     Contains e1 temporaryErr = true ->
     bqReply m (S (bqCalls m)) conf = inr retried ->
     exists m',
       submitJob job m = (None, snd (getConfig job), m') /\
       BQJobId (snd (getConfig job)) = BQJobId job /\
       bq_jobs m' = bq_jobs m /\ tables m' = tables m /\
       bqCalls m' = S (S (bqCalls m)))
  /\
  (forall (job : BQJob) (m : Model),
     bq_jobs (snd (submitJob job m)) <> bq_jobs m ->
     exists conf started,
       fst (getConfig job) = inr conf /\
       bqReply m (bqCalls m) conf = inr started /\
       fst (fst (submitJob job m)) = None /\
       snd (fst (submitJob job m))
       = updateJobWithBQData (snd (getConfig job)) started).
Proof.
  split.
  - intros job m conf e1 retried Hc H1 Ht H2.
    unfold submitJob. destruct (getConfig job) as [[e|c] job1] eqn:Eg;
      simpl in Hc; [discriminate|]. injection Hc as ->.
    unfold StartJob at 1. rewrite H1. cbv zeta. rewrite Ht.
    unfold StartJob. simpl. rewrite H2.
    eexists. split; [reflexivity|]. simpl.
    pose proof (getConfig_same_columns job) as Hs. rewrite Eg in Hs. simpl in Hs.
    repeat split; tauto.
  - intros job m Hne.
    destruct (getConfig job) as [[e|conf] job1] eqn:Eg.
    { exfalso. apply Hne. unfold submitJob. now rewrite Eg. }
    destruct (bqReply m (bqCalls m) conf) as [e|started] eqn:E1.
    + exfalso. apply Hne. unfold submitJob. rewrite Eg.
      unfold StartJob. cbv zeta. rewrite E1. cbv iota.
      destruct (Contains e temporaryErr); [|reflexivity].
      simpl. destruct (bqReply m (S (bqCalls m)) conf); reflexivity.
    + exists conf, started. unfold submitJob. rewrite Eg.
      unfold StartJob. cbv zeta. rewrite E1. simpl. repeat split; reflexivity.
Qed.

(** A warehouse whose first reply is the temporary error and whose later
    replies are jobs with fresh ids. *)
Definition flakyOnce (n : nat) (conf : JobConfiguration) : string + bigqueryJob :=
  match n with
  | O => inl "googleapi: Error 503: The server encountered a temporary error and could not complete your request"
  | S _ => inr {| jId := "proj:US.job_" +:+ pretty n;
                  jStatus := Some {| State := "RUNNING"; ErrorResult := None |};
                  jConfiguration := Some conf; jEndTimeMs := 0 |}
  end.

Definition queryConf : JobConfiguration :=
  {| cfgBody := "SELECT 1"; cfgLoadSourceUris := None; cfgDryRun := false |}.

Definition pendingQuery (id tableId runId : Z) (parents : option (text (list Z))) : BQJob :=
  {| Id := id; TableId := tableId; RunId := Some runId; Parents := parents;
     BQJobId := ""; Type_ := "query"; Configuration := Some (Json queryConf);
     Status := None; EndTime := None; bqConfig := None; state := ""; error := "" |}.

Definition summaryTable (id : Z) (name : string) : Table :=
  {| tId := id; tName := name; tError := ""; tRunning := false;
     tImportDbId := 0; tExternalTmout := 0 |}.

Definition oneJobModel : Model :=
  {| tables := {[ 1 := summaryTable 1 "A" ]};
     bq_jobs := [pendingQuery 10 1 7 None];
     imports := ∅; importQueue := []; externalWaits := ∅; waiters := [];
     closedChans := ∅; nextChan := 0;
     bqReply := flakyOnce; bqCalls := 0; events := [] |}.

Example submitJob_flakyOnce :
  let '(err, job', m') := submitJob (pendingQuery 10 1 7 None) oneJobModel in
  err = None /\ BQJobId job' = "" /\ bq_jobs m' = bq_jobs oneJobModel /\
  bqCalls m' = 2%nat.
Proof. vm_compute. auto. Qed.

(** ** Durations as text *)

(** [fmtFrac]: the last [prec] decimal digits of [v] after a point,
    trailing zeros (and a lone point) omitted, and the rest of [v]. *)
Fixpoint fmtFrac_loop (prec : nat) (v : N) (print : bool) (acc : string)
  : string * N * bool :=
  match prec with
  | O => (acc, v, print)
  | S prec' =>
      let digit := (v mod 10)%N in
      let print' := print || negb (digit =? 0)%N in
      let acc' := if print' then String (ascii_of_N (48 + digit)) acc else acc in
      fmtFrac_loop prec' (v / 10)%N print' acc'
  end.

Definition fmtFrac (v : N) (prec : nat) : string * N :=
  let '(acc, v', print) := fmtFrac_loop prec v false "" in
  (if print then "." +:+ acc else acc, v').

(** [Duration.String()], the text [%v] prints for a [time.Duration]. *)
Definition DurationString (d : Duration) : string :=
  let u := Z.to_N (Z.abs d) in
  let body :=
    if (u <? 1000000000)%N then
      if (u =? 0)%N then "0s"
      else if (u <? 1000)%N then pretty u +:+ "ns"
      else if (u <? 1000000)%N then
        let '(frac, int) := fmtFrac u 3 in pretty int +:+ frac +:+ "µs"
      else
        let '(frac, int) := fmtFrac u 6 in pretty int +:+ frac +:+ "ms"
    else
      let '(frac, secs) := fmtFrac u 9 in
      let s := pretty (secs mod 60)%N +:+ frac +:+ "s" in
      let mins := (secs / 60)%N in
      if (0 <? mins)%N then
        let ms := pretty (mins mod 60)%N +:+ "m" +:+ s in
        let hours := (mins / 60)%N in
        if (0 <? hours)%N then pretty hours +:+ "h" +:+ ms else ms
      else s in
  if d <? 0 then "-" +:+ body else body.

Example DurationString_examples :
  DurationString (3600 * Second) = "1h0m0s" /\
  DurationString (90 * Second) = "1m30s" /\
  DurationString (15 * Second) = "15s" /\
  DurationString (1500 * Millisecond) = "1.5s" /\
  DurationString (250 * Millisecond) = "250ms" /\
  DurationString 0 = "0s".
Proof. vm_compute. repeat split; reflexivity. Qed.

(** A 64-bit signed integer after an overflowing operation. *)
Definition wrap64 (z : Z) : Z := (z + 2 ^ 63) mod 2 ^ 64 - 2 ^ 63.

(** ** The external-wait registry *)

Definition setWaits (m : Model) (ws : gmap Z externalWait) (gs : list waiter)
    (closed : gset nat) (next : nat) : Model :=
  mkModel (tables m) (bq_jobs m) (imports m) (importQueue m) ws gs closed next
    (bqReply m) (bqCalls m) (events m).

Definition hasExternalWait (t : Table) (m : Model) : bool :=
  bool_decide (is_Some (externalWaits m !! tId t)).

(** [time.Duration(t.ExternalTmout) * time.Second]. *)
Definition externalTimeout (t : Table) : Duration := wrap64 (tExternalTmout t * Second).

Definition timedOutMessage (tmout : Duration) : string :=
  "External wait timed out after " +:+ DurationString tmout.

(** [startExternalWait]: the error (or nil), the table afterwards and the
    model afterwards.  The goroutine it starts is added to [waiters]. *)
Definition startExternalWait (t : Table) (m : Model) (job : option BQJob)
  : option string * Table * Model :=
  if negb (IsExternal t) then (Some "Not an external table", t, m)
  else if hasExternalWait t m
  then (Some ("ExternalWait for table id " +:+ pretty (tId t) +:+ " already exists."), t, m)
  else
    let '(t1, m1) := setRunning t m true in
    let ch := nextChan m1 in
    let ew := {| ewCh := ch; ewJob := job |} in
    let w := {| wCh := ch; wTmout := externalTimeout t1; wTable := t1 |} in
    let m2 := setWaits m1 (<[tId t1 := ew]> (externalWaits m1))
                (waiters m1 ++ [w]) (closedChans m1) (S ch) in
    (None, t1, addEvent m2 (ExternalWaitStarted t1 job)).

(** [cancelExternalWait]: the job of the wait (nil when there is none). *)
Definition cancelExternalWait (t : Table) (m : Model) : option BQJob * Model :=
  match externalWaits m !! tId t with
  | None => (None, m)
  | Some ew =>
      (ewJob ew,
       setWaits m (delete (tId t) (externalWaits m)) (waiters m)
         ({[ewCh ew]} ∪ closedChans m) (nextChan m))
  end.

Definition removeWaiter (w : waiter) (m : Model) : Model :=
  setWaits m (externalWaits m) (filter (fun w' => wCh w' ≠ wCh w) (waiters m))
    (closedChans m) (nextChan m).

(** The goroutine of [startExternalWait] takes the timeout branch of its
    [select]: [t.setError(m, fmt.Errorf("External wait timed out after
    %v", tmout))], and ends. *)
Definition timeoutFires (w : waiter) (m : Model) : Table * Model :=
  let '(t', m1) := setError (wTable w) m (timedOutMessage (wTmout w)) in
  (t', removeWaiter w m1).

(** It takes the branch of the closed channel: nothing is done. *)
Definition waitCancelled (w : waiter) (m : Model) : Model := removeWaiter w m.

(** The moves of the waiting goroutines. *)
Inductive waiterStep : Model -> Model -> Prop :=
  | step_timeout (w : waiter) (m : Model) :
      w ∈ waiters m -> wCh w ∉ closedChans m ->
      waiterStep m (snd (timeoutFires w m))
  | step_cancelled (w : waiter) (m : Model) :
      w ∈ waiters m -> wCh w ∈ closedChans m ->
      waiterStep m (waitCancelled w m).

Lemma SaveTable_externalWaits (m : Model) (t : Table) :
  externalWaits (SaveTable m t) = externalWaits m.
Proof. unfold SaveTable. now destruct (tables m !! tId t). Qed.

(** No move of a waiting goroutine changes the registry of waits: only
    [cancelExternalWait] deletes an entry. *)
Lemma waiterStep_keeps_externalWaits (m m' : Model) :
  waiterStep m m' -> externalWaits m' = externalWaits m.
Proof.
  destruct 1 as [w m _ _|w m _ _]; [|reflexivity].
  unfold timeoutFires, setError. simpl. apply SaveTable_externalWaits.
Qed.

Lemma startExternalWait_registers (t : Table) (m : Model) (job : option BQJob)
    (t1 : Table) (m1 : Model) :
  startExternalWait t m job = (None, t1, m1) ->
  t1 = withRunning t true /\
  externalWaits m1 !! tId t = Some {| ewCh := nextChan m; ewJob := job |} /\
  {| wCh := nextChan m; wTmout := externalTimeout t; wTable := t1 |} ∈ waiters m1 /\
  closedChans m1 = closedChans m.
Proof.
  unfold startExternalWait.
  destruct (negb (IsExternal t)); [discriminate|].
  destruct (hasExternalWait t m); [discriminate|].
  unfold setRunning, SaveTable. simpl.
  intros [= <- <-].
  destruct (tables m !! tId t); simpl;
    (split; [reflexivity|]; split; [apply lookup_insert_eq|];
     split; [apply elem_of_app; right; now left | reflexivity]).
Qed.

(** After a wait was started and its timeout fired, the error text of the
    table is the timed-out message, and the table still has its entry in
    the registry of waits. *)
Lemma timeout_sets_error_keeps_entry (t : Table) (m : Model) (job : option BQJob)
    (t1 : Table) (m1 : Model) :
  startExternalWait t m job = (None, t1, m1) ->
  let w := {| wCh := nextChan m; wTmout := externalTimeout t; wTable := t1 |} in
  w ∈ waiters m1 /\
  tError (fst (timeoutFires w m1)) = timedOutMessage (externalTimeout t) /\
  (is_Some (tables m !! tId t) ->
   tError <$> tables (snd (timeoutFires w m1)) !! tId t
   = Some (timedOutMessage (externalTimeout t))) /\
  hasExternalWait t (snd (timeoutFires w m1)) = true.
Proof.
  intros H. pose proof H as (-> & Hew & Hw & _)%startExternalWait_registers.
  cbv zeta. split; [exact Hw|]. split; [reflexivity|]. split.
  - intros [t0 Ht0]. revert H. unfold startExternalWait.
    destruct (negb (IsExternal t)); [discriminate|].
    destruct (hasExternalWait t m); [discriminate|].
    unfold setRunning, SaveTable. simpl. rewrite Ht0. intros [= <-].
    unfold timeoutFires, setError, SaveTable. simpl.
    rewrite lookup_insert_eq. simpl. now rewrite lookup_insert_eq.
  - unfold hasExternalWait, timeoutFires, setError. simpl.
    rewrite SaveTable_externalWaits. simpl. rewrite Hew.
    apply bool_decide_eq_true. eauto.
Qed.

(** An external table with a timeout of 3600 seconds, and its load job. *)
Definition externalTable : Table :=
  {| tId := 3; tName := "uploads"; tError := ""; tRunning := false;
     tImportDbId := 0; tExternalTmout := 3600 |}.

Definition externalJob : BQJob :=
  {| Id := 30; TableId := 3; RunId := Some 7; Parents := None; BQJobId := "";
     Type_ := "load"; Configuration := None; Status := None; EndTime := None;
     bqConfig := None; state := ""; error := "" |}.

Definition externalModel : Model :=
  {| tables := {[ 3 := externalTable ]};
     bq_jobs := [externalJob];
     imports := ∅; importQueue := []; externalWaits := ∅; waiters := [];
     closedChans := ∅; nextChan := 0;
     bqReply := fun _ _ => inl "unavailable"; bqCalls := 0; events := [] |}.

Definition afterStart : Model := snd (startExternalWait externalTable externalModel (Some externalJob)).

Definition afterTimeout : Model :=
  match waiters afterStart with
  | w :: _ => snd (timeoutFires w afterStart)
  | [] => afterStart
  end.

(** C4 at an external table with [external-timeout] 3600: the wait is
    started, nobody cancels it, the timeout fires.  The error of the table
    reads "External wait timed out after 1h0m0s", the goroutine is gone,
    and the entry of the table is still in the registry, so
    [hasExternalWait] answers true and a new wait cannot be started. *)
Lemma external_wait_entry_survives_timeout :
  fst (fst (startExternalWait externalTable externalModel (Some externalJob))) = None /\
  hasExternalWait externalTable afterStart = true /\
  waiters afterTimeout = [] /\
  tError <$> tables afterTimeout !! 3 = Some "External wait timed out after 1h0m0s" /\
  hasExternalWait externalTable afterTimeout = true /\
  fst (fst (startExternalWait externalTable afterTimeout (Some externalJob)))
  = Some "ExternalWait for table id 3 already exists." /\
  hasExternalWait externalTable (snd (cancelExternalWait externalTable afterStart)) = false.
Proof. vm_compute. repeat split; reflexivity. Qed.

(** ** Runs *)

Import scheduler_graph.

(** [Run], with the fields [processCycle] reads or writes. *)
Record Run := mkRun {
  rId : Z;
  rEndTime : option Time;
  rError : option string;
  ignoreErrors : bool;
  maxErrCnt : Z
}.

(** The decoding of [job.Parents] in [graphFromJobsById]: nil and the
    empty string give no parents. *)
Definition parentsList (job : BQJob) : string + list Z :=
  match Parents job with
  | None => inr []
  | Some EmptyText => inr []
  | Some t => Unmarshal t
  end.

(** The inner loop of [graphFromJobsById]: the graph afterwards and [n]. *)
Definition relateParents (byId : gmap Z BQJob) (job : BQJob)
    (g : Graph BQJob) (parents : list Z) : Graph BQJob * nat :=
  foldl (fun '(g', n) pid =>
           match byId !! pid with
           | Some parent => (Relate GetName g' (Some (userItem parent)) (userItem job), S n)
           | None => (g', n)
           end) (g, O) parents.

(** One turn of the outer loop. *)
Definition graphFromJobsById_turn (byId : gmap Z BQJob)
    (acc : string + Graph BQJob) (job : BQJob) : string + Graph BQJob :=
  match acc with
  | inl e => inl e
  | inr g =>
      match parentsList job with
      | inl e => inl e
      | inr parents =>
          let '(g1, n) := relateParents byId job g parents in
          inr (if (n =? 0)%nat then Relate GetName g1 None (userItem job) else g1)
      end
  end.

(** The range over the map is taken in the order of [map_to_list]; the
    graph is the same in every order ([graphFromJobsById_any_order]). *)
Definition graphFromJobsById (byId : gmap Z BQJob) : string + Graph BQJob :=
  foldl (graphFromJobsById_turn byId) (inr NewGraph) (snd <$> map_to_list byId).

(** The condition under which [loadRunUnfinishedJobGraph] keeps a job. *)
Definition unfinished (r : Run) (j : BQJob) (errCnt : Z) : bool :=
  negb (String.eqb (state j) "DONE")
  || (negb (String.eqb (error j) "")
      && ((maxErrCnt r =? 0) || ((0 <? maxErrCnt r) && (maxErrCnt r <? errCnt)))).

(** The loop of [loadRunUnfinishedJobGraph] over the jobs of the run. *)
Fixpoint collectUnfinished (r : Run) (jobs : list BQJob)
    (byId : gmap Z BQJob) (errCnt : Z) : string + gmap Z BQJob :=
  match jobs with
  | [] => inr byId
  | j :: rest =>
      match cacheStatus j with
      | inl e => inl e
      | inr j1 =>
          if Contains (error j1) bqSchemaErr
          then collectUnfinished r rest byId errCnt
          else
            let errCnt' := if String.eqb (error j1) "" then errCnt else errCnt + 1 in
            let byId' := if unfinished r j1 errCnt'
                         then <[TableId j1 := j1]> byId else byId in
            collectUnfinished r rest byId' errCnt'
      end
  end.

Definition loadRunUnfinishedJobGraph (r : Run) (m : Model) : string + Graph BQJob :=
  match collectUnfinished r (SelectBQJobsByRunId m (rId r)) ∅ 0 with
  | inl e => inl e
  | inr byId => graphFromJobsById byId
  end.

(** ** The import queue *)

Definition GetImportStatus (m : Model) (id : Z) : importStatus :=
  default ImpNone (imports m !! id).

Definition setImports (m : Model) (im : gmap Z importStatus) (q : list importJob) : Model :=
  mkModel (tables m) (bq_jobs m) im q (externalWaits m) (waiters m)
    (closedChans m) (nextChan m) (bqReply m) (bqCalls m) (events m).

(** [ParseGcsUri]: the bucket and the object name of a "gs://" URI. *)
Definition ParseGcsUri (uri : string) : string + (string * string) :=
  if String.prefix "gs://" uri then
    let rest := substring 5 (String.length uri - 5) uri in
    match index 0 "/" rest with
    | None => inl "parse GCS URI: no object name"
    | Some i =>
        inr (substring 0 i rest, substring (S i) (String.length rest - S i) rest)
    end
  else inl "parse GCS URI: scheme is not gs://".

(** [job.importFileName()]. *)
Definition importFileName (job : BQJob) : (string + string) * BQJob :=
  match getConfig job with
  | (inl e, job1) => (inl e, job1)
  | (inr cfg, job1) =>
      match cfgLoadSourceUris cfg with
      | Some (uri :: _) =>
          match ParseGcsUri uri with
          | inl e => (inl e, job1)
          | inr (_, fn) => (inr fn, job1)
          end
      | _ => (inl "Missing Load.SourceUris.", job1)
      end
  end.

(** [m.queueImport(t, nil, job)] for a job that exists, as [processCycle]
    calls it: the error (or nil) and the model afterwards. *)
Definition queueImport (t : Table) (job : BQJob) (m : Model) : option string * Model :=
  if decide (GetImportStatus m (tId t) = ImpNone) then
    match importFileName job with
    | (inl e, _) => (Some e, m)
    | (inr fname, job1) =>
        let imp := {| ijTable := t; ijFname := fname; ijJob := Some job1 |} in
        let m1 := setImports m (<[tId t := ImpQueued]> (imports m)) (importQueue m ++ [imp]) in
        (None, addEvent m1 (ImportQueued t (Some job1)))
    end
  else (Some "Already queued, running or done", m).

(** ** processCycle *)

(** The body of the loop of [processCycle] for one ready job: the model
    afterwards, and [Done None] to go on, [Done (Some e)] to return the
    error [e], or a panic. *)
Definition processReady_job (job : BQJob) (m : Model) : Model * outcome (option string) :=
  if negb (String.eqb (error job) "") then
    (m, Done (Some ("Error in table " +:+ pretty (TableId job) +:+ ": " +:+ error job)))
  else if String.eqb (BQJobId job) "" then
    if String.eqb (Type_ job) "load" then
      let status := GetImportStatus m (TableId job) in
      if decide (status = ImpError) then
        (m, Done (Some ("Errors encountered during import of table "
                        +:+ pretty (TableId job) +:+ ".")))
      else if decide (status = ImpNone) then
        match SelectTable m (TableId job) with
        | None => (m, Panic)
        | Some t =>
            if IsImport t then
              let '(t1, m1) := setRunning t m true in
              let '(_, m2) := queueImport t1 job m1 in
              (m2, Done None)
            else if IsExternal t && negb (hasExternalWait t m) then
              let '(_, _, m1) := startExternalWait t m (Some job) in
              (m1, Done None)
            else (m, Done None)
        end
      else (m, Done None)
    else
      match SelectTable m (TableId job) with
      | None => (m, Panic)
      | Some t =>
          let t0 := withError t (tRunning t) "" in
          let '(t1, m1) := setRunning t0 m true in
          match submitJob job m1 with
          | (Some e, _, m2) =>
              let '(_, m3) := setError t1 m2 e in
              (m3, Done (Some e))
          | (None, job1, m2) =>
              (addEvent m2 (MonitorStarted job1), Done None)
          end
      end
  else (m, Done None).

(** The loop over the ready items; the type assertion of an item to a job
    panics on an item that is not a job. *)
Fixpoint processReady (ready : list (Item BQJob)) (m : Model)
  : Model * outcome (option string) :=
  match ready with
  | [] => (m, Done None)
  | sentinel :: _ => (m, Panic)
  | userItem job :: rest =>
      match processReady_job job m with
      | (m1, Done None) => processReady rest m1
      | (m1, o) => (m1, o)
      end
  end.

Definition withEndTime (r : Run) (now : Time) : Run :=
  {| rId := rId r; rEndTime := Some now; rError := rError r;
     ignoreErrors := ignoreErrors r; maxErrCnt := maxErrCnt r |}.

(** [r.processCycle(m)] at the clock reading [now]: the model and the run
    afterwards, and the error returned (or nil). *)
Definition processCycle (r : Run) (now : Time) (m : Model)
  : Model * Run * outcome (option string) :=
  match loadRunUnfinishedJobGraph r m with
  | inl e => (m, r, Done (Some e))
  | inr g =>
      if (size g =? 0)%nat then (m, withEndTime r now, Done None)
      else
        match ReadyItems GetName g with
        | Done (_, ready, Some e) => (m, r, Done (Some e))
        | Done (_, ready, None) =>
            let '(m1, o) := processReady ready m in (m1, r, o)
        | Panic => (m, r, Panic)
        | OutOfFuel => (m, r, OutOfFuel)
        end
  end.

(** The jobs a stretch of the trace hands to the warehouse, to the import
    queue or to an external wait. *)
Definition startedJob (e : event) : option BQJob :=
  match e with
  | StartJobCalled job _ _ => Some job
  | ImportQueued _ (Some job) => Some job
  | ExternalWaitStarted _ (Some job) => Some job
  | _ => None
  end.

(** The ids of the jobs that a stretch of the trace submitted to the
    warehouse with success. *)
Definition submitted (es : list event) : list Z :=
  omap (fun e => match e with
                 | StartJobCalled job _ true => Some (Id job)
                 | _ => None
                 end) es.

(** ** Scenario 1: C waits for A and B *)

Definition alwaysStarts (n : nat) (conf : JobConfiguration) : string + bigqueryJob :=
  inr {| jId := "proj:US.job_" +:+ pretty n;
         jStatus := Some {| State := "RUNNING"; ErrorResult := None |};
         jConfiguration := Some conf; jEndTimeMs := 0 |}.

Definition abcModel : Model :=
  {| tables := {[ 1 := summaryTable 1 "A"; 2 := summaryTable 2 "B";
                  3 := summaryTable 3 "C" ]};
     bq_jobs := [pendingQuery 10 1 7 None; pendingQuery 11 2 7 None;
                 pendingQuery 12 3 7 (Some (Json [1; 2]))];
     imports := ∅; importQueue := []; externalWaits := ∅; waiters := [];
     closedChans := ∅; nextChan := 0;
     bqReply := alwaysStarts; bqCalls := 0; events := [] |}.

Definition run7 : Run :=
  {| rId := 7; rEndTime := None; rError := None; ignoreErrors := false; maxErrCnt := 0 |}.

Definition cycle (m : Model) : Model := fst (fst (processCycle run7 0 m)).

(** The warehouse reports the jobs of the given ids as done. *)
Definition finish (ids : list Z) (m : Model) : Model :=
  setJobs m ((fun j => if bool_decide (Id j ∈ ids)
                       then updateJobWithBQData j
                              {| jId := BQJobId j;
                                 jStatus := Some {| State := "DONE"; ErrorResult := None |};
                                 jConfiguration := None; jEndTimeMs := 1 |}
                       else j) <$> bq_jobs m).

Example scenario_1 :
  submitted (events (cycle abcModel)) = [10; 11] /\
  submitted (events (cycle (cycle abcModel))) = [10; 11] /\
  submitted (events (cycle (finish [10] (cycle abcModel)))) = [10; 11] /\
  submitted (events (cycle (finish [10; 11] (cycle abcModel)))) = [10; 11; 12].
Proof. vm_compute. repeat split; reflexivity. Qed.

(** ** What the unfinished-job map leaves out *)

(** A job of the run that [loadRunUnfinishedJobGraph] does not keep: it
    carries the schema-mismatch error, or it is done, with no error or in
    a run that was resumed with errors to tolerate. *)
Definition leftOut (r : Run) (j : BQJob) : Prop :=
  Contains (error j) bqSchemaErr = true \/
  (state j = "DONE" /\ (error j = "" \/ maxErrCnt r ≠ 0)).

Lemma unfinished_false (r : Run) (j : BQJob) (errCnt : Z) :
  unfinished r j errCnt = false ->
  state j = "DONE" /\ (error j = "" \/ maxErrCnt r ≠ 0).
Proof.
  unfold unfinished. intros H.
  apply orb_false_iff in H as [H1 H2].
  apply negb_false_iff, String.eqb_eq in H1. split; [exact H1|].
  apply andb_false_iff in H2 as [H2|H2].
  - left. now apply negb_false_iff, String.eqb_eq in H2.
  - right. apply orb_false_iff in H2 as [H2 _]. now apply Z.eqb_neq in H2.
Qed.

Lemma cacheStatus_columns (j j1 : BQJob) :
  cacheStatus j = inr j1 ->
  Id j1 = Id j /\ TableId j1 = TableId j /\ Parents j1 = Parents j /\
  BQJobId j1 = BQJobId j /\ Type_ j1 = Type_ j.
Proof.
  unfold cacheStatus. destruct (Status j) as [t|]; [|intros [= <-]; repeat split].
  destruct (Unmarshal t); [discriminate|]. intros [= <-]. repeat split.
Qed.

Lemma collectUnfinished_spec (r : Run) (jobs : list BQJob) :
  forall (byId byId' : gmap Z BQJob) (errCnt : Z),
    collectUnfinished r jobs byId errCnt = inr byId' ->
    ((forall k j, byId !! k = Some j -> TableId j = k) ->
     forall k j, byId' !! k = Some j -> TableId j = k) /\
    (forall pid, byId' !! pid = None ->
       byId !! pid = None /\
       forall P P1, P ∈ jobs -> cacheStatus P = inr P1 -> TableId P1 = pid ->
                    leftOut r P1).
Proof.
  induction jobs as [|j rest IH]; intros byId byId' errCnt H; simpl in H.
  { injection H as <-. split; [trivial|].
    intros pid Hp. split; [exact Hp|]. intros P P1 HP. inversion HP. }
  destruct (cacheStatus j) as [e|j1] eqn:Ec; [discriminate|].
  destruct (Contains (error j1) bqSchemaErr) eqn:Es.
  { destruct (IH _ _ _ H) as [K A]. split; [exact K|].
    intros pid Hp. destruct (A pid Hp) as [A1 A2]. split; [exact A1|].
    intros P P1 HP HcP Ht. apply elem_of_cons in HP as [->|HP]; [|eauto].
    rewrite Ec in HcP. injection HcP as <-. now left. }
  destruct (IH _ _ _ H) as [K A]. clear IH H.
  set (errCnt' := if String.eqb (error j1) "" then errCnt else errCnt + 1) in *.
  destruct (unfinished r j1 errCnt') eqn:Eu.
  - split.
    + intros Hk. apply K. intros k j'. rewrite lookup_insert.
      case_decide; [intros [= <-]; congruence | apply Hk].
    + intros pid Hp. destruct (A pid Hp) as [A1 A2].
      rewrite lookup_insert in A1. case_decide as Hd; [discriminate|].
      split; [exact A1|].
      intros P P1 HP HcP Ht. apply elem_of_cons in HP as [->|HP]; [|eauto].
      rewrite Ec in HcP. injection HcP as <-. congruence.
  - split; [exact K|].
    intros pid Hp. destruct (A pid Hp) as [A1 A2]. split; [exact A1|].
    intros P P1 HP HcP Ht. apply elem_of_cons in HP as [->|HP]; [|eauto].
    rewrite Ec in HcP. injection HcP as <-. right. eapply unfinished_false, Eu.
Qed.

(** ** The graph of the unfinished jobs *)

Abbreviation jobItem := (@userItem BQJob).

(** The items of the graph are jobs of the map. *)
Definition itemsFrom (byId : gmap Z BQJob) (g : Graph BQJob) : Prop :=
  forall k n, g !! k = Some n ->
    exists j tid, nItem n = jobItem j /\ byId !! tid = Some j.

(** Every listed parent that is in the map is a parent in the graph. *)
Definition edgesOf (byId : gmap Z BQJob) (g : Graph BQJob) (job : BQJob) : Prop :=
  exists ps, parentsList job = inr ps /\
    forall pid p, pid ∈ ps -> byId !! pid = Some p ->
      GetName p ∈ parentsOf g (GetName job).

Record graphInv (byId : gmap Z BQJob) (D : list BQJob) (g : Graph BQJob) : Prop := {
  inv_wf : wf GetName g;
  inv_items : itemsFrom byId g;
  inv_edges : forall job, job ∈ D -> edgesOf byId g job
}.

Lemma relateParents_snoc byId job g ps pid :
  relateParents byId job g (ps ++ [pid])
  = let '(g1, n) := relateParents byId job g ps in
    match byId !! pid with
    | Some parent => (Relate GetName g1 (Some (jobItem parent)) (jobItem job), S n)
    | None => (g1, n)
    end.
Proof.
  unfold relateParents. rewrite foldl_app. simpl.
  now destruct (foldl _ _ ps) as [g1 n].
Qed.

Lemma relateParents_spec (byId : gmap Z BQJob) (job : BQJob) (g : Graph BQJob)
    (ps : list Z) :
  wf GetName g -> itemsFrom byId g -> (exists tid, byId !! tid = Some job) ->
  let g1 := fst (relateParents byId job g ps) in
  wf GetName g1 /\ itemsFrom byId g1 /\
  (forall a b, a ∈ parentsOf g b -> a ∈ parentsOf g1 b) /\
  (forall pid p, pid ∈ ps -> byId !! pid = Some p ->
     GetName p ∈ parentsOf g1 (GetName job)).
Proof.
  intros Hwf Hit Hjob. induction ps as [|pid ps IH] using rev_ind.
  { simpl. split; [exact Hwf|]. split; [exact Hit|]. split; [intros a b H; exact H|].
    intros pid p Hin. inversion Hin. }
  rewrite relateParents_snoc.
  destruct (relateParents byId job g ps) as [g1 n]. simpl in IH.
  destruct IH as (W & I & M & E).
  destruct (byId !! pid) as [parent|] eqn:Ep; cbn [fst].
  - split; [now apply wf_Relate|]. split; [|split].
    + intros k nd Hk.
      apply (Relate_items GetName
               (fun it => exists j tid, it = jobItem j /\ byId !! tid = Some j)
               g1 (Some (jobItem parent)) (jobItem job)) in Hk; [exact Hk | exact I | |].
      * destruct Hjob as [tid Ht]. eauto.
      * intros p [= <-]. eauto.
    + intros a b Hab. apply Relate_parentsOf_mono. now apply M.
    + intros pid' p Hin Hp. apply elem_of_app in Hin as [Hin|Hin].
      * apply Relate_parentsOf_mono. eapply E; eassumption.
      * apply list_elem_of_singleton in Hin as ->.
        rewrite Ep in Hp. injection Hp as <-.
        apply (Relate_parentsOf_new GetName g1 (jobItem parent) (jobItem job)).
  - split; [exact W|]. split; [exact I|]. split; [exact M|].
    intros pid' p Hin Hp. apply elem_of_app in Hin as [Hin|Hin]; [eauto|].
    apply list_elem_of_singleton in Hin as ->. congruence.
Qed.

Lemma graphFromJobsById_turn_spec (byId : gmap Z BQJob) (D : list BQJob)
    (g g' : Graph BQJob) (job : BQJob) :
  (exists tid, byId !! tid = Some job) ->
  graphInv byId D g ->
  graphFromJobsById_turn byId (inr g) job = inr g' ->
  graphInv byId (job :: D) g'.
Proof.
  intros Hjob [W I E]. unfold graphFromJobsById_turn.
  destruct (parentsList job) as [e|ps] eqn:Eps; [discriminate|].
  pose proof (relateParents_spec byId job g ps W I Hjob) as (W1 & I1 & M1 & E1).
  destruct (relateParents byId job g ps) as [g1 n]. cbn [fst] in *.
  intros [= <-].
  assert (Hmono : forall a b, a ∈ parentsOf g1 b ->
            a ∈ parentsOf (if (n =? 0)%nat
                           then Relate GetName g1 None (jobItem job) else g1) b).
  { intros a b Hab. destruct (n =? 0)%nat; [|exact Hab].
    now apply Relate_parentsOf_mono. }
  split.
  - destruct (n =? 0)%nat; [|exact W1].
    now apply (wf_Relate GetName g1 None (jobItem job)).
  - destruct (n =? 0)%nat; [|exact I1].
    intros k nd Hk.
    apply (Relate_items GetName
             (fun it => exists j tid, it = jobItem j /\ byId !! tid = Some j)
             g1 None (jobItem job)) in Hk; [exact Hk | exact I1 | | discriminate].
    destruct Hjob as [tid Ht]. eauto.
  - intros job' Hin. apply elem_of_cons in Hin as [->|Hin].
    + exists ps. split; [exact Eps|]. intros pid p Hpid Hp.
      apply Hmono. eapply E1; eassumption.
    + destruct (E job' Hin) as (ps' & Hps' & E'). exists ps'. split; [exact Hps'|].
      intros pid p Hpid Hp. apply Hmono, M1. eapply E'; eassumption.
Qed.

Lemma graphFromJobsById_fold_inl (byId : gmap Z BQJob) (e : string) (l : list BQJob) :
  foldl (graphFromJobsById_turn byId) (inl e) l = inl e.
Proof. induction l as [|j l IH]; [reflexivity | exact IH]. Qed.

Lemma graphFromJobsById_fold_spec (byId : gmap Z BQJob) (l : list BQJob) :
  forall (D : list BQJob) (g0 g : Graph BQJob),
    (forall j, j ∈ l -> exists tid, byId !! tid = Some j) ->
    graphInv byId D g0 ->
    foldl (graphFromJobsById_turn byId) (inr g0) l = inr g ->
    graphInv byId (reverse l ++ D) g.
Proof.
  induction l as [|j l IH]; intros D g0 g Hl Hinv H; cbn [foldl] in H.
  { injection H as <-. exact Hinv. }
  destruct (graphFromJobsById_turn byId (inr g0) j) as [e|g1] eqn:Et.
  { rewrite graphFromJobsById_fold_inl in H. discriminate. }
  rewrite reverse_cons, <- app_assoc. simpl.
  eapply IH; [| |exact H].
  - intros j' Hj'. apply Hl. now right.
  - eapply graphFromJobsById_turn_spec; [apply Hl; now left | exact Hinv | exact Et].
Qed.

Lemma graphFromJobsById_spec (byId : gmap Z BQJob) (g : Graph BQJob) :
  graphFromJobsById byId = inr g ->
  wf GetName g /\ itemsFrom byId g /\
  forall tid job, byId !! tid = Some job -> edgesOf byId g job.
Proof.
  intros H. unfold graphFromJobsById in H.
  assert (Hl : forall j, j ∈ snd <$> map_to_list byId ->
                 exists tid, byId !! tid = Some j).
  { intros j Hj. apply list_elem_of_fmap in Hj as ([tid j'] & -> & Hin).
    apply elem_of_map_to_list in Hin. eauto. }
  assert (H0 : graphInv byId [] NewGraph).
  { split; [apply wf_NewGraph | |].
    - intros k n Hk. unfold NewGraph in Hk. now rewrite lookup_empty in Hk.
    - intros job Hin. inversion Hin. }
  pose proof (graphFromJobsById_fold_spec byId _ [] NewGraph g Hl H0 H) as [W I E].
  split; [exact W|]. split; [exact I|].
  intros tid job Hjob. apply E. rewrite app_nil_r, elem_of_reverse.
  apply list_elem_of_fmap. exists (tid, job). split; [reflexivity|].
  now apply elem_of_map_to_list.
Qed.

(** ** The order of the range over the map *)

(** The graph has no node and no edge but those of the jobs processed. *)
Record graphOnly (byId : gmap Z BQJob) (D : list BQJob) (g : Graph BQJob) : Prop := {
  only_dom : forall job, job ∈ D -> GetName job ∈ dom g;
  only_edges : forall a b, a ∈ parentsOf g b ->
    exists job ps pid p, job ∈ D /\ b = GetName job /\ parentsList job = inr ps /\
      pid ∈ ps /\ byId !! pid = Some p /\ a = GetName p
}.

Lemma relateParents_only (byId : gmap Z BQJob) (job : BQJob) (g : Graph BQJob)
    (ps : list Z) :
  let g1 := fst (relateParents byId job g ps) in
  let n := snd (relateParents byId job g ps) in
  dom g ⊆ dom g1 /\ (n <> O -> GetName job ∈ dom g1) /\
  forall a b, a ∈ parentsOf g1 b ->
    a ∈ parentsOf g b \/
    (b = GetName job /\ exists pid p, pid ∈ ps /\ byId !! pid = Some p /\ a = GetName p).
Proof.
  induction ps as [|pid ps IH] using rev_ind.
  { cbn. split; [reflexivity|]. split; [congruence | auto]. }
  rewrite relateParents_snoc.
  destruct (relateParents byId job g ps) as [g1 n]. cbn [fst snd] in IH.
  destruct IH as (Hd & Hn & He).
  assert (Hps : forall a b,
            (b = GetName job /\ exists pid' p, pid' ∈ ps /\ byId !! pid' = Some p /\ a = GetName p) ->
            b = GetName job /\ exists pid' p, pid' ∈ ps ++ [pid] /\ byId !! pid' = Some p /\ a = GetName p).
  { intros a b (-> & pid' & p & Hin & Hp & ->). split; [reflexivity|].
    exists pid', p. rewrite elem_of_app. auto. }
  destruct (byId !! pid) as [parent|] eqn:Ep; cbn [fst snd].
  - split; [|split].
    + rewrite (Relate_dom GetName). set_solver.
    + intros _. rewrite (Relate_dom GetName). cbn [itemName]. set_solver.
    + intros a b. rewrite (Relate_parentsOf GetName). cbn [itemName].
      rewrite elem_of_union. intros [Hab|Hab].
      * destruct (He a b Hab) as [Hl|Hr]; [now left | right; now apply Hps].
      * destruct (decide (b = GetName job)) as [->|_]; [|set_solver].
        apply elem_of_singleton in Hab as ->. right. split; [reflexivity|].
        exists pid, parent. rewrite elem_of_app, list_elem_of_singleton. auto.
  - split; [exact Hd|]. split; [exact Hn|].
    intros a b Hab. destruct (He a b Hab) as [Hl|Hr]; [now left | right; now apply Hps].
Qed.

Lemma graphFromJobsById_turn_only (byId : gmap Z BQJob) (D : list BQJob)
    (g g' : Graph BQJob) (job : BQJob) :
  graphOnly byId D g ->
  graphFromJobsById_turn byId (inr g) job = inr g' ->
  graphOnly byId (job :: D) g'.
Proof.
  intros [Hdom Hedges]. unfold graphFromJobsById_turn.
  destruct (parentsList job) as [e|ps] eqn:Eps; [discriminate|].
  pose proof (relateParents_only byId job g ps) as (Hd & Hn & He).
  destruct (relateParents byId job g ps) as [g1 n]. cbn [fst snd] in *.
  intros [= <-].
  assert (Hsub : dom g1 ⊆ dom (if (n =? 0)%nat
                              then Relate GetName g1 None (jobItem job) else g1)).
  { destruct (n =? 0)%nat; [|reflexivity].
    rewrite ?(Relate_nil GetName), (addItem_dom GetName). set_solver. }
  split.
  - intros job' Hin. apply elem_of_cons in Hin as [->|Hin].
    + destruct (n =? 0)%nat eqn:En.
      * rewrite ?(Relate_nil GetName), (addItem_dom GetName). cbn [itemName]. set_solver.
      * apply Hn. now apply Nat.eqb_neq in En.
    + apply Hsub, Hd. now apply Hdom.
  - intros a b Hab.
    assert (Hab1 : a ∈ parentsOf g1 b).
    { destruct (n =? 0)%nat; [|exact Hab].
      now rewrite ?(Relate_nil GetName), (addItem_parentsOf GetName) in Hab. }
    destruct (He a b Hab1) as [Hg|(-> & pid & p & Hpid & Hp & ->)].
    + destruct (Hedges a b Hg) as (job' & ps' & pid & p & Hin & H).
      exists job', ps', pid, p. split; [now right | exact H].
    + exists job, ps, pid, p. split; [now left|]. auto.
Qed.

Lemma graphFromJobsById_fold_only (byId : gmap Z BQJob) (l : list BQJob) :
  forall (D : list BQJob) (g0 g : Graph BQJob),
    graphOnly byId D g0 ->
    foldl (graphFromJobsById_turn byId) (inr g0) l = inr g ->
    graphOnly byId (reverse l ++ D) g.
Proof.
  induction l as [|j l IH]; intros D g0 g Hinv H; cbn [foldl] in H.
  { injection H as <-. exact Hinv. }
  destruct (graphFromJobsById_turn byId (inr g0) j) as [e|g1] eqn:Et.
  { rewrite graphFromJobsById_fold_inl in H. discriminate. }
  rewrite reverse_cons, <- app_assoc. simpl.
  eapply IH; [|exact H]. eapply graphFromJobsById_turn_only; eassumption.
Qed.

(** The loop fails only with the error of the decoding of a parents
    column, and succeeds when every column decodes. *)
Lemma parentsList_error (job : BQJob) (e : string) :
  parentsList job = inl e -> e = "invalid character".
Proof.
  unfold parentsList. destruct (Parents job) as [[ps| |]|]; simpl; congruence.
Qed.

Lemma graphFromJobsById_fold_error (byId : gmap Z BQJob) (l : list BQJob) :
  forall (g0 : Graph BQJob) (e : string),
    foldl (graphFromJobsById_turn byId) (inr g0) l = inl e -> e = "invalid character".
Proof.
  induction l as [|j l IH]; intros g0 e H; cbn [foldl] in H; [discriminate|].
  destruct (graphFromJobsById_turn byId (inr g0) j) as [e'|g1] eqn:Et.
  - rewrite graphFromJobsById_fold_inl in H. injection H as <-.
    unfold graphFromJobsById_turn in Et.
    destruct (parentsList j) as [e''|ps] eqn:Eps.
    + injection Et as <-. eapply parentsList_error, Eps.
    + now destruct (relateParents byId j g0 ps).
  - eapply IH, H.
Qed.

Lemma graphFromJobsById_fold_returns (byId : gmap Z BQJob) (l : list BQJob) :
  forall g0 : Graph BQJob,
    (forall j, j ∈ l -> exists ps, parentsList j = inr ps) ->
    exists g, foldl (graphFromJobsById_turn byId) (inr g0) l = inr g.
Proof.
  induction l as [|j l IH]; intros g0 H; cbn [foldl]; [eauto|].
  destruct (H j) as [ps Hps]; [now left|].
  unfold graphFromJobsById_turn at 2. rewrite Hps.
  destruct (relateParents byId j g0 ps) as [g1 n].
  apply IH. intros j' Hj'. apply H. now right.
Qed.

Lemma graph_ext (g1 g2 : Graph BQJob) :
  (forall k, itemOf g1 k = itemOf g2 k) ->
  (forall k, parentsOf g1 k = parentsOf g2 k) ->
  (forall k, childrenOf g1 k = childrenOf g2 k) ->
  g1 = g2.
Proof.
  intros Hi Hp Hc. apply map_eq. intros k.
  specialize (Hi k). specialize (Hp k). specialize (Hc k).
  unfold itemOf, parentsOf, childrenOf in *.
  destruct (g1 !! k) as [[i1 c1 p1]|], (g2 !! k) as [[i2 c2 p2]|];
    simpl in *; congruence.
Qed.

Section AnyOrder.

Variable byId : gmap Z BQJob.
Hypothesis byId_key : forall k j, byId !! k = Some j -> TableId j = k.

Lemma graphFromJobsById_fold_sub (la lb : list BQJob) (ga gb : Graph BQJob) :
  (forall j, j ∈ la <-> exists tid, byId !! tid = Some j) ->
  (forall j, j ∈ lb <-> exists tid, byId !! tid = Some j) ->
  foldl (graphFromJobsById_turn byId) (inr NewGraph) la = inr ga ->
  foldl (graphFromJobsById_turn byId) (inr NewGraph) lb = inr gb ->
  (forall k, k ∈ dom ga -> k ∈ dom gb) /\
  (forall a b, a ∈ parentsOf ga b -> a ∈ parentsOf gb b).
Proof.
  intros Ha Hb Ea Eb.
  assert (H0 : graphInv byId [] NewGraph).
  { split; [apply wf_NewGraph | |].
    - intros k n Hk. unfold NewGraph in Hk. now rewrite lookup_empty in Hk.
    - intros job Hin. inversion Hin. }
  assert (O0 : graphOnly byId [] NewGraph).
  { split.
    - intros job Hin. inversion Hin.
    - intros a b Hab. unfold parentsOf, NewGraph in Hab.
      rewrite lookup_empty in Hab. set_solver. }
  pose proof (graphFromJobsById_fold_spec byId la [] _ ga
                (fun j Hj => proj1 (Ha j) Hj) H0 Ea) as [Wa Ia _].
  pose proof (graphFromJobsById_fold_only byId la [] _ ga O0 Ea) as [_ Oa].
  pose proof (graphFromJobsById_fold_spec byId lb [] _ gb
                (fun j Hj => proj1 (Hb j) Hj) H0 Eb) as [_ _ Eb'].
  pose proof (graphFromJobsById_fold_only byId lb [] _ gb O0 Eb) as [Db _].
  assert (Hin : forall j tid, byId !! tid = Some j -> j ∈ reverse lb ++ []).
  { intros j tid Hj. rewrite app_nil_r, elem_of_reverse. apply Hb. eauto. }
  split.
  - intros k Hk. apply elem_of_dom in Hk as [n Hn].
    destruct (Ia k n Hn) as (j & tid & Hitem & Hj).
    pose proof (wf_key _ _ Wa k n Hn) as Hname. rewrite Hitem in Hname.
    cbn [itemName] in Hname. subst k. apply Db. eapply Hin, Hj.
  - intros a b Hab.
    destruct (Oa a b Hab) as (job & ps & pid & p & Hjob & -> & Hps & Hpid & Hp & ->).
    rewrite app_nil_r, elem_of_reverse in Hjob. apply Ha in Hjob as [tid Htid].
    destruct (Eb' job (Hin job tid Htid)) as (ps' & Hps' & He).
    rewrite Hps in Hps'. injection Hps' as <-. eapply He; eassumption.
Qed.

Lemma graphFromJobsById_fold_determined (la lb : list BQJob) (ga gb : Graph BQJob) :
  (forall j, j ∈ la <-> exists tid, byId !! tid = Some j) ->
  (forall j, j ∈ lb <-> exists tid, byId !! tid = Some j) ->
  foldl (graphFromJobsById_turn byId) (inr NewGraph) la = inr ga ->
  foldl (graphFromJobsById_turn byId) (inr NewGraph) lb = inr gb ->
  ga = gb.
Proof.
  intros Ha Hb Ea Eb.
  destruct (graphFromJobsById_fold_sub la lb ga gb Ha Hb Ea Eb) as [Dab Pab].
  destruct (graphFromJobsById_fold_sub lb la gb ga Hb Ha Eb Ea) as [Dba Pba].
  assert (H0 : graphInv byId [] NewGraph).
  { split; [apply wf_NewGraph | |].
    - intros k n Hk. unfold NewGraph in Hk. now rewrite lookup_empty in Hk.
    - intros job Hin. inversion Hin. }
  pose proof (graphFromJobsById_fold_spec byId la [] _ ga
                (fun j Hj => proj1 (Ha j) Hj) H0 Ea) as [Wa Ia _].
  pose proof (graphFromJobsById_fold_spec byId lb [] _ gb
                (fun j Hj => proj1 (Hb j) Hj) H0 Eb) as [Wb Ib _].
  assert (Hpar : forall k, parentsOf ga k = parentsOf gb k).
  { intros k. apply set_eq. intros a. split; [apply Pab | apply Pba]. }
  apply graph_ext; [|exact Hpar|].
  - intros k. unfold itemOf.
    destruct (ga !! k) as [na|] eqn:Eka, (gb !! k) as [nb|] eqn:Ekb; simpl.
    + destruct (Ia k na Eka) as (ja & ta & Hia & Hja).
      destruct (Ib k nb Ekb) as (jb & tb & Hib & Hjb).
      pose proof (wf_key _ _ Wa k na Eka) as Hna. rewrite Hia in Hna.
      pose proof (wf_key _ _ Wb k nb Ekb) as Hnb. rewrite Hib in Hnb.
      cbn [itemName] in Hna, Hnb. unfold GetName in Hna, Hnb.
      assert (Ht : TableId ja = TableId jb) by (apply (inj pretty); congruence).
      rewrite (byId_key _ _ Hja), (byId_key _ _ Hjb) in Ht. subst tb.
      rewrite Hia, Hib. congruence.
    + exfalso. assert (Hk : k ∈ dom gb) by (apply Dab, elem_of_dom; eauto).
      apply elem_of_dom in Hk as [n Hn]. congruence.
    + exfalso. assert (Hk : k ∈ dom ga) by (apply Dba, elem_of_dom; eauto).
      apply elem_of_dom in Hk as [n Hn]. congruence.
    + reflexivity.
  - intros k. apply set_eq. intros b.
    rewrite <- (wf_sym _ _ Wa), <- (wf_sym _ _ Wb), Hpar. reflexivity.
Qed.

(** Whatever the order in which the loop of [graphFromJobsById] meets the
    jobs of the map, the result is the same. *)
Lemma graphFromJobsById_any_order (l : list BQJob) :
  l ≡ₚ snd <$> map_to_list byId ->
  foldl (graphFromJobsById_turn byId) (inr NewGraph) l = graphFromJobsById byId.
Proof.
  intros Hperm. unfold graphFromJobsById.
  assert (Hall : forall j, j ∈ snd <$> map_to_list byId <-> exists tid, byId !! tid = Some j).
  { intros j. rewrite list_elem_of_fmap. split.
    - intros ([tid j'] & -> & Hin). apply elem_of_map_to_list in Hin. eauto.
    - intros [tid Hj]. exists (tid, j). split; [reflexivity|].
      now apply elem_of_map_to_list. }
  assert (Hl : forall j, j ∈ l <-> exists tid, byId !! tid = Some j).
  { intros j. now rewrite Hperm. }
  assert (H0 : graphInv byId [] NewGraph).
  { split; [apply wf_NewGraph | |].
    - intros k n Hk. unfold NewGraph in Hk. now rewrite lookup_empty in Hk.
    - intros job Hin. inversion Hin. }
  assert (Hdec : forall la lb ga,
            (forall j, j ∈ la <-> exists tid, byId !! tid = Some j) ->
            (forall j, j ∈ lb <-> exists tid, byId !! tid = Some j) ->
            foldl (graphFromJobsById_turn byId) (inr NewGraph) la = inr ga ->
            exists gb, foldl (graphFromJobsById_turn byId) (inr NewGraph) lb = inr gb).
  { intros la lb ga Ha Hb Ea. apply graphFromJobsById_fold_returns.
    intros j Hj. apply Hb, Ha in Hj.
    pose proof (graphFromJobsById_fold_spec byId la [] _ ga
                  (fun j Hj => proj1 (Ha j) Hj) H0 Ea) as [_ _ E].
    destruct (E j) as (ps & Hps & _); [|eauto].
    now rewrite app_nil_r, elem_of_reverse. }
  destruct (foldl _ _ l) as [e1|g1] eqn:E1,
           (foldl _ _ (snd <$> map_to_list byId)) as [e2|g2] eqn:E2.
  - apply graphFromJobsById_fold_error in E1, E2. congruence.
  - destruct (Hdec _ l g2 Hall Hl E2) as [g Hg]. congruence.
  - destruct (Hdec _ (snd <$> map_to_list byId) g1 Hl Hall E1) as [g Hg]. congruence.
  - f_equal.
    exact (graphFromJobsById_fold_determined l (snd <$> map_to_list byId) g1 g2
             Hl Hall E1 E2).
Qed.

End AnyOrder.

(** The map of [loadRunUnfinishedJobGraph] is keyed by the table ids of
    its jobs, so the order of the range does not matter for its graph. *)
Lemma loadRunUnfinishedJobGraph_any_order (r : Run) (m : Model)
    (byId : gmap Z BQJob) (l : list BQJob) :
  collectUnfinished r (SelectBQJobsByRunId m (rId r)) ∅ 0 = inr byId ->
  l ≡ₚ snd <$> map_to_list byId ->
  foldl (graphFromJobsById_turn byId) (inr NewGraph) l = loadRunUnfinishedJobGraph r m.
Proof.
  intros Ec Hl. unfold loadRunUnfinishedJobGraph. rewrite Ec.
  apply graphFromJobsById_any_order; [|exact Hl].
  destruct (collectUnfinished_spec r _ _ _ _ Ec) as [K _]. apply K.
  intros k j Hk. now rewrite lookup_empty in Hk.
Qed.

(** ** The trace of a cycle *)

(** The columns of two records of one job agree. *)
Definition sameJob (J job : BQJob) : Prop :=
  Id J = Id job /\ TableId J = TableId job /\ Parents J = Parents job /\
  BQJobId J = BQJobId job /\ Type_ J = Type_ job.

(** [m'] has the trace of [m] and more, and every job started in the
    added stretch satisfies [P]. *)
Definition extends (P : BQJob -> Prop) (m m' : Model) : Prop :=
  exists new, events m' = events m ++ new /\
    forall e J, e ∈ new -> startedJob e = Some J -> P J.

Lemma extends_same (P : BQJob -> Prop) (m m' : Model) :
  events m' = events m -> extends P m m'.
Proof.
  intros H. exists []. rewrite app_nil_r. split; [exact H|].
  intros e J He. inversion He.
Qed.

Lemma extends_trans (P : BQJob -> Prop) (m1 m2 m3 : Model) :
  extends P m1 m2 -> extends P m2 m3 -> extends P m1 m3.
Proof.
  intros (n1 & E1 & H1) (n2 & E2 & H2). exists (n1 ++ n2).
  rewrite E2, E1, app_assoc. split; [reflexivity|].
  intros e J He. apply elem_of_app in He as [He|He]; eauto.
Qed.

Lemma extends_addEvent (P : BQJob -> Prop) (m : Model) (e : event) :
  (forall J, startedJob e = Some J -> P J) -> extends P m (addEvent m e).
Proof.
  intros H. exists [e]. split; [reflexivity|].
  intros e' J He. apply list_elem_of_singleton in He as ->. apply H.
Qed.

Lemma extends_impl (P Q : BQJob -> Prop) (m m' : Model) :
  (forall J, P J -> Q J) -> extends P m m' -> extends Q m m'.
Proof. intros H (new & E & Hn). exists new. split; [exact E|]. eauto. Qed.

Lemma SaveTable_events (m : Model) (t : Table) : events (SaveTable m t) = events m.
Proof. unfold SaveTable. now destruct (tables m !! tId t). Qed.

Lemma sameJob_refl (job : BQJob) : sameJob job job.
Proof. repeat split. Qed.

Lemma sameJob_getConfig (job : BQJob) : sameJob (snd (getConfig job)) job.
Proof. pose proof (getConfig_same_columns job) as H. cbv zeta in H. unfold sameJob. tauto. Qed.

Lemma StartJob_extends (P : BQJob -> Prop) (m : Model) (job : BQJob)
    (conf : JobConfiguration) :
  P job -> extends P m (snd (StartJob m job conf)).
Proof.
  intros H. exists [StartJobCalled job conf
                      (match bqReply m (bqCalls m) conf with
                       | inr _ => true | inl _ => false end)].
  split; [reflexivity|].
  intros e J He. apply list_elem_of_singleton in He as ->. now intros [= <-].
Qed.

Lemma submitJob_extends (job : BQJob) (m : Model) :
  extends (fun J => sameJob J job) m (snd (submitJob job m)).
Proof.
  unfold submitJob. pose proof (sameJob_getConfig job) as Hs.
  destruct (getConfig job) as [[e|conf] job1]; cbn [snd] in *.
  { now apply extends_same. }
  pose proof (StartJob_extends (fun J => sameJob J job) m job1 conf Hs) as H1.
  destruct (StartJob m job1 conf) as [[e|bqJob] m1]; cbn [snd] in *.
  - destruct (Contains e temporaryErr); [|exact H1].
    cbv zeta.
    pose proof (StartJob_extends (fun J => sameJob J job)
                  (addEvent m1 (Slept (10 * Second))) job1 conf Hs) as H2.
    assert (H3 : extends (fun J => sameJob J job) m
                   (snd (StartJob (addEvent m1 (Slept (10 * Second))) job1 conf))).
    { eapply extends_trans; [exact H1|]. eapply extends_trans; [|exact H2].
      apply extends_addEvent. discriminate. }
    now destruct (StartJob (addEvent m1 (Slept (10 * Second))) job1 conf) as [[e2|b] m3].
  - cbv zeta. eapply extends_trans; [exact H1|]. now apply extends_same.
Qed.

Lemma queueImport_extends (t : Table) (job : BQJob) (m : Model) :
  extends (fun J => sameJob J job) m (snd (queueImport t job m)).
Proof.
  unfold queueImport. case_decide; [|now apply extends_same].
  unfold importFileName. pose proof (sameJob_getConfig job) as Hs.
  destruct (getConfig job) as [[e|cfg] job1]; cbn [snd] in *.
  { now apply extends_same. }
  destruct (cfgLoadSourceUris cfg) as [[|uri l]|]; try now apply extends_same.
  destruct (ParseGcsUri uri) as [e|[b fn]]; [now apply extends_same|].
  cbv zeta. cbn [snd].
  eapply extends_trans; [|apply extends_addEvent].
  - now apply extends_same.
  - now intros J [= <-].
Qed.

Lemma startExternalWait_extends (t : Table) (job : BQJob) (m : Model) :
  extends (fun J => sameJob J job) m (snd (startExternalWait t m (Some job))).
Proof.
  unfold startExternalWait.
  destruct (negb (IsExternal t)); [now apply extends_same|].
  destruct (hasExternalWait t m); [now apply extends_same|].
  unfold setRunning. cbv zeta. cbn [snd].
  eapply extends_trans; [|apply extends_addEvent].
  - apply extends_same. cbn. apply SaveTable_events.
  - intros J [= <-]. apply sameJob_refl.
Qed.

(** The body of the loop starts no other job than its own, and only when
    the cached error and the warehouse-side id of the job are empty. *)
Lemma processReady_job_extends (job : BQJob) (m : Model) :
  extends (fun J => sameJob J job /\ error job = "" /\ BQJobId job = "")
    m (fst (processReady_job job m)).
Proof.
  unfold processReady_job.
  destruct (String.eqb (error job) "") eqn:Ee; cbn [negb];
    [|now apply extends_same].
  destruct (String.eqb (BQJobId job) "") eqn:Eb; [|now apply extends_same].
  apply String.eqb_eq in Ee, Eb.
  apply (extends_impl (fun J => sameJob J job)); [tauto|].
  destruct (String.eqb (Type_ job) "load").
  - destruct (decide (_ = ImpError)) as [Hd1|Hd1]; [now apply extends_same|].
    destruct (decide (_ = ImpNone)) as [Hd2|Hd2]; [|now apply extends_same].
    destruct (SelectTable m (TableId job)) as [t|]; [|now apply extends_same].
    destruct (IsImport t).
    + unfold setRunning. cbv zeta.
      pose proof (queueImport_extends (withRunning t true) job
                    (SaveTable m (withRunning t true))) as H.
      destruct (queueImport _ job _) as [o m2]. cbn [fst snd] in *.
      eapply extends_trans; [|exact H]. apply extends_same, SaveTable_events.
    + destruct (IsExternal t && negb (hasExternalWait t m)); [|now apply extends_same].
      pose proof (startExternalWait_extends t job m) as H.
      now destruct (startExternalWait t m (Some job)) as [[o t1] m1].
  - destruct (SelectTable m (TableId job)) as [t|]; [|now apply extends_same].
    unfold setRunning. cbv zeta.
    set (t1 := withRunning (withError t (tRunning t) "") true).
    pose proof (submitJob_extends job (SaveTable m t1)) as H.
    assert (H0 : extends (fun J => sameJob J job) m (snd (submitJob job (SaveTable m t1)))).
    { eapply extends_trans; [|exact H]. apply extends_same, SaveTable_events. }
    destruct (submitJob job (SaveTable m t1)) as [[[e|] job1] m2]; cbn [fst snd] in *.
    + unfold setError. cbv zeta. cbn [fst].
      eapply extends_trans; [exact H0|]. apply extends_same, SaveTable_events.
    + eapply extends_trans; [exact H0|]. apply extends_addEvent. discriminate.
Qed.

Lemma processReady_extends (ready : list (Item BQJob)) :
  forall m : Model,
    extends (fun J => exists job, jobItem job ∈ ready /\ sameJob J job /\
                        error job = "" /\ BQJobId job = "")
      m (fst (processReady ready m)).
Proof.
  induction ready as [|[job|] rest IH]; intros m; cbn [processReady].
  - now apply extends_same.
  - pose proof (processReady_job_extends job m) as H.
    assert (H' : extends (fun J => exists job0, jobItem job0 ∈ jobItem job :: rest /\
                            sameJob J job0 /\ error job0 = "" /\ BQJobId job0 = "")
                   m (fst (processReady_job job m))).
    { revert H. apply extends_impl. intros J HJ. exists job. split; [now left | exact HJ]. }
    destruct (processReady_job job m) as [m1 [[e|]| |]]; cbn [fst] in *; try exact H'.
    eapply extends_trans; [exact H'|].
    generalize (IH m1). apply extends_impl.
    intros J (job0 & Hin & HJ). exists job0. split; [now right | exact HJ].
  - now apply extends_same.
Qed.

Lemma collectUnfinished_values (r : Run) (jobs : list BQJob) :
  forall (byId byId' : gmap Z BQJob) (errCnt : Z),
    collectUnfinished r jobs byId errCnt = inr byId' ->
    forall k j, byId' !! k = Some j ->
      byId !! k = Some j \/ exists P, P ∈ jobs /\ cacheStatus P = inr j.
Proof.
  induction jobs as [|j0 rest IH]; intros byId byId' errCnt H k j Hk; simpl in H.
  { injection H as <-. now left. }
  destruct (cacheStatus j0) as [e|j1] eqn:Ec; [discriminate|].
  assert (Hrest : forall P, (exists P', P' ∈ rest /\ cacheStatus P' = inr P) ->
                    exists P', P' ∈ j0 :: rest /\ cacheStatus P' = inr P).
  { intros P (P' & Hin & HP). exists P'. split; [now right | exact HP]. }
  destruct (Contains (error j1) bqSchemaErr).
  { destruct (IH _ _ _ H k j Hk) as [Hl|Hr]; [now left | right; now apply Hrest]. }
  destruct (IH _ _ _ H k j Hk) as [Hl|Hr]; [|right; now apply Hrest].
  destruct (unfinished r j1 _); [|now left].
  rewrite lookup_insert in Hl. destruct (decide (TableId j1 = k)) as [_|_]; [|now left].
  injection Hl as <-. right. exists j0. split; [now left | exact Ec].
Qed.

(** ** The cycle returns *)

Lemma processReady_job_fuel (job : BQJob) (m : Model) :
  snd (processReady_job job m) <> OutOfFuel.
Proof.
  unfold processReady_job.
  destruct (negb (String.eqb (error job) "")); [discriminate|].
  destruct (String.eqb (BQJobId job) ""); [|discriminate].
  destruct (String.eqb (Type_ job) "load").
  - destruct (decide (_ = ImpError)) as [Hd1|Hd1]; [discriminate|].
    destruct (decide (_ = ImpNone)) as [Hd2|Hd2]; [|discriminate].
    destruct (SelectTable m (TableId job)) as [t|]; [|discriminate].
    destruct (IsImport t).
    + unfold setRunning. cbv zeta. now destruct (queueImport _ job _).
    + destruct (IsExternal t && negb (hasExternalWait t m)); [|discriminate].
      now destruct (startExternalWait t m (Some job)) as [[o t1] m1].
  - destruct (SelectTable m (TableId job)) as [t|]; [|discriminate].
    unfold setRunning. cbv zeta.
    destruct (submitJob job _) as [[[e|] job1] m2]; [|discriminate].
    unfold setError. cbv zeta. discriminate.
Qed.

Lemma processReady_fuel (ready : list (Item BQJob)) :
  forall m : Model, snd (processReady ready m) <> OutOfFuel.
Proof.
  induction ready as [|[job|] rest IH]; intros m; cbn [processReady];
    try discriminate.
  pose proof (processReady_job_fuel job m) as H.
  destruct (processReady_job job m) as [m1 [[e|]| |]]; cbn [snd] in *;
    try discriminate; [apply IH | contradiction].
Qed.

(** The traversals of the cycle end within their fuel. *)
Lemma processCycle_fuel (r : Run) (now : Time) (m : Model) :
  snd (processCycle r now m) <> OutOfFuel.
Proof.
  unfold processCycle, loadRunUnfinishedJobGraph.
  destruct (collectUnfinished r (SelectBQJobsByRunId m (rId r)) ∅ 0)
    as [e|byId]; [discriminate|].
  destruct (graphFromJobsById byId) as [e|g] eqn:Eg; [discriminate|].
  destruct (size g =? 0)%nat; [discriminate|].
  destruct (graphFromJobsById_spec byId g Eg) as (Hwf & _).
  destruct (ReadyItems_returns GetName g Hwf) as (g1 & ready & err & ->).
  destruct err as [e|]; [discriminate|].
  pose proof (processReady_fuel ready m) as H.
  now destruct (processReady ready m) as [m1 o].
Qed.

(** ** Scenario: a parent with a schema-mismatch error *)

Definition failedLoad (id tableId runId : Z) (msg : string) : BQJob :=
  {| Id := id; TableId := tableId; RunId := Some runId; Parents := None;
     BQJobId := "job_load"; Type_ := "load"; Configuration := None;
     Status := Some (Json {| State := "DONE"; ErrorResult := Some msg |});
     EndTime := Some 1; bqConfig := None; state := ""; error := "" |}.

Definition schemaMsg : string :=
  "Provided Schema does not match Table proj:ds.A. Field n has changed type".

(** Table 2 is computed from table 1; the load of table 1 has ended with
    the error [msg]. *)
Definition failedParentModel (msg : string) : Model :=
  {| tables := {[ 1 := summaryTable 1 "A"; 2 := summaryTable 2 "B" ]};
     bq_jobs := [failedLoad 10 1 7 msg; pendingQuery 11 2 7 (Some (Json [1]))];
     imports := ∅; importQueue := []; externalWaits := ∅; waiters := [];
     closedChans := ∅; nextChan := 0;
     bqReply := alwaysStarts; bqCalls := 0; events := [] |}.

(** Run 7, resumed with up to two errors to tolerate. *)
Definition run7resumed : Run :=
  {| rId := 7; rEndTime := None; rError := None; ignoreErrors := false; maxErrCnt := 2 |}.

(** The jobs of a run with their cached fields, as the loop of
    [loadRunUnfinishedJobGraph] sees them. *)
Definition cachedJobs (m : Model) (runId : Z) : list BQJob :=
  omap (fun j => match cacheStatus j with inr j1 => Some j1 | inl _ => None end)
    (SelectBQJobsByRunId m runId).

(** C1, as stated, fails: the job of table 2 lists table 1 as its parent,
    the job of table 1 in the same run is done with the schema-mismatch
    error, and the cycle submits the job of table 2 all the same.  In a
    run resumed with errors to tolerate, the same happens with any error
    of the parent. *)
Lemma processCycle_submits_child_of_failed_parent :
  state <$> cachedJobs (failedParentModel schemaMsg) 7 = ["DONE"; ""] /\
  error <$> cachedJobs (failedParentModel schemaMsg) 7 = [schemaMsg; ""] /\
  TableId <$> cachedJobs (failedParentModel schemaMsg) 7 = [1; 2] /\
  parentsList <$> cachedJobs (failedParentModel schemaMsg) 7 = [inr []; inr [1]] /\
  processCycle run7 0 (failedParentModel schemaMsg)
  = (fst (fst (processCycle run7 0 (failedParentModel schemaMsg))), run7, Done None) /\
  submitted (events (fst (fst (processCycle run7 0 (failedParentModel schemaMsg))))) = [11] /\
  submitted (events (fst (fst (processCycle run7resumed 0
                                 (failedParentModel "Syntax error"))))) = [11] /\
  submitted (events (fst (fst (processCycle run7 0
                                 (failedParentModel "Syntax error"))))) = [].
Proof. vm_compute. repeat split; reflexivity. Qed.

(** C1.  Every job that a cycle of [processCycle] hands to the warehouse,
    to the import queue or to an external wait is a job of the run with
    an empty warehouse-side id and an empty cached error, the parents
    column of the job decodes, and every job of the run whose table id is
    listed there is left out of the unfinished-job map: it carries the
    schema-mismatch error, or it is done with an empty error, or it is
    done in a run resumed with errors to tolerate.  The cycle ends: its
    traversals of the graph stay within their fuel. *)
Theorem processCycle_starts_only_after_parents_left_out :
  forall (r : Run) (now : Time) (m : Model),
  snd (processCycle r now m) <> OutOfFuel /\
  exists new,
    events (fst (fst (processCycle r now m))) = events m ++ new /\
    forall e J, e ∈ new -> startedJob e = Some J ->
      BQJobId J = "" /\
      (exists J0 J1, J0 ∈ SelectBQJobsByRunId m (rId r) /\
                     cacheStatus J0 = inr J1 /\ sameJob J J1 /\ error J1 = "") /\
      exists ps, parentsList J = inr ps /\
        forall pid P P1, pid ∈ ps -> P ∈ SelectBQJobsByRunId m (rId r) ->
          cacheStatus P = inr P1 -> TableId P1 = pid -> leftOut r P1.
Proof.
  intros r now m. split; [apply processCycle_fuel|].
  assert (Hnone : forall m', events m' = events m ->
            exists new, events m' = events m ++ new /\
              forall e J, e ∈ new -> startedJob e = Some J ->
                BQJobId J = "" /\
                (exists J0 J1, J0 ∈ SelectBQJobsByRunId m (rId r) /\
                   cacheStatus J0 = inr J1 /\ sameJob J J1 /\ error J1 = "") /\
                exists ps, parentsList J = inr ps /\
                  forall pid P P1, pid ∈ ps -> P ∈ SelectBQJobsByRunId m (rId r) ->
                    cacheStatus P = inr P1 -> TableId P1 = pid -> leftOut r P1).
  { intros m' E. exists []. rewrite app_nil_r. split; [exact E|].
    intros e J He. inversion He. }
  unfold processCycle, loadRunUnfinishedJobGraph.
  destruct (collectUnfinished r (SelectBQJobsByRunId m (rId r)) ∅ 0)
    as [e|byId] eqn:Ec; [now apply Hnone|].
  destruct (graphFromJobsById byId) as [e|g] eqn:Eg; [now apply Hnone|].
  destruct (size g =? 0)%nat; [now apply Hnone|].
  destruct (ReadyItems GetName g) as [[[g1 ready] [e|]]| |] eqn:Er;
    try now apply Hnone.
  pose proof (processReady_extends ready m) as (new & E & Hnew).
  destruct (processReady ready m) as [m1 o]. cbn [fst] in *.
  exists new. split; [exact E|].
  intros e J He Hs. destruct (Hnew e J He Hs) as (job & Hin & HJ & Herr & Hbq).
  destruct (graphFromJobsById_spec byId g Eg) as (Hwf & Hitems & Hedges).
  destruct (ReadyItems_no_parents GetName g g1 ready None Hwf Er _ Hin)
    as (_ & n & Hn & Hitem & Hpar).
  destruct (Hitems _ _ Hn) as (j & tid & Hj & Htid).
  assert (j = job) as -> by congruence.
  destruct (collectUnfinished_spec r _ _ _ _ Ec) as [_ Hout].
  destruct (collectUnfinished_values r _ _ _ _ Ec tid job Htid) as [Hemp|(J0 & HJ0 & HcJ0)].
  { now rewrite lookup_empty in Hemp. }
  split; [destruct HJ as (_ & _ & _ & -> & _); exact Hbq|].
  split; [exists J0, job; auto|].
  destruct (Hedges tid job Htid) as (ps & Hps & Hpar').
  exists ps. split.
  { unfold parentsList in *. destruct HJ as (_ & _ & -> & _). exact Hps. }
  intros pid P P1 Hpid HP HcP Ht.
  destruct (byId !! pid) as [p|] eqn:Ep.
  - exfalso. specialize (Hpar' pid p Hpid Ep).
    unfold parentsOf in Hpar'. cbn [itemName] in Hn. rewrite Hn, Hpar in Hpar'.
    set_solver.
  - destruct (Hout pid Ep) as [_ Hl]. eapply Hl; eassumption.
Qed.

(** ** Scenario: the retried submission *)

(** C2 at one pending query job and a warehouse whose first reply is the
    temporary error: the first cycle submits the job on the retry,
    returns nil and leaves the warehouse-side id of the row empty; the
    second cycle, with nothing changed in between, submits the job
    again. *)
Lemma processCycle_resubmits_after_retry :
  snd (processCycle run7 0 oneJobModel) = Done None /\
  submitted (events (cycle oneJobModel)) = [10] /\
  BQJobId <$> bq_jobs (cycle oneJobModel) = [""] /\
  bq_jobs (cycle oneJobModel) = bq_jobs oneJobModel /\
  snd (processCycle run7 0 (cycle oneJobModel)) = Done None /\
  submitted (drop (length (events (cycle oneJobModel)))
               (events (cycle (cycle oneJobModel)))) = [10] /\
  BQJobId <$> bq_jobs (cycle (cycle oneJobModel)) = ["job_2"] /\
  submitted (drop (length (events (cycle (cycle oneJobModel))))
               (events (cycle (cycle (cycle oneJobModel))))) = [].
Proof. vm_compute. repeat split; reflexivity. Qed.

(** ** The registry of external waits, as a caller sees it *)

Lemma hasExternalWait_false (t : Table) (m : Model) :
  hasExternalWait t m = false <-> externalWaits m !! tId t = None.
Proof.
  unfold hasExternalWait. rewrite bool_decide_eq_false.
  destruct (externalWaits m !! tId t); split; intros H; try congruence.
  - exfalso. apply H. eauto.
  - now intros [? ?].
Qed.

Lemma SaveTable_nextChan (m : Model) (t : Table) :
  nextChan (SaveTable m t) = nextChan m.
Proof. unfold SaveTable. now destruct (tables m !! tId t). Qed.

(** X11.  [startExternalWait] refuses a table that is not external and a
    table that has a wait already, changing nothing.  Otherwise it marks
    the table as running and registers the job; [cancelExternalWait]
    then hands back that job, closes the channel of the waiting
    goroutine and leaves the registry as it was before the wait was
    started, so that a new wait can be started; a second cancel, or a
    cancel without a wait, returns nil and changes nothing. *)
Theorem startExternalWait_then_cancelExternalWait :
  (forall t m job, IsExternal t = false ->
     startExternalWait t m job = (Some "Not an external table", t, m)) /\
  (forall t m job, IsExternal t = true -> hasExternalWait t m = true ->
     startExternalWait t m job
     = (Some ("ExternalWait for table id " +:+ pretty (tId t) +:+ " already exists."), t, m)) /\
  (forall t m job, IsExternal t = true -> hasExternalWait t m = false ->
     exists t1 m1,
       startExternalWait t m job = (None, t1, m1) /\
       t1 = withRunning t true /\
       hasExternalWait t m1 = true /\
       (exists e, fst (fst (startExternalWait t1 m1 job)) = Some e) /\
       fst (cancelExternalWait t m1) = job /\
       externalWaits (snd (cancelExternalWait t m1)) = externalWaits m /\
       nextChan m ∈ closedChans (snd (cancelExternalWait t m1)) /\
       hasExternalWait t (snd (cancelExternalWait t m1)) = false /\
       cancelExternalWait t (snd (cancelExternalWait t m1))
       = (None, snd (cancelExternalWait t m1))) /\
  (forall t m, hasExternalWait t m = false -> cancelExternalWait t m = (None, m)).
Proof.
  assert (Hnone : forall t m, hasExternalWait t m = false ->
                              cancelExternalWait t m = (None, m)).
  { intros t m H. apply hasExternalWait_false in H.
    unfold cancelExternalWait. now rewrite H. }
  split; [|split; [|split; [|exact Hnone]]].
  - intros t m job H. unfold startExternalWait. now rewrite H.
  - intros t m job H1 H2. unfold startExternalWait. now rewrite H1, H2.
  - intros t m job H1 H2.
    destruct (startExternalWait t m job) as [[err t1] m1] eqn:E.
    assert (err = None) as ->.
    { revert E. unfold startExternalWait. rewrite H1, H2. simpl.
      unfold setRunning. now intros [= <- _ _]. }
    destruct (startExternalWait_registers t m job t1 m1 E) as (Ht1 & Hew & _ & Hcl).
    apply hasExternalWait_false in H2 as Hm.
    assert (Hhas : hasExternalWait t m1 = true).
    { unfold hasExternalWait. apply bool_decide_eq_true. rewrite Hew. eauto. }
    assert (Hws : externalWaits m1 = <[tId t := {| ewCh := nextChan m; ewJob := job |}]>
                                       (externalWaits m)).
    { revert E. unfold startExternalWait. rewrite H1, H2. simpl.
      unfold setRunning. intros [= _ <-]. simpl.
      now rewrite SaveTable_externalWaits, SaveTable_nextChan. }
    exists t1, m1. split; [reflexivity|]. split; [exact Ht1|]. split; [exact Hhas|].
    assert (Hc : cancelExternalWait t m1
                 = (job, setWaits m1 (delete (tId t) (externalWaits m1)) (waiters m1)
                           ({[nextChan m]} ∪ closedChans m1) (nextChan m1))).
    { unfold cancelExternalWait. now rewrite Hew. }
    rewrite Hc. cbn [fst snd].
    assert (Hdel : delete (tId t) (externalWaits m1) = externalWaits m).
    { rewrite Hws. rewrite delete_insert_eq. now apply delete_id. }
    split; [|split; [reflexivity|split; [exact Hdel|split; [set_solver|]]]].
    + unfold startExternalWait. subst t1.
      replace (IsExternal (withRunning t true)) with true by (now rewrite <- H1).
      replace (hasExternalWait (withRunning t true) m1) with true
        by (now rewrite <- Hhas).
      simpl. eauto.
    + assert (Hf : hasExternalWait t
                     (setWaits m1 (delete (tId t) (externalWaits m1)) (waiters m1)
                        ({[nextChan m]} ∪ closedChans m1) (nextChan m1)) = false).
      { apply hasExternalWait_false. simpl. rewrite Hdel. exact Hm. }
      split; [exact Hf | now apply Hnone].
Qed.

(** ** The import queue, as a caller sees it *)

(** [m.DeleteImportStatus(id)]. *)
Definition DeleteImportStatus (m : Model) (id : Z) : Model :=
  setImports m (delete id (imports m)) (importQueue m).

(** X12.  [queueImport] puts a table on the import queue only when its
    import status is none (also when it was never set): it then appends
    one import task carrying the job and the object name of its first
    source URI and sets the status to queued, so that queueing the table
    again fails with "Already queued, running or done" until
    [DeleteImportStatus] has cleared the status.  A call that returns an
    error changes nothing, and no call changes the catalog. *)
Theorem queueImport_queues_once :
  (forall t job m, GetImportStatus m (tId t) <> ImpNone ->
     queueImport t job m = (Some "Already queued, running or done", m)) /\
  (forall t job m e, fst (queueImport t job m) = Some e ->
     snd (queueImport t job m) = m) /\
  (forall t job m, fst (queueImport t job m) = None ->
     exists fname,
       fst (importFileName job) = inr fname /\
       GetImportStatus m (tId t) = ImpNone /\
       GetImportStatus (snd (queueImport t job m)) (tId t) = ImpQueued /\
       importQueue (snd (queueImport t job m))
       = importQueue m ++ [{| ijTable := t; ijFname := fname;
                              ijJob := Some (snd (importFileName job)) |}] /\
       (forall job', queueImport t job' (snd (queueImport t job m))
                     = (Some "Already queued, running or done", snd (queueImport t job m))) /\
       GetImportStatus (DeleteImportStatus (snd (queueImport t job m)) (tId t)) (tId t)
       = ImpNone) /\
  (forall t job m,
     tables (snd (queueImport t job m)) = tables m /\
     bq_jobs (snd (queueImport t job m)) = bq_jobs m /\
     forall id, id <> tId t ->
       GetImportStatus (snd (queueImport t job m)) id = GetImportStatus m id).
Proof.
  assert (H1 : forall t job m, GetImportStatus m (tId t) <> ImpNone ->
     queueImport t job m = (Some "Already queued, running or done", m)).
  { intros t job m H. unfold queueImport.
    destruct (decide (GetImportStatus m (tId t) = ImpNone)); [contradiction | reflexivity]. }
  split; [exact H1|]. split; [|split].
  - intros t job m e. unfold queueImport.
    destruct (decide (GetImportStatus m (tId t) = ImpNone)); [|reflexivity].
    destruct (importFileName job) as [[e'|fname] job1]; [reflexivity | discriminate].
  - intros t job m. unfold queueImport.
    destruct (decide (GetImportStatus m (tId t) = ImpNone)) as [Hs|Hs]; [|discriminate].
    destruct (importFileName job) as [[e'|fname] job1]; [discriminate|].
    intros _. exists fname. cbn [fst snd].
    assert (Hq : GetImportStatus
                   (addEvent (setImports m (<[tId t:=ImpQueued]> (imports m))
                                (importQueue m ++ [{| ijTable := t; ijFname := fname;
                                                      ijJob := Some job1 |}]))
                      (ImportQueued t (Some job1))) (tId t) = ImpQueued).
    { unfold GetImportStatus. simpl. now rewrite lookup_insert_eq. }
    split; [reflexivity|]. split; [exact Hs|]. split; [exact Hq|].
    split; [reflexivity|]. split.
    + intros job'. apply H1. now rewrite Hq.
    + unfold GetImportStatus, DeleteImportStatus. simpl. now rewrite lookup_delete_eq.
  - intros t job m. unfold queueImport.
    destruct (decide (GetImportStatus m (tId t) = ImpNone)); [|auto].
    destruct (importFileName job) as [[e'|fname] job1]; [auto|].
    cbn [snd]. split; [reflexivity|]. split; [reflexivity|].
    intros id Hid. unfold GetImportStatus. simpl.
    now rewrite lookup_insert_ne by congruence.
Qed.

(** ** The warehouse-side id of a job *)

Lemma Contains_byte (c : ascii) (s : string) :
  Contains s (String c "") = hasByte c s.
Proof.
  induction s as [|a s IH]; [reflexivity|].
  cbn [Contains hasByte]. rewrite IH. f_equal.
  cbn [String.prefix]. destruct (ascii_dec c a) as [->|Hne].
  - rewrite Ascii.eqb_refl. now destruct s.
  - symmetry. apply Ascii.eqb_neq. congruence.
Qed.

Lemma lastPart_absent (sep : ascii) (s : string) :
  hasByte sep s = false -> lastPart sep s = s.
Proof.
  destruct s as [|c s]; [reflexivity|]. cbn [hasByte lastPart].
  intros H. apply orb_false_iff in H as [H1 H2]. now rewrite H2, H1.
Qed.

Lemma lastPart_no_sep (sep : ascii) (s : string) :
  hasByte sep (lastPart sep s) = false.
Proof.
  induction s as [|c s IH]; [reflexivity|]. cbn [lastPart].
  destruct (hasByte sep s) eqn:E; [exact IH|].
  destruct (Ascii.eqb c sep) eqn:Ec; [exact E|].
  cbn [hasByte]. now rewrite Ec, E.
Qed.

Lemma hasByte_app (c : ascii) (p r : string) :
  hasByte c (p +:+ r) = hasByte c p || hasByte c r.
Proof.
  induction p as [|a p IH]; [reflexivity|].
  simpl. rewrite IH. now rewrite orb_assoc.
Qed.

(** [lastPart] cuts the string right after the last separator. *)
Lemma lastPart_suffix (sep : ascii) (s : string) :
  exists p, s = p +:+ lastPart sep s /\
            (p = "" /\ hasByte sep s = false \/ exists p', p = p' +:+ String sep "").
Proof.
  induction s as [|c s (p & Hp & IH)].
  { exists "". split; [reflexivity|]. now left. }
  cbn [lastPart hasByte].
  destruct (hasByte sep s) eqn:E.
  - exists (String c p). split; [rewrite Hp at 1; reflexivity|].
    right. destruct IH as [[-> H]|[p' ->]]; [congruence|].
    exists (String c p'). reflexivity.
  - destruct (Ascii.eqb c sep) eqn:Ec.
    + apply Ascii.eqb_eq in Ec as ->. exists (String sep "").
      split; [reflexivity|]. right. now exists "".
    + exists "". split; [reflexivity|]. left. now rewrite orb_false_r.
Qed.

Lemma append_assoc (a b c : string) : (a +:+ b) +:+ c = a +:+ (b +:+ c).
Proof.
  induction a as [|x a IH]; [reflexivity|].
  change (String x ((a +:+ b) +:+ c) = String x (a +:+ (b +:+ c))). now rewrite IH.
Qed.

Lemma append_nil_r (s : string) : s +:+ "" = s.
Proof.
  induction s as [|x s IH]; [reflexivity|].
  change (String x (s +:+ "") = String x s). now rewrite IH.
Qed.

Lemma lastPart_guarded (sep : ascii) (s : string) :
  (if hasByte sep s then lastPart sep s else s) = lastPart sep s.
Proof. destruct (hasByte sep s) eqn:E; [reflexivity | now rewrite lastPart_absent]. Qed.

Lemma updateJobWithBQData_BQJobId (job : BQJob) (bqJob : bigqueryJob) :
  BQJobId (updateJobWithBQData job bqJob)
  = lastPart "."%char (lastPart ":"%char (jId bqJob)).
Proof.
  unfold updateJobWithBQData. cbv zeta.
  rewrite !Contains_byte, !lastPart_guarded.
  match goal with |- context [cacheStatus ?j] =>
    pose proof (cacheStatus_columns j) as Hc; destruct (cacheStatus j) as [e|j']
  end.
  - reflexivity.
  - destruct (Hc j' eq_refl) as (_ & _ & _ & H & _). exact H.
Qed.

Lemma updateJobWithBQData_columns (job : BQJob) (bqJob : bigqueryJob) :
  Id (updateJobWithBQData job bqJob) = Id job /\
  TableId (updateJobWithBQData job bqJob) = TableId job /\
  RunId (updateJobWithBQData job bqJob) = RunId job /\
  Parents (updateJobWithBQData job bqJob) = Parents job /\
  Type_ (updateJobWithBQData job bqJob) = Type_ job.
Proof.
  unfold updateJobWithBQData. cbv zeta.
  match goal with |- context [cacheStatus ?j] =>
    pose proof (cacheStatus_columns j) as Hc; destruct (cacheStatus j) as [e|j'] eqn:E
  end.
  - repeat split; reflexivity.
  - destruct (Hc j' eq_refl) as (H3 & H4 & H5 & H6 & H7). cbn in *.
    repeat split; try assumption.
    unfold cacheStatus in E. cbn in E.
    destruct (jStatus bqJob), (Status job) as [t|]; cbn in E;
      try destruct (Unmarshal t); try discriminate; now injection E as <-.
Qed.

(** X14.  The warehouse-side id that [updateJobWithBQData] stores is the
    last component of the id the warehouse reports ("project:location.id"
    gives "id"): the part after the last ":" and, in that, after the last
    ".", so it holds neither character and the reported id ends with it,
    a ":" or a "." standing right before it unless it is the whole id.
    The row id, the table, the run, the parents and the type of the job
    are left as they are. *)
Theorem updateJobWithBQData_stores_last_component (job : BQJob) (bqJob : bigqueryJob) :
  hasByte ":"%char (BQJobId (updateJobWithBQData job bqJob)) = false /\
  hasByte "."%char (BQJobId (updateJobWithBQData job bqJob)) = false /\
  (exists p, jId bqJob = p +:+ BQJobId (updateJobWithBQData job bqJob) /\
     (p = "" \/ exists p', p = p' +:+ ":" \/ p = p' +:+ ".")) /\
  (hasByte ":"%char (jId bqJob) = false -> hasByte "."%char (jId bqJob) = false ->
   BQJobId (updateJobWithBQData job bqJob) = jId bqJob) /\
  Id (updateJobWithBQData job bqJob) = Id job /\
  TableId (updateJobWithBQData job bqJob) = TableId job /\
  RunId (updateJobWithBQData job bqJob) = RunId job /\
  Parents (updateJobWithBQData job bqJob) = Parents job /\
  Type_ (updateJobWithBQData job bqJob) = Type_ job.
Proof.
  rewrite updateJobWithBQData_BQJobId.
  set (j1 := lastPart ":"%char (jId bqJob)).
  assert (H1 : hasByte ":"%char j1 = false) by apply lastPart_no_sep.
  destruct (lastPart_suffix ":"%char (jId bqJob)) as (p1 & Hp1 & Hs1). fold j1 in Hp1.
  destruct (lastPart_suffix "."%char j1) as (p2 & Hp2 & Hs2).
  split; [|split; [apply lastPart_no_sep|split; [|split]]].
  - rewrite Hp2, hasByte_app in H1. now apply orb_false_iff in H1.
  - exists (p1 +:+ p2). split; [rewrite append_assoc, <- Hp2; exact Hp1|].
    destruct Hs2 as [[-> _]|[p' ->]].
    + destruct Hs1 as [[-> _]|[p' ->]]; [now left|].
      right. exists p'. left. apply append_nil_r.
    + right. exists (p1 +:+ p'). right. now rewrite append_assoc.
  - intros Ha Hb. unfold j1. rewrite (lastPart_absent _ _ Ha). now apply lastPart_absent.
  - apply updateJobWithBQData_columns.
Qed.

(** ** What a submission leaves in the catalog *)

(** X16.  [submitJob] makes no call to the warehouse when the
    configuration of the job cannot be read, one call when the first
    call does not fail with the temporary error, and never more than
    two.  When the first call succeeds, the rows of the catalog with the
    id of the job are replaced by the job as [updateJobWithBQData] made
    it, with the warehouse-side id in it, and all other rows are left;
    when [submitJob] returns an error no row has changed.  Tables,
    import statuses and external waits are never touched. *)
Theorem submitJob_records_first_success :
  (forall job m e, fst (getConfig job) = inl e ->
     submitJob job m = (Some e, snd (getConfig job), m)) /\
  (forall job m,
     (bqCalls m <= bqCalls (snd (submitJob job m)) <= bqCalls m + 2)%nat) /\
  (forall job m conf e, fst (getConfig job) = inr conf ->
     bqReply m (bqCalls m) conf = inl e -> Contains e temporaryErr = false ->
     fst (fst (submitJob job m)) = Some e /\
     bqCalls (snd (submitJob job m)) = S (bqCalls m)) /\
  (forall job m conf bqJob, fst (getConfig job) = inr conf ->
     bqReply m (bqCalls m) conf = inr bqJob ->
     fst (submitJob job m) = (None, updateJobWithBQData (snd (getConfig job)) bqJob) /\
     bq_jobs (snd (submitJob job m))
     = (fun row => if Id row =? Id job
                   then updateJobWithBQData (snd (getConfig job)) bqJob else row)
       <$> bq_jobs m /\
     bqCalls (snd (submitJob job m)) = S (bqCalls m)) /\
  (forall job m e, fst (fst (submitJob job m)) = Some e ->
     bq_jobs (snd (submitJob job m)) = bq_jobs m) /\
  (forall job m,
     tables (snd (submitJob job m)) = tables m /\
     imports (snd (submitJob job m)) = imports m /\
     importQueue (snd (submitJob job m)) = importQueue m /\
     externalWaits (snd (submitJob job m)) = externalWaits m).
Proof.
  split; [|split; [|split; [|split; [|split]]]].
  - intros job m e H. unfold submitJob.
    destruct (getConfig job) as [[e'|conf] job1]; simpl in *; congruence.
  - intros job m. unfold submitJob.
    destruct (getConfig job) as [[e'|conf] job1]; [simpl; lia|].
    unfold StartJob. cbv zeta.
    destruct (bqReply m (bqCalls m) conf) as [e|bqJob]; [|simpl; lia].
    destruct (Contains e temporaryErr); [|simpl; lia].
    simpl. destruct (bqReply m (S (bqCalls m)) conf); simpl; lia.
  - intros job m conf e Hc Hr Ht. unfold submitJob.
    destruct (getConfig job) as [[e'|conf'] job1]; simpl in Hc; [discriminate|].
    injection Hc as ->. unfold StartJob. cbv zeta. rewrite Hr, Ht. simpl. auto.
  - intros job m conf bqJob Hc Hr. unfold submitJob.
    pose proof (getConfig_same_columns job) as Hs. cbv zeta in Hs.
    destruct (getConfig job) as [[e'|conf'] job1]; simpl in Hc; [discriminate|].
    injection Hc as ->. unfold StartJob. cbv zeta. rewrite Hr.
    cbn [fst snd] in *. split; [reflexivity|]. split; [|reflexivity].
    unfold UpdateBQJob. cbn [bq_jobs setJobs addEvent].
    destruct (updateJobWithBQData_columns job1 bqJob) as (-> & _).
    destruct Hs as [-> _]. reflexivity.
  - intros job m e. unfold submitJob.
    destruct (getConfig job) as [[e'|conf] job1]; [reflexivity|].
    unfold StartJob. cbv zeta.
    destruct (bqReply m (bqCalls m) conf) as [e1|bqJob]; [|discriminate].
    destruct (Contains e1 temporaryErr); [|reflexivity].
    simpl. destruct (bqReply m (S (bqCalls m)) conf); [reflexivity | discriminate].
  - intros job m. unfold submitJob.
    destruct (getConfig job) as [[e'|conf] job1]; [auto|].
    unfold StartJob. cbv zeta.
    destruct (bqReply m (bqCalls m) conf) as [e1|bqJob]; [|simpl; auto].
    destruct (Contains e1 temporaryErr); [|simpl; auto].
    simpl. destruct (bqReply m (S (bqCalls m)) conf); simpl; auto.
Qed.

(** ** Resuming a run *)

(** The loop of [countErrors] over the jobs of the run. *)
Fixpoint countErrors_loop (jobs : list BQJob) (errCnt : Z) : string + Z :=
  match jobs with
  | [] => inr errCnt
  | j :: rest =>
      match cacheStatus j with
      | inl e => inl e
      | inr j1 =>
          if Contains (error j1) bqSchemaErr then countErrors_loop rest errCnt
          else countErrors_loop rest
                 (if String.eqb (error j1) "" then errCnt else errCnt + 1)
      end
  end.

(** [r.countErrors(m)]. *)
Definition countErrors (r : Run) (m : Model) : string + Z :=
  countErrors_loop (SelectBQJobsByRunId m (rId r)) 0.

(** The run as [Resume] and then [monitorRun] set it up: the errors are
    counted once and the count is the greatest number allowed.  (When
    [countErrors] fails the error is logged and the count is 0.) *)
Definition resumed (r : Run) (m : Model) : Run :=
  {| rId := rId r; rEndTime := None; rError := None; ignoreErrors := true;
     maxErrCnt := match countErrors r m with inr cnt => cnt | inl _ => 0 end |}.

Lemma countErrors_loop_mono (jobs : list BQJob) :
  forall errCnt cnt, countErrors_loop jobs errCnt = inr cnt -> errCnt <= cnt.
Proof.
  induction jobs as [|j rest IH]; intros errCnt cnt H; simpl in H.
  { injection H as <-. lia. }
  destruct (cacheStatus j) as [e|j1]; [discriminate|].
  destruct (Contains (error j1) bqSchemaErr); [now apply IH|].
  apply IH in H. destruct (String.eqb (error j1) ""); lia.
Qed.

(** While the errors met so far and the errors to come stay within the
    count allowed, only jobs that are not done are kept. *)
Lemma collectUnfinished_within (r : Run) (jobs : list BQJob) :
  forall byId byId' errCnt cnt,
    countErrors_loop jobs errCnt = inr cnt -> cnt <= maxErrCnt r -> 0 <= errCnt ->
    collectUnfinished r jobs byId errCnt = inr byId' ->
    (forall k j, byId !! k = Some j -> state j <> "DONE") ->
    forall k j, byId' !! k = Some j -> state j <> "DONE".
Proof.
  induction jobs as [|j0 rest IH]; intros byId byId' errCnt cnt Hc Hmax H0 H Hb; simpl in H, Hc.
  { injection H as <-. exact Hb. }
  destruct (cacheStatus j0) as [e|j1]; [discriminate|].
  destruct (Contains (error j1) bqSchemaErr); [eapply IH; eassumption|].
  set (errCnt' := if String.eqb (error j1) "" then errCnt else errCnt + 1) in *.
  assert (H0' : 0 <= errCnt') by (unfold errCnt'; destruct (String.eqb (error j1) ""); lia).
  pose proof (countErrors_loop_mono rest errCnt' cnt Hc) as Hle.
  eapply (IH _ byId' errCnt' cnt); try eassumption.
  destruct (unfinished r j1 errCnt') eqn:Eu; [|exact Hb].
  intros k j. rewrite lookup_insert. case_decide; [|apply Hb].
  intros [= <-]. unfold unfinished in Eu.
  destruct (String.eqb (state j1) "DONE") eqn:Es; [|now apply String.eqb_neq in Es].
  exfalso. simpl in Eu. unfold errCnt' in *.
  destruct (String.eqb (error j1) ""); simpl in Eu; [discriminate|].
  destruct (Z.eqb_spec (maxErrCnt r) 0) as [Hz|_]; [lia|]. simpl in Eu.
  apply andb_true_iff in Eu as [_ Hlt]. apply Z.ltb_lt in Hlt. lia.
Qed.

(** Every job that is not done, the schema-mismatch errors apart, is kept
    under its table id unless a later job of the table takes its place. *)
Lemma collectUnfinished_keeps (r : Run) (jobs : list BQJob) :
  forall byId byId' errCnt,
    collectUnfinished r jobs byId errCnt = inr byId' ->
    (forall k, is_Some (byId !! k) -> is_Some (byId' !! k)) /\
    forall J J1, J ∈ jobs -> cacheStatus J = inr J1 ->
      Contains (error J1) bqSchemaErr = false -> state J1 <> "DONE" ->
      is_Some (byId' !! TableId J1).
Proof.
  induction jobs as [|j0 rest IH]; intros byId byId' errCnt H; simpl in H.
  { injection H as <-. split; [auto|]. intros J J1 HJ. inversion HJ. }
  destruct (cacheStatus j0) as [e|j1] eqn:Ec; [discriminate|].
  destruct (Contains (error j1) bqSchemaErr) eqn:Es.
  { destruct (IH _ _ _ H) as [K A]. split; [exact K|].
    intros J J1 HJ HcJ Hs Hd. apply elem_of_cons in HJ as [->|HJ]; [|eauto].
    congruence. }
  destruct (IH _ _ _ H) as [K A]. split.
  - intros k Hk. apply K. destruct (unfinished r j1 _); [|exact Hk].
    rewrite lookup_insert. case_decide; [eauto | exact Hk].
  - intros J J1 HJ HcJ Hs Hd. apply elem_of_cons in HJ as [->|HJ]; [|eauto].
    rewrite Ec in HcJ. injection HcJ as <-. apply K.
    assert (Hu : forall c, unfinished r j1 c = true).
    { intros c. unfold unfinished. apply String.eqb_neq in Hd. now rewrite Hd. }
    rewrite Hu, lookup_insert_eq. eauto.
Qed.

Lemma collectUnfinished_countErrors (r : Run) (jobs : list BQJob) :
  forall byId byId' c1 c2,
    collectUnfinished r jobs byId c1 = inr byId' ->
    exists cnt, countErrors_loop jobs c2 = inr cnt.
Proof.
  induction jobs as [|j0 rest IH]; intros byId byId' c1 c2 H; simpl in *; [eauto|].
  destruct (cacheStatus j0) as [e|j1]; [discriminate|].
  destruct (Contains (error j1) bqSchemaErr); eapply IH; exact H.
Qed.

(** X17.  In a run that was resumed, with the errors of its jobs counted
    by [countErrors] and nothing changed since, the jobs that are done
    are out of the unfinished-job map whatever their errors: the map
    holds only jobs that are not done, so the errors that failed the run
    before it was resumed do not fail it again.  Each job of the run
    that is not done and carries no schema-mismatch error has an entry
    under its table id. *)
Theorem resumed_run_skips_finished_jobs (r : Run) (m : Model) (byId : gmap Z BQJob) :
  collectUnfinished (resumed r m) (SelectBQJobsByRunId m (rId r)) ∅ 0 = inr byId ->
  (exists cnt, countErrors r m = inr cnt /\ maxErrCnt (resumed r m) = cnt /\ 0 <= cnt) /\
  (forall k j, byId !! k = Some j -> state j <> "DONE") /\
  (forall J J1, J ∈ SelectBQJobsByRunId m (rId r) -> cacheStatus J = inr J1 ->
     Contains (error J1) bqSchemaErr = false -> state J1 <> "DONE" ->
     is_Some (byId !! TableId J1)).
Proof.
  intros H.
  destruct (collectUnfinished_countErrors _ _ _ _ _ 0 H) as [cnt Hcnt].
  assert (Hmax : maxErrCnt (resumed r m) = cnt).
  { unfold resumed, countErrors. cbn [maxErrCnt]. now rewrite Hcnt. }
  pose proof (countErrors_loop_mono _ _ _ Hcnt) as Hpos.
  split; [exists cnt; auto|]. split.
  - eapply (collectUnfinished_within (resumed r m) _ ∅ byId 0 cnt);
      [exact Hcnt | lia | lia | exact H |].
    intros k j Hk. now rewrite lookup_empty in Hk.
  - apply (collectUnfinished_keeps _ _ _ _ _ H).
Qed.

(** The run and the catalog of [failedParentModel], resumed. *)
Lemma resumed_run_skips_finished_jobs_witness :
  (exists cnt, countErrors run7 (failedParentModel "Syntax error") = inr cnt /\
               maxErrCnt (resumed run7 (failedParentModel "Syntax error")) = cnt /\
               0 <= cnt) /\
  (forall k j,
     (match collectUnfinished (resumed run7 (failedParentModel "Syntax error"))
              (SelectBQJobsByRunId (failedParentModel "Syntax error") 7) ∅ 0 with
      | inr byId => byId | inl _ => ∅ end) !! k = Some j -> state j <> "DONE").
Proof.
  destruct (collectUnfinished (resumed run7 (failedParentModel "Syntax error"))
              (SelectBQJobsByRunId (failedParentModel "Syntax error") 7) ∅ 0)
    as [e|byId] eqn:E; [vm_compute in E; discriminate|].
  destruct (resumed_run_skips_finished_jobs run7 (failedParentModel "Syntax error") byId E)
    as (H1 & H2 & _).
  split; assumption.
Defined.

(** ** The end of a run *)

Lemma collectUnfinished_all_done (r : Run) (jobs : list BQJob) :
  forall byId errCnt,
    (forall J, J ∈ jobs ->
       exists J1, cacheStatus J = inr J1 /\ state J1 = "DONE" /\ error J1 = "") ->
    collectUnfinished r jobs byId errCnt = inr byId.
Proof.
  induction jobs as [|j0 rest IH]; intros byId errCnt H; simpl; [reflexivity|].
  destruct (H j0) as (j1 & -> & Hs & He); [now left|].
  rewrite He. cbn [Contains String.prefix bqSchemaErr orb].
  unfold unfinished. rewrite Hs, He. cbn.
  apply IH. intros J HJ. apply H. now right.
Qed.

Lemma graphFromJobsById_nonempty (byId : gmap Z BQJob) (g : Graph BQJob) :
  graphFromJobsById byId = inr g -> byId <> ∅ -> g <> ∅.
Proof.
  intros Hg Hne ->. apply map_choose in Hne as (tid & job & Hjob).
  assert (O0 : graphOnly byId [] NewGraph).
  { split.
    - intros j Hin. inversion Hin.
    - intros a b Hab. unfold parentsOf, NewGraph in Hab.
      rewrite lookup_empty in Hab. set_solver. }
  destruct (graphFromJobsById_fold_only byId _ [] _ _ O0 Hg) as [Hdom _].
  assert (Hin : GetName job ∈ dom (∅ : Graph BQJob)).
  { apply Hdom. rewrite app_nil_r, elem_of_reverse, list_elem_of_fmap.
    exists (tid, job). split; [reflexivity|]. now apply elem_of_map_to_list. }
  set_solver.
Qed.

(** X18.  A cycle ends the run, by setting its end time and doing
    nothing else, exactly when it reads the jobs and finds none
    unfinished: in particular when every job of the run is done with an
    empty error, or when the run has no job.  While a job is unfinished
    the run is left as it was; and when the status of a job cannot be
    decoded the cycle returns that error, with the run and the model
    untouched. *)
Theorem processCycle_ends_run_when_nothing_unfinished (r : Run) (now : Time) (m : Model) :
  ((forall J, J ∈ SelectBQJobsByRunId m (rId r) ->
      exists J1, cacheStatus J = inr J1 /\ state J1 = "DONE" /\ error J1 = "") ->
   processCycle r now m = (m, withEndTime r now, Done None)) /\
  (collectUnfinished r (SelectBQJobsByRunId m (rId r)) ∅ 0 = inr ∅ ->
   processCycle r now m = (m, withEndTime r now, Done None)) /\
  (forall byId, collectUnfinished r (SelectBQJobsByRunId m (rId r)) ∅ 0 = inr byId ->
     byId <> ∅ -> snd (fst (processCycle r now m)) = r) /\
  (forall e, collectUnfinished r (SelectBQJobsByRunId m (rId r)) ∅ 0 = inl e ->
     processCycle r now m = (m, r, Done (Some e))).
Proof.
  assert (Hend : collectUnfinished r (SelectBQJobsByRunId m (rId r)) ∅ 0 = inr ∅ ->
                 processCycle r now m = (m, withEndTime r now, Done None)).
  { intros H. unfold processCycle, loadRunUnfinishedJobGraph. rewrite H.
    unfold graphFromJobsById. rewrite map_to_list_empty. reflexivity. }
  split; [|split; [exact Hend|split]].
  - intros H. apply Hend. now apply collectUnfinished_all_done.
  - intros byId H Hne. unfold processCycle, loadRunUnfinishedJobGraph. rewrite H.
    destruct (graphFromJobsById byId) as [e|g] eqn:Eg; [reflexivity|].
    pose proof (graphFromJobsById_nonempty byId g Eg Hne) as Hg.
    destruct (size g =? 0)%nat eqn:Es.
    { apply Nat.eqb_eq, map_size_empty_iff in Es. contradiction. }
    destruct (ReadyItems GetName g) as [[[g1 ready] [e|]]| |]; try reflexivity.
    now destruct (processReady ready m).
  - intros e H. unfold processCycle, loadRunUnfinishedJobGraph. now rewrite H.
Qed.

(** ** What a cycle leaves alone *)

(** From [m] to [m'] the trace has grown, no table and no job row was
    added or deleted, and the job rows are as they were, those of the
    jobs submitted with success in between apart. *)
Definition touches (m m' : Model) : Prop :=
  exists new,
    events m' = events m ++ new /\
    dom (tables m') = dom (tables m) /\
    Id <$> bq_jobs m' = Id <$> bq_jobs m /\
    forall i row, bq_jobs m !! i = Some row -> Id row ∉ submitted new ->
                  bq_jobs m' !! i = Some row.

Lemma submitted_app (l1 l2 : list event) :
  submitted (l1 ++ l2) = submitted l1 ++ submitted l2.
Proof. apply omap_app. Qed.

Lemma touches_rows (m m' : Model) (new : list event) :
  events m' = events m ++ new -> dom (tables m') = dom (tables m) ->
  bq_jobs m' = bq_jobs m -> touches m m'.
Proof. intros He Hd Hj. exists new. rewrite Hj. auto. Qed.

Lemma touches_trans (m1 m2 m3 : Model) : touches m1 m2 -> touches m2 m3 -> touches m1 m3.
Proof.
  intros (n1 & E1 & D1 & I1 & R1) (n2 & E2 & D2 & I2 & R2). exists (n1 ++ n2).
  split; [now rewrite E2, E1, app_assoc|]. split; [congruence|]. split; [congruence|].
  intros i row Hrow Hnot. rewrite submitted_app, elem_of_app in Hnot.
  apply R2; [apply R1|]; tauto.
Qed.

Lemma SaveTable_touches (m : Model) (t : Table) : touches m (SaveTable m t).
Proof.
  apply (touches_rows _ _ []).
  - now rewrite SaveTable_events, app_nil_r.
  - unfold SaveTable. destruct (tables m !! tId t) as [t0|] eqn:E; [|reflexivity].
    simpl. apply dom_insert_lookup_L. eauto.
  - unfold SaveTable. now destruct (tables m !! tId t).
Qed.

Lemma addEvent_touches (m : Model) (e : event) : touches m (addEvent m e).
Proof. now apply (touches_rows _ _ [e]). Qed.

Lemma submitJob_touches (job : BQJob) (m : Model) : touches m (snd (submitJob job m)).
Proof.
  unfold submitJob. pose proof (getConfig_same_columns job) as Hs. cbv zeta in Hs.
  destruct (getConfig job) as [[e|conf] job1]; cbn [snd] in *.
  { apply (touches_rows _ _ []); [now rewrite app_nil_r | reflexivity | reflexivity]. }
  destruct Hs as [HId _].
  unfold StartJob. cbv zeta.
  destruct (bqReply m (bqCalls m) conf) as [e|bqJob]; cbn [fst snd].
  - destruct (Contains e temporaryErr).
    + cbn [addEvent events bqReply bqCalls].
      destruct (bqReply m (S (bqCalls m)) conf) as [e2|b];
        (eapply touches_rows; [cbn; rewrite <- !app_assoc; reflexivity | reflexivity | reflexivity]).
    + eapply touches_rows; [reflexivity | reflexivity | reflexivity].
  - exists [StartJobCalled job1 conf true].
    destruct (updateJobWithBQData_columns job1 bqJob) as (HId2 & _).
    set (job2 := updateJobWithBQData job1 bqJob) in *. clearbody job2.
    split; [reflexivity|]. split; [reflexivity|]. split.
    + cbn. rewrite <- list_fmap_compose. apply list_fmap_ext. intros i row _. cbn.
      destruct (Z.eqb_spec (Id row) (Id job2)); congruence.
    + intros i row Hrow Hnot. cbn in Hnot. cbn. rewrite list_lookup_fmap, Hrow. cbn.
      destruct (Z.eqb_spec (Id row) (Id job2)) as [Heq|_]; [|reflexivity].
      exfalso. apply Hnot. rewrite Heq, HId2. now left.
Qed.

Lemma queueImport_touches (t : Table) (job : BQJob) (m : Model) :
  touches m (snd (queueImport t job m)).
Proof.
  unfold queueImport.
  assert (H0 : touches m m) by (apply (touches_rows _ _ []); [now rewrite app_nil_r | |]; reflexivity).
  case_decide; [|exact H0].
  destruct (importFileName job) as [[e|fname] job1]; [exact H0|].
  eapply touches_rows; reflexivity.
Qed.

Lemma startExternalWait_touches (t : Table) (job : option BQJob) (m : Model) :
  touches m (snd (startExternalWait t m job)).
Proof.
  unfold startExternalWait.
  assert (H0 : touches m m) by (apply (touches_rows _ _ []); [now rewrite app_nil_r | |]; reflexivity).
  destruct (negb (IsExternal t)); [exact H0|].
  destruct (hasExternalWait t m); [exact H0|].
  unfold setRunning. cbv zeta. cbn [snd].
  eapply touches_trans; [apply (SaveTable_touches m (withRunning t true))|].
  eapply touches_rows; reflexivity.
Qed.

Lemma processReady_job_touches (job : BQJob) (m : Model) :
  touches m (fst (processReady_job job m)).
Proof.
  assert (H0 : forall m0, touches m0 m0)
    by (intros m0; apply (touches_rows _ _ []); [now rewrite app_nil_r | |]; reflexivity).
  unfold processReady_job.
  destruct (negb (String.eqb (error job) "")); [apply H0|].
  destruct (String.eqb (BQJobId job) ""); [|apply H0].
  destruct (String.eqb (Type_ job) "load").
  - destruct (decide (_ = ImpError)) as [Hd1|Hd1]; [apply H0|].
    destruct (decide (_ = ImpNone)) as [Hd2|Hd2]; [|apply H0].
    destruct (SelectTable m (TableId job)) as [t|]; [|apply H0].
    destruct (IsImport t).
    + unfold setRunning. cbv zeta.
      pose proof (queueImport_touches (withRunning t true) job
                    (SaveTable m (withRunning t true))) as Hq.
      destruct (queueImport _ job _) as [o m2]. cbn [fst snd] in *.
      eapply touches_trans; [apply SaveTable_touches | exact Hq].
    + destruct (IsExternal t && negb (hasExternalWait t m)); [|apply H0].
      pose proof (startExternalWait_touches t (Some job) m) as Hq.
      now destruct (startExternalWait t m (Some job)) as [[o t1] m1].
  - destruct (SelectTable m (TableId job)) as [t|]; [|apply H0].
    unfold setRunning. cbv zeta.
    set (t1 := withRunning (withError t (tRunning t) "") true).
    pose proof (submitJob_touches job (SaveTable m t1)) as Hq.
    assert (Hq' : touches m (snd (submitJob job (SaveTable m t1))))
      by (eapply touches_trans; [apply SaveTable_touches | exact Hq]).
    destruct (submitJob job (SaveTable m t1)) as [[[e|] job1] m2]; cbn [fst snd] in *.
    + unfold setError. cbv zeta. cbn [fst].
      eapply touches_trans; [exact Hq' | apply SaveTable_touches].
    + eapply touches_trans; [exact Hq' | apply addEvent_touches].
Qed.

Lemma processReady_touches (ready : list (Item BQJob)) :
  forall m : Model, touches m (fst (processReady ready m)).
Proof.
  assert (H0 : forall m0, touches m0 m0)
    by (intros m0; apply (touches_rows _ _ []); [now rewrite app_nil_r | |]; reflexivity).
  induction ready as [|[job|] rest IH]; intros m; cbn [processReady]; try apply H0.
  pose proof (processReady_job_touches job m) as H.
  destruct (processReady_job job m) as [m1 [[e|]| |]]; cbn [fst] in *; try exact H.
  eapply touches_trans; [exact H | apply IH].
Qed.

(** X19.  A cycle adds and deletes no table and no job row; a job row
    is rewritten only if the job was submitted to the warehouse with
    success in this cycle: every other row is exactly as it was. *)
Theorem processCycle_rewrites_only_submitted_rows (r : Run) (now : Time) (m : Model) :
  exists new,
    events (fst (fst (processCycle r now m))) = events m ++ new /\
    dom (tables (fst (fst (processCycle r now m)))) = dom (tables m) /\
    Id <$> bq_jobs (fst (fst (processCycle r now m))) = Id <$> bq_jobs m /\
    forall i row, bq_jobs m !! i = Some row -> Id row ∉ submitted new ->
                  bq_jobs (fst (fst (processCycle r now m))) !! i = Some row.
Proof.
  assert (H0 : touches m m)
    by (apply (touches_rows _ _ []); [now rewrite app_nil_r | |]; reflexivity).
  change (touches m (fst (fst (processCycle r now m)))).
  unfold processCycle.
  destruct (loadRunUnfinishedJobGraph r m) as [e|g]; [exact H0|].
  destruct (size g =? 0)%nat; [exact H0|].
  destruct (ReadyItems GetName g) as [[[g1 ready] [e|]]| |]; try exact H0.
  pose proof (processReady_touches ready m) as H.
  now destruct (processReady ready m) as [m1 o].
Qed.

(** ** The cycle does not panic *)







(** ** The graph of a map of jobs *)

(** X21.  [graphFromJobsById] succeeds exactly when the parents column
    of every job of the map decodes.  The graph it returns is
    well-formed; it has one node for each job of the map, under the
    table id of the job written in decimal, and holding the job when the
    map is keyed by table id; and
    a node is a parent of another exactly when its table id is listed in
    the parents column of the other and is a key of the map: listed
    parents that are not in the map are passed over, so a job all of
    whose listed parents are missing has no parents in the graph. *)
Theorem graphFromJobsById_builds_listed_edges (byId : gmap Z BQJob) :
  (forall g, graphFromJobsById byId = inr g ->
     wf GetName g /\
     (forall k, k ∈ dom g <-> exists tid j, byId !! tid = Some j /\ k = GetName j) /\
     (forall a b, a ∈ parentsOf g b <->
        exists tid job ps pid p,
          byId !! tid = Some job /\ b = GetName job /\ parentsList job = inr ps /\
          pid ∈ ps /\ byId !! pid = Some p /\ a = GetName p) /\
     ((forall k j, byId !! k = Some j -> TableId j = k) ->
      forall tid j, byId !! tid = Some j -> itemOf g (GetName j) = Some (jobItem j))) /\
  ((forall tid j, byId !! tid = Some j -> exists ps, parentsList j = inr ps) <->
   exists g, graphFromJobsById byId = inr g).
Proof.
  assert (Hall : forall j, j ∈ snd <$> map_to_list byId <-> exists tid, byId !! tid = Some j).
  { intros j. rewrite list_elem_of_fmap. split.
    - intros ([tid j'] & -> & Hin). apply elem_of_map_to_list in Hin. eauto.
    - intros [tid Hj]. exists (tid, j). split; [reflexivity|].
      now apply elem_of_map_to_list. }
  assert (O0 : graphOnly byId [] NewGraph).
  { split.
    - intros j Hin. inversion Hin.
    - intros a b Hab. unfold parentsOf, NewGraph in Hab.
      rewrite lookup_empty in Hab. set_solver. }
  split.
  - intros g Hg.
    destruct (graphFromJobsById_spec byId g Hg) as (Hwf & Hitems & Hedges).
    destruct (graphFromJobsById_fold_only byId _ [] _ _ O0 Hg) as [Hdom Honly].
    assert (Hd : forall k, k ∈ dom g <-> exists tid j, byId !! tid = Some j /\ k = GetName j).
    { intros k. split.
      - intros Hk. apply elem_of_dom in Hk as [n Hn].
        destruct (Hitems k n Hn) as (j & tid & Hi & Hj).
        pose proof (wf_key _ _ Hwf k n Hn) as Hname. rewrite Hi in Hname.
        exists tid, j. split; [exact Hj | now symmetry].
      - intros (tid & j & Hj & ->). apply Hdom.
        rewrite app_nil_r, elem_of_reverse. apply Hall. eauto. }
    split; [exact Hwf|]. split; [exact Hd|]. split.
    + intros a b. split.
      * intros Hab. destruct (Honly a b Hab) as (job & ps & pid & p & Hjob & H).
        rewrite app_nil_r, elem_of_reverse in Hjob. apply Hall in Hjob as [tid Htid].
        exists tid, job, ps, pid, p. tauto.
      * intros (tid & job & ps & pid & p & Hjob & -> & Hps & Hpid & Hp & ->).
        destruct (Hedges tid job Hjob) as (ps' & Hps' & He).
        rewrite Hps in Hps'. injection Hps' as <-. eapply He; eassumption.
    + intros Hkey tid j Hj.
      assert (Hk : GetName j ∈ dom g) by (apply Hd; eauto).
      apply elem_of_dom in Hk as [n Hn]. unfold itemOf. rewrite Hn. simpl. f_equal.
      destruct (Hitems _ n Hn) as (j' & tid' & Hi & Hj').
      pose proof (wf_key _ _ Hwf _ n Hn) as Hname. rewrite Hi in Hname.
      cbn [itemName] in Hname. unfold GetName in Hname.
      apply (inj pretty) in Hname.
      rewrite (Hkey _ _ Hj), (Hkey _ _ Hj') in Hname. subst tid'.
      rewrite Hi. congruence.
  - split.
    + intros H. apply graphFromJobsById_fold_returns.
      intros j Hj. apply Hall in Hj as [tid Hj]. eauto.
    + intros [g Hg] tid j Hj.
      destruct (graphFromJobsById_spec byId g Hg) as (_ & _ & Hedges).
      destruct (Hedges tid j Hj) as (ps & Hps & _). eauto.
Qed.

(** X22.  Go ranges over the map of [loadRunUnfinishedJobGraph] in an
    order of its choosing.  The map is keyed by the table ids of its jobs,
    so the order does not matter: [graphFromJobsById] builds the same
    graph in every order, and fails in one order only if it fails in
    every order. *)
Theorem loadRunUnfinishedJobGraph_graph_in_any_order (r : Run) (m : Model)
    (byId : gmap Z BQJob) (l : list BQJob) :
  collectUnfinished r (SelectBQJobsByRunId m (rId r)) ∅ 0 = inr byId ->
  l ≡ₚ snd <$> map_to_list byId ->
  (forall g, foldl (graphFromJobsById_turn byId) (inr NewGraph) l = inr g <->
             loadRunUnfinishedJobGraph r m = inr g) /\
  ((exists e, foldl (graphFromJobsById_turn byId) (inr NewGraph) l = inl e) <->
   (exists e, loadRunUnfinishedJobGraph r m = inl e)).
Proof.
  intros Ec Hl. rewrite (loadRunUnfinishedJobGraph_any_order r m byId l Ec Hl).
  split; [intros g; reflexivity | reflexivity].
Qed.

Lemma loadRunUnfinishedJobGraph_graph_in_any_order_witness :
  (exists e,
     foldl (graphFromJobsById_turn
              (match collectUnfinished run7 (SelectBQJobsByRunId abcModel 7) ∅ 0 with
               | inr byId => byId | inl _ => ∅ end))
       (inr NewGraph)
       (reverse (snd <$> map_to_list
                   (match collectUnfinished run7 (SelectBQJobsByRunId abcModel 7) ∅ 0 with
                    | inr byId => byId | inl _ => ∅ end))) = inl e) <->
  (exists e, loadRunUnfinishedJobGraph run7 abcModel = inl e).
Proof.
  destruct (collectUnfinished run7 (SelectBQJobsByRunId abcModel 7) ∅ 0)
    as [e|byId] eqn:E; [vm_compute in E; discriminate|].
  apply (loadRunUnfinishedJobGraph_graph_in_any_order run7 abcModel byId _ E).
  apply reverse_Permutation.
Defined.

(** ** The destination URIs of an extract *)

(** [strings.Replace(s, old, rep, 1)] for an [old] of one byte. *)
Fixpoint replaceFirst (c : ascii) (rep s : string) : string :=
  match s with
  | EmptyString => EmptyString
  | String a s' => if Ascii.eqb a c then rep +:+ s' else String a (replaceFirst c rep s')
  end.

Fixpoint zeros (k : nat) : string :=
  match k with
  | O => EmptyString
  | S k' => String "0" (zeros k')
  end.

(** [fmt.Sprintf("%012d", n)] for a number that is not negative. *)
Definition Sprintf012d (n : N) : string :=
  zeros (12 - String.length (pretty n)) +:+ pretty n.

(** The inner loop of [buildExtractDestinationUris]: one URI for each
    [n] from 0 up to [cnt], [cnt] left out. *)
Definition expandUri (uri : string) (cnt : Z) : list string :=
  (fun n => replaceFirst "*" (Sprintf012d (N.of_nat n)) uri) <$> seq 0 (Z.to_nat cnt).

(** The loop of [buildExtractDestinationUris] from the index [i] on;
    [nFiles[i]] panics when [i] is out of range. *)
Fixpoint buildFrom (i : nat) (uris : list string) (nFiles : list Z)
  : outcome (list string) :=
  match uris with
  | [] => Done []
  | uri :: rest =>
      if negb (Contains uri "*") then
        r ← buildFrom (S i) rest nFiles; Done (uri :: r)
      else
        match nFiles !! i with
        | None => Panic
        | Some cnt => r ← buildFrom (S i) rest nFiles; Done (expandUri uri cnt ++ r)
        end
  end.

Definition buildExtractDestinationUris (uris : list string) (nFiles : list Z)
  : outcome (list string) :=
  buildFrom 0 uris nFiles.

Example buildExtractDestinationUris_run :
  buildExtractDestinationUris ["gs://b/t-*.csv"; "gs://b/one.csv"] [2]
  = Done ["gs://b/t-000000000000.csv"; "gs://b/t-000000000001.csv"; "gs://b/one.csv"].
Proof. vm_compute. reflexivity. Qed.

Lemma replaceFirst_split (c : ascii) (rep pre suf : string) :
  hasByte c pre = false ->
  replaceFirst c rep (pre +:+ String c suf) = pre +:+ rep +:+ suf.
Proof.
  induction pre as [|a pre IH]; intros H.
  - change (replaceFirst c rep (String c suf) = rep +:+ suf).
    cbn [replaceFirst]. now rewrite Ascii.eqb_refl.
  - cbn [hasByte] in H. apply orb_false_iff in H as [Ha Hp].
    change (replaceFirst c rep (String a (pre +:+ String c suf))
            = String a (pre +:+ rep +:+ suf)).
    cbn [replaceFirst]. rewrite Ha. now rewrite IH.
Qed.

Lemma hasByte_split (c : ascii) (s : string) :
  hasByte c s = true ->
  exists pre suf, s = pre +:+ String c suf /\ hasByte c pre = false.
Proof.
  induction s as [|a s IH]; [discriminate|]. cbn [hasByte].
  destruct (Ascii.eqb a c) eqn:E.
  - apply Ascii.eqb_eq in E as ->. intros _. now exists "", s.
  - simpl. intros H. destruct (IH H) as (pre & suf & -> & Hp).
    exists (String a pre), suf. split; [reflexivity|]. cbn [hasByte]. now rewrite E, Hp.
Qed.

(** The number of URIs that the URIs from the index [i] on stand for. *)
Fixpoint countFrom (i : nat) (uris : list string) (nFiles : list Z) : nat :=
  match uris with
  | [] => O
  | uri :: rest =>
      (if hasByte "*" uri then Z.to_nat (default 0 (nFiles !! i)) else 1)
      + countFrom (S i) rest nFiles
  end.

Lemma buildFrom_spec (uris : list string) (nFiles : list Z) :
  forall i,
    ((forall k uri, uris !! k = Some uri -> hasByte "*" uri = true ->
                    (i + k < length nFiles)%nat) ->
     exists res,
       buildFrom i uris nFiles = Done res /\
       length res = countFrom i uris nFiles /\
       forall out, out ∈ res ->
         (out ∈ uris /\ hasByte "*" out = false) \/
         exists uri pre suf k cnt n,
           uris !! k = Some uri /\ nFiles !! (i + k)%nat = Some cnt /\
           uri = pre +:+ String "*" suf /\ hasByte "*" pre = false /\
           0 <= Z.of_N n < cnt /\ out = pre +:+ Sprintf012d n +:+ suf) /\
    ((exists k uri, uris !! k = Some uri /\ hasByte "*" uri = true /\
                    (length nFiles <= i + k)%nat) ->
     buildFrom i uris nFiles = Panic).
Proof.
  induction uris as [|uri rest IH]; intros i.
  { split.
    - intros _. exists []. split; [reflexivity|]. split; [reflexivity|].
      intros out Hout. inversion Hout.
    - intros (k & u & Hk & _). now rewrite lookup_nil in Hk. }
  destruct (IH (S i)) as [IHok IHpanic]. cbn [buildFrom countFrom].
  rewrite Contains_byte. split.
  - intros Hlen.
    destruct IHok as (r & Er & Hr & Hout).
    { intros k u Hk Hu. specialize (Hlen (S k) u Hk Hu). lia. }
    rewrite Er.
    assert (Hrest : forall out, out ∈ r ->
       (out ∈ uri :: rest /\ hasByte "*" out = false) \/
       exists uri0 pre suf k cnt n,
         (uri :: rest) !! k = Some uri0 /\ nFiles !! (i + k)%nat = Some cnt /\
         uri0 = pre +:+ String "*" suf /\ hasByte "*" pre = false /\
         0 <= Z.of_N n < cnt /\ out = pre +:+ Sprintf012d n +:+ suf).
    { intros out Ho. destruct (Hout out Ho) as [[Hin Hs]|(u & pre & suf & k & cnt & n & Hk & Hc & H)].
      - left. split; [now right | exact Hs].
      - right. exists u, pre, suf, (S k), cnt, n. split; [exact Hk|].
        split; [|exact H]. now replace (i + S k)%nat with (S i + k)%nat by lia. }
    destruct (hasByte "*" uri) eqn:Es; cbn [negb].
    + assert (Hi : (i + 0 < length nFiles)%nat) by (apply (Hlen 0%nat uri); [reflexivity | exact Es]).
      destruct (nFiles !! i) as [cnt|] eqn:Ec;
        [|apply lookup_ge_None in Ec; lia].
      simpl. eexists. split; [reflexivity|]. split.
      * rewrite length_app, Hr. unfold expandUri. now rewrite length_fmap, length_seq.
      * intros out Ho. apply elem_of_app in Ho as [Ho|Ho]; [|now apply Hrest].
        right. unfold expandUri in Ho. apply list_elem_of_fmap in Ho as (n & -> & Hn).
        apply elem_of_seq in Hn.
        destruct (hasByte_split _ _ Es) as (pre & suf & -> & Hp).
        exists (pre +:+ String "*" suf), pre, suf, 0%nat, cnt, (N.of_nat n).
        rewrite Nat.add_0_r. split; [reflexivity|]. split; [exact Ec|].
        split; [reflexivity|]. split; [exact Hp|]. split; [lia|].
        now apply replaceFirst_split.
    + simpl. eexists. split; [reflexivity|]. split; [simpl; now rewrite Hr|].
      intros out Ho. apply elem_of_cons in Ho as [->|Ho]; [|now apply Hrest].
      left. split; [now left | exact Es].
  - intros (k & u & Hk & Hu & Hlen). destruct k as [|k].
    + injection Hk as ->. rewrite Hu. cbn [negb].
      rewrite Nat.add_0_r in Hlen. now rewrite (proj2 (lookup_ge_None nFiles i) Hlen).
    + rewrite IHpanic; [|exists k, u; split; [exact Hk|]; split; [exact Hu | lia]].
      destruct (negb (hasByte "*" uri)); [reflexivity|].
      now destruct (nFiles !! i).
Qed.

Lemma buildFrom_plain (uris : list string) (nFiles : list Z) :
  (forall uri, uri ∈ uris -> hasByte "*" uri = false) ->
  forall i, buildFrom i uris nFiles = Done uris.
Proof.
  induction uris as [|uri rest IH]; intros H i; [reflexivity|].
  cbn [buildFrom]. rewrite Contains_byte.
  assert (Hu : hasByte "*" uri = false) by (apply H; now left).
  rewrite Hu. cbn [negb].
  rewrite IH; [reflexivity|]. intros u Hin. apply H. now right.
Qed.

Lemma buildFrom_panic_inv (uris : list string) (nFiles : list Z) :
  forall i, buildFrom i uris nFiles = Panic ->
    exists k uri, uris !! k = Some uri /\ hasByte "*" uri = true /\
                  (length nFiles <= i + k)%nat.
Proof.
  induction uris as [|uri rest IH]; intros i; [discriminate|].
  cbn [buildFrom]. rewrite Contains_byte.
  assert (Hrest : buildFrom (S i) rest nFiles = Panic ->
            exists k u, (uri :: rest) !! k = Some u /\ hasByte "*" u = true /\
                        (length nFiles <= i + k)%nat).
  { intros E. destruct (IH _ E) as (k & u & Hk & Hu & Hlen).
    exists (S k), u. split; [exact Hk|]. split; [exact Hu | lia]. }
  destruct (hasByte "*" uri) eqn:Es; cbn [negb].
  - destruct (nFiles !! i) as [cnt|] eqn:Ec.
    + destruct (buildFrom (S i) rest nFiles) eqn:E; try discriminate.
      intros _. now apply Hrest.
    + intros _. exists 0%nat, uri. split; [reflexivity|]. split; [exact Es|].
      apply lookup_ge_None in Ec. lia.
  - destruct (buildFrom (S i) rest nFiles) eqn:E; try discriminate.
    intros _. now apply Hrest.
Qed.

(** X13.  [buildExtractDestinationUris] returns the URIs without a "*"
    as they are and in place, whatever the file counts, and replaces a
    URI with a "*" by as many URIs as its file count says (none for a
    count of zero or less), each with the first "*" replaced by a
    number counted from zero and padded with zeros to twelve digits.  It
    panics, by indexing the
    counts out of range, exactly when a URI with a "*" stands at an
    index for which there is no count. *)
Theorem buildExtractDestinationUris_expands_wildcards (uris : list string) (nFiles : list Z) :
  ((forall uri, uri ∈ uris -> hasByte "*" uri = false) ->
   buildExtractDestinationUris uris nFiles = Done uris) /\
  ((forall k uri, uris !! k = Some uri -> hasByte "*" uri = true ->
                  (k < length nFiles)%nat) ->
   exists res,
     buildExtractDestinationUris uris nFiles = Done res /\
     length res = countFrom 0 uris nFiles /\
     forall out, out ∈ res ->
       (out ∈ uris /\ hasByte "*" out = false) \/
       exists uri pre suf k cnt n,
         uris !! k = Some uri /\ nFiles !! k = Some cnt /\
         uri = pre +:+ String "*" suf /\ hasByte "*" pre = false /\
         0 <= Z.of_N n < cnt /\ out = pre +:+ Sprintf012d n +:+ suf) /\
  (buildExtractDestinationUris uris nFiles = Panic <->
   exists k uri, uris !! k = Some uri /\ hasByte "*" uri = true /\
                 (length nFiles <= k)%nat).
Proof.
  unfold buildExtractDestinationUris.
  destruct (buildFrom_spec uris nFiles 0) as [Hok Hpanic]. cbn [Nat.add] in *.
  split; [|split; [exact Hok|split; [|exact Hpanic]]].
  - intros H. now apply buildFrom_plain.
  - intros Hp. exact (buildFrom_panic_inv uris nFiles 0 Hp).
Qed.

(** ** URIs of GCS objects *)

(** [g.UrlForName(name)], for the bucket of [g]. *)
Definition UrlForName (bucket name : string) : string :=
  "gs://" +:+ bucket +:+ "/" +:+ name.

Lemma substring_whole (s : string) : substring 0 (String.length s) s = s.
Proof. induction s as [|a s IH]; simpl; [reflexivity | now rewrite IH]. Qed.

Lemma substring_0_app (s t : string) : substring 0 (String.length s) (s +:+ t) = s.
Proof.
  induction s as [|a s IH]; [now destruct t|].
  change (String a (substring 0 (String.length s) (s +:+ t)) = String a s).
  now rewrite IH.
Qed.

Lemma substring_skip_app (s t : string) (m : nat) :
  substring (String.length s) m (s +:+ t) = substring 0 m t.
Proof.
  induction s as [|a s IH]; [reflexivity|].
  change (substring (String.length s) m (s +:+ t) = substring 0 m t). exact IH.
Qed.

Lemma length_app_string (s t : string) :
  String.length (s +:+ t) = (String.length s + String.length t)%nat.
Proof.
  induction s as [|a s IH]; [reflexivity|].
  change (S (String.length (s +:+ t)) = S (String.length s + String.length t)).
  now rewrite IH.
Qed.

Lemma prefix_byte (c b : ascii) (s : string) :
  String.prefix (String c "") (String b s) = Ascii.eqb b c.
Proof.
  simpl. destruct (ascii_dec c b) as [->|Hne].
  - rewrite Ascii.eqb_refl. now destruct s.
  - symmetry. apply Ascii.eqb_neq. congruence.
Qed.

Lemma index_byte_app (c : ascii) (b n : string) :
  hasByte c b = false ->
  index 0 (String c "") (b +:+ String c n) = Some (String.length b).
Proof.
  induction b as [|a b IH]; intros H.
  - change (index 0 (String c "") (String c n) = Some 0%nat).
    cbn [index]. now rewrite prefix_byte, Ascii.eqb_refl.
  - cbn [hasByte] in H. apply orb_false_iff in H as [Ha Hb].
    change (index 0 (String c "") (String a (b +:+ String c n))
            = Some (S (String.length b))).
    cbn [index]. rewrite prefix_byte, Ha. now rewrite (IH Hb).
Qed.

Lemma index_byte_inv (c : ascii) (s : string) (i : nat) :
  index 0 (String c "") s = Some i ->
  s = substring 0 i s +:+ String c (substring (S i) (String.length s - S i) s) /\
  hasByte c (substring 0 i s) = false.
Proof.
  revert i. induction s as [|a s IH]; intros i; [discriminate|].
  cbn [index]. rewrite prefix_byte. destruct (Ascii.eqb a c) eqn:E.
  - intros [= <-]. apply Ascii.eqb_eq in E as ->. split; [|reflexivity].
    change (String c s = String c (substring 0 (String.length s - 0) s)).
    now rewrite Nat.sub_0_r, substring_whole.
  - destruct (index 0 (String c "") s) as [j|] eqn:Ej; [|discriminate].
    intros [= <-]. destruct (IH j eq_refl) as [Hs Hb]. split.
    + change (String a s
              = String a (substring 0 j s
                          +:+ String c (substring (S j) (String.length s - S j) s))).
      now rewrite <- Hs.
    + change (hasByte c (String a (substring 0 j s)) = false).
      cbn [hasByte]. now rewrite E, Hb.
Qed.

Lemma prefix_split (p s : string) :
  String.prefix p s = true ->
  s = p +:+ substring (String.length p) (String.length s - String.length p) s.
Proof.
  revert s. induction p as [|a p IH]; intros s H.
  - change (s = substring 0 (String.length s - 0) s).
    now rewrite Nat.sub_0_r, substring_whole.
  - destruct s as [|b s]; [discriminate|]. simpl in H.
    destruct (ascii_dec a b) as [->|]; [|discriminate].
    change (String b s
            = String b (p +:+ substring (String.length p)
                                (String.length s - String.length p) s)).
    now rewrite <- (IH s H).
Qed.

(** X23.  [ParseGcsUri] undoes [UrlForName] for a bucket without a "/":
    it returns the bucket and the name, whatever the name holds.  And a
    URI that [ParseGcsUri] accepts is [UrlForName] of the bucket and the
    name it returns, and that bucket holds no "/": the URI is cut at the
    first "/" after the scheme. *)
Theorem ParseGcsUri_undoes_UrlForName (bucket name : string) :
  (hasByte "/" bucket = false ->
   ParseGcsUri (UrlForName bucket name) = inr (bucket, name)) /\
  (forall uri b n, ParseGcsUri uri = inr (b, n) ->
     uri = UrlForName b n /\ hasByte "/" b = false).
Proof.
  split.
  - intros Hb. unfold ParseGcsUri, UrlForName.
    set (rest := bucket +:+ "/" +:+ name).
    assert (Hp : String.prefix "gs://" ("gs://" +:+ rest) = true).
    { change ("gs://" +:+ rest)
        with (String "g" (String "s" (String ":" (String "/" (String "/" rest))))).
      simpl. now destruct rest. }
    rewrite Hp.
    assert (Hr : substring 5 (String.length ("gs://" +:+ rest) - 5) ("gs://" +:+ rest)
                 = rest).
    { rewrite length_app_string.
      replace (String.length "gs://" + String.length rest - 5)%nat
        with (String.length rest) by (simpl; lia).
      rewrite (substring_skip_app "gs://" rest). apply substring_whole. }
    rewrite Hr. unfold rest.
    change (bucket +:+ "/" +:+ name) with (bucket +:+ String "/" name).
    rewrite (index_byte_app _ _ _ Hb), substring_0_app. do 2 f_equal.
    rewrite length_app_string.
    change (String.length (String "/" name)) with (S (String.length name)).
    replace (String.length bucket + S (String.length name) - S (String.length bucket))%nat
      with (String.length name) by lia.
    change (S (String.length bucket)) with (String.length (String "/" bucket)) at 1.
    clear. induction bucket as [|a bucket IH].
    + change (substring 0 (String.length name) name = name). apply substring_whole.
    + change (substring (S (String.length bucket)) (String.length name)
                (bucket +:+ String "/" name) = name). exact IH.
  - intros uri b n. unfold ParseGcsUri, UrlForName.
    destruct (String.prefix "gs://" uri) eqn:Hp; [|discriminate].
    apply prefix_split in Hp. change (String.length "gs://") with 5%nat in Hp.
    set (rest := substring 5 (String.length uri - 5) uri) in *.
    destruct (index 0 "/" rest) as [i|] eqn:Ei; [|discriminate].
    intros [= <- <-]. destruct (index_byte_inv _ _ _ Ei) as [Hs Hb].
    split; [|exact Hb]. rewrite Hp at 1. f_equal. exact Hs.
Qed.

End model.

(* ===================================================================== *)
(** * Package scheduler: conditions as JSON (condition.go)                *)
(* ===================================================================== *)

Module scheduler_json.
Import GoTime scheduler_condition.

(** A [Condition] as Go holds it: each of its four maps may be nil.
    Reading a nil map is reading an empty one. *)
Record goCondition := mkGoCondition {
  gMonths : option (gmap Z bool);
  gWeekdays : option (gmap Z bool);
  gDays : option (gmap Z bool);
  gHours : option (gmap Z bool)
}.

Definition orEmpty (m : option (gmap Z bool)) : gmap Z bool := default ∅ m.

Definition deref (c : goCondition) : Condition :=
  {| cMonths := orEmpty (gMonths c); cWeekdays := orEmpty (gWeekdays c);
     cDays := orEmpty (gDays c); cHours := orEmpty (gHours c) |}.

(** [sort.Ints]. *)
Definition Ints (l : list Z) : list Z := gosort.SliceStable Z.ltb l.

(** The keys of a map, in the order of a range over it. *)
Definition keys (m : gmap Z bool) : list Z := (map_to_list m).*1.

(** The object that [MarshalJSON] hands to [json.Marshal], and that
    [json.Unmarshal] decodes for [UnmarshalJSON]: for each of the four
    names the array of numbers, or no entry. *)
Record jsonCondition := mkJsonCondition {
  jMonths : option (list Z);
  jWeekdays : option (list Z);
  jDays : option (list Z);
  jHours : option (list Z)
}.

(** One block of [MarshalJSON]: no entry for a nil map, and the sorted
    keys otherwise, whatever the values stored under them. *)
Definition marshalField (m : option (gmap Z bool)) : option (list Z) :=
  (fun m' => Ints (keys m')) <$> m.

Definition MarshalJSON (c : goCondition) : jsonCondition :=
  {| jMonths := marshalField (gMonths c); jWeekdays := marshalField (gWeekdays c);
     jDays := marshalField (gDays c); jHours := marshalField (gHours c) |}.

(** [UnmarshalJSON]: the four maps are made, and each number of an array
    is stored with [true]; a name without entry leaves its slice empty. *)
Definition unmarshalField (a : option (list Z)) : option (gmap Z bool) :=
  Some (fromList (default [] a)).

Definition UnmarshalJSON (j : jsonCondition) : goCondition :=
  {| gMonths := unmarshalField (jMonths j); gWeekdays := unmarshalField (jWeekdays j);
     gDays := unmarshalField (jDays j); gHours := unmarshalField (jHours j) |}.

(** [TestCondition_MarshalJSON] and [TestCondition_UnmarshalJSON]. *)
Example TestCondition_MarshalJSON :
  MarshalJSON {| gMonths := None; gWeekdays := Some {[ 1 := true ]};
                 gDays := None; gHours := Some {[ 9 := true ]} |}
  = {| jMonths := None; jWeekdays := Some [1]; jDays := None; jHours := Some [9] |}.
Proof. vm_compute. reflexivity. Qed.

Example TestCondition_UnmarshalJSON :
  let cond := deref (UnmarshalJSON {| jMonths := Some [1; 2]; jWeekdays := Some [1; 3];
                                      jDays := None; jHours := Some [0; 12] |}) in
  Satisfied cond (Date 2017 1 30 12 0 0 0) = true /\
  Satisfied cond (Date 2017 2 15 0 0 0 0) = true.
Proof. vm_compute. auto. Qed.

(** Every value stored in the map is [true]. *)
Definition allTrue (m : option (gmap Z bool)) : Prop :=
  forall k v, orEmpty m !! k = Some v -> v = true.

Lemma Ints_elem_of (l : list Z) (k : Z) : k ∈ Ints l <-> k ∈ l.
Proof. apply gosort.SliceStable_elem_of. Qed.

Lemma Ints_increasing (l : list Z) :
  NoDup l -> StronglySorted Z.lt (Ints l).
Proof.
  intros Hnd.
  assert (Hnd' : NoDup (Ints l))
    by (unfold Ints; now rewrite gosort.SliceStable_Permutation).
  assert (Ho : gosort.ordered Z.ltb (Ints l)).
  { apply gosort.SliceStable_ordered.
    - intros a b c. rewrite !Z.ltb_ge. lia.
    - intros a b. rewrite Z.ltb_lt, Z.ltb_ge. lia. }
  unfold gosort.ordered in Ho.
  induction Ho as [|a k Hk IH Ha]; [constructor|].
  apply NoDup_cons in Hnd' as [Hnin Hnd'].
  constructor; [now apply IH|].
  apply Forall_forall. intros b Hb. rewrite Forall_forall in Ha.
  specialize (Ha b Hb). apply Z.ltb_ge in Ha.
  assert (a <> b) by (intros ->; contradiction). lia.
Qed.

Lemma elem_of_keys (m : gmap Z bool) (k : Z) : k ∈ keys m <-> is_Some (m !! k).
Proof.
  unfold keys. rewrite list_elem_of_fmap. split.
  - intros ([k' v] & -> & Hin). apply elem_of_map_to_list in Hin. eauto.
  - intros [v Hv]. exists (k, v). split; [reflexivity|]. now apply elem_of_map_to_list.
Qed.

Lemma fromList_keys (m : gmap Z bool) (k : Z) :
  fromList (Ints (keys m)) !! k = (fun _ => true) <$> m !! k.
Proof.
  rewrite fromList_lookup.
  destruct (decide (k ∈ Ints (keys m))) as [H|H];
    rewrite Ints_elem_of, elem_of_keys in H.
  - destruct H as [v ->]. reflexivity.
  - destruct (m !! k); [exfalso; eauto | reflexivity].
Qed.

Lemma roundtrip_field (m : option (gmap Z bool)) :
  orEmpty (unmarshalField (marshalField m)) = (fun _ => true) <$> orEmpty m.
Proof.
  apply map_eq. intros k. rewrite lookup_fmap.
  destruct m as [m|]; simpl; [apply fromList_keys|].
  now rewrite lookup_empty.
Qed.

Lemma roundtrip_field_test (m : option (gmap Z bool)) (k : Z) :
  (0 <? len (orEmpty m)) && negb (index (orEmpty m) k) = false ->
  (0 <? len (orEmpty (unmarshalField (marshalField m))))
  && negb (index (orEmpty (unmarshalField (marshalField m))) k) = false.
Proof.
  rewrite roundtrip_field. unfold len, index. rewrite map_size_fmap, lookup_fmap.
  destruct (0 <? Z.of_nat (size (orEmpty m))); [|reflexivity].
  simpl. destruct (orEmpty m !! k) as [[]|]; simpl; congruence.
Qed.

(** X9.  Writing a condition as JSON and reading it back gives, for each
    of the four sets, a map with the same keys and [true] under each; so
    a condition whose maps hold no [false] is read back as it was (a nil
    map as an empty one), and in any case every moment that satisfied
    the condition satisfies the one read back.  The arrays written are
    in increasing order, without repetition, and hold the keys of the
    map; a nil map writes no entry. *)
Theorem MarshalJSON_UnmarshalJSON_round_trip :
  (forall c : goCondition,
     allTrue (gMonths c) -> allTrue (gWeekdays c) ->
     allTrue (gDays c) -> allTrue (gHours c) ->
     deref (UnmarshalJSON (MarshalJSON c)) = deref c) /\
  (forall (c : goCondition) (now : Time),
     Satisfied (deref c) now = true ->
     Satisfied (deref (UnmarshalJSON (MarshalJSON c))) now = true) /\
  (forall m : option (gmap Z bool),
     match marshalField m with
     | None => m = None
     | Some l => StronglySorted Z.lt l /\ forall k, k ∈ l <-> is_Some (orEmpty m !! k)
     end).
Proof.
  assert (Hsame : forall m, allTrue m ->
            orEmpty (unmarshalField (marshalField m)) = orEmpty m).
  { intros m Ht. rewrite roundtrip_field. apply map_eq. intros k.
    rewrite lookup_fmap. destruct (orEmpty m !! k) as [v|] eqn:E; [|reflexivity].
    simpl. now rewrite (Ht k v E). }
  split; [|split].
  - intros c H1 H2 H3 H4. unfold deref, UnmarshalJSON, MarshalJSON.
    cbn [gMonths gWeekdays gDays gHours jMonths jWeekdays jDays jHours].
    now rewrite !Hsame.
  - intros c now. unfold Satisfied, deref, UnmarshalJSON, MarshalJSON.
    cbn [gMonths gWeekdays gDays gHours jMonths jWeekdays jDays jHours
         cMonths cWeekdays cDays cHours].
    destruct ((0 <? len (orEmpty (gMonths c)))
              && negb (index (orEmpty (gMonths c)) (Month now))) eqn:E1; [discriminate|].
    destruct ((0 <? len (orEmpty (gWeekdays c)))
              && negb (index (orEmpty (gWeekdays c)) (Weekday now))) eqn:E2; [discriminate|].
    destruct ((0 <? len (orEmpty (gDays c)))
              && negb (index (orEmpty (gDays c)) (Day now))) eqn:E3; [discriminate|].
    destruct ((0 <? len (orEmpty (gHours c)))
              && negb (index (orEmpty (gHours c)) (Hour now))) eqn:E4; [discriminate|].
    intros _.
    now rewrite (roundtrip_field_test _ _ E1), (roundtrip_field_test _ _ E2),
      (roundtrip_field_test _ _ E3), (roundtrip_field_test _ _ E4).
  - intros [m|]; simpl; [|reflexivity]. split.
    + apply Ints_increasing. apply NoDup_fst_map_to_list.
    + intros k. rewrite Ints_elem_of. apply elem_of_keys.
Qed.

End scheduler_json.

(* ===================================================================== *)
(** * Package model: the run and reimport conditions of a table           *)
(* ===================================================================== *)

Module table_conditions.
Import GoTime scheduler_condition.

(** The fields of [Table] that the two tests read. *)
Record Table := mkTable {
  Conditions : list Condition;
  ReimportCond : list Condition;
  ImportedAt : Time
}.









End table_conditions.
